(** * Mask processing kernels of flutter-sticker-maker

    A shallow embedding of the three numeric kernels of
    [mask_processor.c] (threshold compositing, separable box smoothing
    and mask expansion), of their helpers, of the dispatch functions of
    [simd_optimizations.c] and of [aligned_malloc], together with the
    properties stated about them.

    Conventions of the embedding:
    - a C [double] is a binary64 value, modelled by Rocq's primitive
      [float]; the arithmetic and the comparisons are the IEEE 754 ones;
    - a C [int] is modelled by [Z]; signed overflow is undefined in C.
      The squares that [expand_mask_native] of [src/native] computes
      ([border_width * border_width] and [dx * dx + dy * dy]) leave the
      range of [int] with buffers of ordinary size (always from a radius
      of 46341, and on large grids for some radii above 32767): they are
      checked, and an overflow ends the run in [Fault SignedOverflow].  Once these are in range, the other
      [int] expressions (indices into the buffers, coordinates plus a
      radius) overflow only with buffers of more than 2 GiB: there the
      model describes the calls on which they do not;
    - a buffer is a list indexed from 0, a possibly null pointer is an
      [option]; distinct pointer arguments denote distinct buffers;
    - every array access is checked: an access outside its buffer makes
      the run end in [Fault OutOfBounds], a conversion from [double] to
      [int] whose value does not fit ends it in
      [Fault UndefinedConversion];
    - the result of [malloc] is an argument of the model: [None] when the
      allocation fails, otherwise the fresh block with whatever it holds;
    - a [size_t] is modelled by [Z] with its wrap-around, modulo
      [2^size_bits], written out; the macros that select code at build
      time ([__ARM_NEON], [__SSE2__], the platform) are arguments.

    [src/native/mask_processor.c] and [ios/Classes/mask_processor.c]
    share [apply_sticker_mask_native] and [smooth_mask_native] line for
    line (up to the allocator called); they differ in
    [expand_mask_native], modelled once per file in the modules [Native]
    and [Ios]. *)

From Stdlib Require Import ZArith Lia List Bool Floats Uint63 Reals Lra Psatz.
From stdpp Require Import base list.

Set Warnings "-inexact-float".
Local Open Scope Z_scope.

(** ** Status codes and colours ([mask_processor.h]) *)

Inductive MaskProcessorResult : Type :=
  | MASK_PROCESSOR_SUCCESS
  | MASK_PROCESSOR_ERROR_INVALID_PARAMS
  | MASK_PROCESSOR_ERROR_MEMORY
  | MASK_PROCESSOR_ERROR_PROCESSING.

Definition result_code (c : MaskProcessorResult) : Z :=
  match c with
  | MASK_PROCESSOR_SUCCESS => 0
  | MASK_PROCESSOR_ERROR_INVALID_PARAMS => -1
  | MASK_PROCESSOR_ERROR_MEMORY => -2
  | MASK_PROCESSOR_ERROR_PROCESSING => -3
  end.

Record RGBColor : Type := { r : Z; g : Z; b : Z }.

(** ** Runs that may leave defined behaviour *)

Inductive fault : Type := OutOfBounds | UndefinedConversion | SignedOverflow.

Inductive exec (A : Type) : Type :=
  | Ok (a : A)
  | Fault (f : fault).
Arguments Ok {A} a.
Arguments Fault {A} f.

Definition bind {A B : Type} (m : exec A) (k : A -> exec B) : exec B :=
  match m with
  | Ok a => k a
  | Fault f => Fault f
  end.

Notation "'let*' x ':=' m 'in' k" := (bind m (fun x => k))
  (at level 10, x name, m at level 200, k at level 200, only parsing).
Notation "'let*' ' pat ':=' m 'in' k" :=
  (bind m (fun x => match x with pat => k end))
  (at level 10, pat pattern, m at level 200, k at level 200, only parsing).

(** ** Buffers *)

Definition load {A : Type} (buf : list A) (i : Z) : exec A :=
  if i <? 0 then Fault OutOfBounds
  else match buf !! Z.to_nat i with
       | Some v => Ok v
       | None => Fault OutOfBounds
       end.

Definition store {A : Type} (buf : list A) (i : Z) (v : A) : exec (list A) :=
  if (0 <=? i) && (i <? Z.of_nat (length buf))
  then Ok (<[Z.to_nat i := v]> buf)
  else Fault OutOfBounds.

(** [memset(dst, 0, sizeof(double) * n)] *)
Definition memset_zero (dst : list float) (n : Z) : exec (list float) :=
  if (0 <=? n) && (n <=? Z.of_nat (length dst))
  then Ok (replicate (Z.to_nat n) 0%float ++ drop (Z.to_nat n) dst)
  else Fault OutOfBounds.

(** [memcpy(dst, src, sizeof(double) * n)] *)
Definition memcpy (dst src : list float) (n : Z) : exec (list float) :=
  if (0 <=? n) && (n <=? Z.of_nat (length dst)) && (n <=? Z.of_nat (length src))
  then Ok (take (Z.to_nat n) src ++ drop (Z.to_nat n) dst)
  else Fault OutOfBounds.

(** ** Counted loops

    [for_range lo hi body s] is [for (int i = lo; i < hi; i++) body],
    started in state [s]. *)

Fixpoint for_loop {S : Type} (n : nat) (i : Z) (body : Z -> S -> exec S) (s : S)
  : exec S :=
  match n with
  | O => Ok s
  | Datatypes.S n' => let* s' := body i s in for_loop n' (i + 1) body s'
  end.

Definition for_range {S : Type} (lo hi : Z) (body : Z -> S -> exec S) (s : S)
  : exec S :=
  for_loop (Z.to_nat (hi - lo)) lo body s.

(** ** Constants and scalar helpers *)

Definition THRESHOLD : float := 0.5%float.
Definition THRESHOLD_HIGH : float := (THRESHOLD + 0.05)%float.
Definition THRESHOLD_LOW : float := (THRESHOLD - 0.05)%float.
Definition THRESHOLD_RANGE : float := 0.1%float.

Definition INT_MIN : Z := -2147483648.
Definition INT_MAX : Z := 2147483647.

(** The value of an [int] expression whose mathematical value is [z]:
    undefined when [z] is not the value of an [int]. *)
Definition int_expr (z : Z) : exec Z :=
  if (INT_MIN <=? z) && (z <=? INT_MAX) then Ok z else Fault SignedOverflow.

Definition clamp_int (value min max : Z) : Z :=
  if value <? min then min
  else if max <? value then max
  else value.

(** [(uint8_t)v] *)
Definition uint8_t (v : Z) : Z := v mod 256.

(** [(double)n] for an [int] [n] *)
Definition double_of_int (n : Z) : float :=
  if n <? 0 then (- of_uint63 (of_Z (- n)))%float else of_uint63 (of_Z n).

(** The nearest integer to [m * 2^e], halfway cases away from zero
    ([m] is a magnitude). *)
Definition round_magnitude (m e : Z) : Z :=
  if 0 <=? e then m * 2 ^ e
  else (m + 2 ^ (- e - 1)) / 2 ^ (- e).

(** [round(x)] of [math.h].  The result of [round] is an integral
    double, an infinity or a NaN; it is represented by the integer it
    denotes, [None] standing for the infinities and NaN. *)
Definition round (x : float) : option Z :=
  match Prim2SF x with
  | S754_zero _ => Some 0
  | S754_finite s m e => Some (cond_Zopp s (round_magnitude (Zpos m) e))
  | S754_infinity _ => None
  | S754_nan => None
  end.

(** [(int)v] for an integral double [v]: undefined unless the value is
    that of an [int]. *)
Definition int_of_double (v : option Z) : exec Z :=
  match v with
  | Some z => if (INT_MIN <=? z) && (z <=? INT_MAX) then Ok z
              else Fault UndefinedConversion
  | None => Fault UndefinedConversion
  end.

(** ** [apply_sticker_mask_native] (both files) *)

Definition apply_sticker_mask_native
    (pixels : option (list Z)) (mask : option (list float))
    (width height add_border : Z) (border_color : RGBColor) (border_width : Z)
    (expanded_mask : option (list float))
  : exec (MaskProcessorResult * option (list Z)) :=
  match pixels, mask with
  | Some pixels0, Some mask =>
    if (width <=? 0) || (height <=? 0)
    then Ok (MASK_PROCESSOR_ERROR_INVALID_PARAMS, pixels)
    else
      let total_pixels := width * height in
      let* pixels' := for_range 0 total_pixels (fun i pixels =>
        let pixel_index := i * 4 in
        let* mask_value := load mask i in
        let* expanded_mask_value :=
          match expanded_mask with
          | Some expanded_mask => load expanded_mask i
          | None => Ok mask_value
          end in
        if (THRESHOLD_HIGH <? mask_value)%float then
          store pixels (pixel_index + 3) 255
        else if (mask_value <? THRESHOLD_LOW)%float then
          if negb (add_border =? 0) && (THRESHOLD <? expanded_mask_value)%float
          then
            let* pixels := store pixels pixel_index (r border_color) in
            let* pixels := store pixels (pixel_index + 1) (g border_color) in
            let* pixels := store pixels (pixel_index + 2) (b border_color) in
            store pixels (pixel_index + 3) 255
          else
            store pixels (pixel_index + 3) 0
        else
          let* rounded := int_of_double
            (round ((mask_value - THRESHOLD_LOW) / THRESHOLD_RANGE * 255.0)%float) in
          let alpha := clamp_int rounded 0 255 in
          store pixels (pixel_index + 3) (uint8_t alpha)) pixels0 in
      Ok (MASK_PROCESSOR_SUCCESS, Some pixels')
  | _, _ => Ok (MASK_PROCESSOR_ERROR_INVALID_PARAMS, pixels)
  end.

(** ** [smooth_mask_native] (both files)

    [temp] is the block returned by [malloc] / [aligned_malloc]. *)

Definition smooth_mask_native
    (mask output : option (list float)) (width height kernel_size : Z)
    (temp : option (list float))
  : exec (MaskProcessorResult * option (list float)) :=
  match mask, output with
  | Some mask, Some output0 =>
    if (width <=? 0) || (height <=? 0) || (kernel_size <=? 0)
    then Ok (MASK_PROCESSOR_ERROR_INVALID_PARAMS, output)
    else if kernel_size <=? 1 then
      let* output' := memcpy output0 mask (width * height) in
      Ok (MASK_PROCESSOR_SUCCESS, Some output')
    else
      match temp with
      | None => Ok (MASK_PROCESSOR_ERROR_MEMORY, output)
      | Some temp0 =>
        let half_kernel := Z.quot kernel_size 2 in
        (* Horizontal pass *)
        let* temp' := for_range 0 height (fun y temp =>
          for_range 0 width (fun x temp =>
            let* '(sum, count) := for_range (- half_kernel) (half_kernel + 1)
              (fun kx '(sum, count) =>
                 let nx := x + kx in
                 if (0 <=? nx) && (nx <? width) then
                   let* v := load mask (y * width + nx) in
                   Ok ((sum + v)%float, count + 1)
                 else Ok (sum, count))
              (0%float, 0) in
            store temp (y * width + x) (sum / double_of_int count)%float) temp)
          temp0 in
        (* Vertical pass *)
        let* output' := for_range 0 height (fun y output =>
          for_range 0 width (fun x output =>
            let* '(sum, count) := for_range (- half_kernel) (half_kernel + 1)
              (fun ky '(sum, count) =>
                 let ny := y + ky in
                 if (0 <=? ny) && (ny <? height) then
                   let* v := load temp' (ny * width + x) in
                   Ok ((sum + v)%float, count + 1)
                 else Ok (sum, count))
              (0%float, 0) in
            store output (y * width + x) (sum / double_of_int count)%float) output)
          output0 in
        Ok (MASK_PROCESSOR_SUCCESS, Some output')
      end
  | _, _ => Ok (MASK_PROCESSOR_ERROR_INVALID_PARAMS, output)
  end.
(** ** [expand_mask_native] of [src/native/mask_processor.c] *)

Module Native.

Definition expand_mask_native
    (mask output : option (list float)) (width height border_width : Z)
  : exec (MaskProcessorResult * option (list float)) :=
  match mask, output with
  | Some mask, Some output0 =>
    if (width <=? 0) || (height <=? 0) || (border_width <? 0)
    then Ok (MASK_PROCESSOR_ERROR_INVALID_PARAMS, output)
    else
      (* Initialize output to zero *)
      let* output1 := memset_zero output0 (width * height) in
      let* border_width_sq := int_expr (border_width * border_width) in
      let* output' := for_range 0 height (fun y output =>
        for_range 0 width (fun x output =>
          let* v := load mask (y * width + x) in
          if (THRESHOLD <? v)%float then
            let start_y := clamp_int (y - border_width) 0 (height - 1) in
            let end_y := clamp_int (y + border_width) 0 (height - 1) in
            let start_x := clamp_int (x - border_width) 0 (width - 1) in
            let end_x := clamp_int (x + border_width) 0 (width - 1) in
            for_range start_y (end_y + 1) (fun ny output =>
              for_range start_x (end_x + 1) (fun nx output =>
                let dx := nx - x in
                let dy := ny - y in
                let* distance_sq := int_expr (dx * dx + dy * dy) in
                if distance_sq <=? border_width_sq
                then store output (ny * width + nx) 1%float
                else Ok output) output) output
          else Ok output) output) output1 in
      Ok (MASK_PROCESSOR_SUCCESS, Some output')
  | _, _ => Ok (MASK_PROCESSOR_ERROR_INVALID_PARAMS, output)
  end.

End Native.

(** ** [expand_mask_native] of [ios/Classes/mask_processor.c]

    The squares of this variant are computed for radii of at most 3
    only. *)

Module Ios.

(** [c && m], [m1 || m2] with C's left-to-right evaluation: the right
    operand is evaluated (and its memory read) only when needed. *)
Definition and_then (c : bool) (m : exec bool) : exec bool :=
  if c then m else Ok false.

Definition or_else (m1 m2 : exec bool) : exec bool :=
  let* c := m1 in if c then Ok true else m2.

(** [buf[i] > 0.0] *)
Definition positive_at (buf : list float) (i : Z) : exec bool :=
  let* v := load buf i in Ok (0 <? v)%float.

(** [if (temp_buffer[idx] == 0.0) { if (hit) output[idx] = 1.0; }] *)
Definition grow_at (temp_buffer : list float) (idx : Z) (hit : exec bool)
    (output : list float) : exec (list float) :=
  let* c := load temp_buffer idx in
  if (c =? 0)%float then
    let* h := hit in
    if h then store output idx 1%float else Ok output
  else Ok output.

Definition expand_mask_native
    (mask output : option (list float)) (width height border_width : Z)
    (temp_buffer : option (list float))
  : exec (MaskProcessorResult * option (list float)) :=
  match mask, output with
  | Some mask, Some output0 =>
    if (width <=? 0) || (height <=? 0) || (border_width <? 0)
    then Ok (MASK_PROCESSOR_ERROR_INVALID_PARAMS, output)
    else if border_width =? 0 then
      (* If border_width is 0, just copy the mask *)
      let* output' := memcpy output0 mask (width * height) in
      Ok (MASK_PROCESSOR_SUCCESS, Some output')
    else
      let* output1 := memset_zero output0 (width * height) in
      if border_width <=? 3 then
        (* int kernel_offsets[64]; int kernel_count = 0; *)
        let* '(kernel_offsets, kernel_count) :=
          for_range (- border_width) (border_width + 1) (fun dy st =>
            for_range (- border_width) (border_width + 1)
              (fun dx '(kernel_offsets, kernel_count) =>
                 if dx * dx + dy * dy <=? border_width * border_width then
                   let* kernel_offsets :=
                     store kernel_offsets kernel_count (dy * width + dx) in
                   Ok (kernel_offsets, kernel_count + 1)
                 else Ok (kernel_offsets, kernel_count)) st)
            (replicate 64 0, 0) in
        (* Apply kernel to each foreground pixel *)
        let* output' := for_range 0 height (fun y output =>
          for_range 0 width (fun x output =>
            let* v := load mask (y * width + x) in
            if (THRESHOLD <? v)%float then
              let center_idx := y * width + x in
              for_range 0 kernel_count (fun k output =>
                let* offset := load kernel_offsets k in
                let target_idx := center_idx + offset in
                let target_y := Z.quot target_idx width in
                let target_x := Z.rem target_idx width in
                if (0 <=? target_y) && (target_y <? height)
                   && (0 <=? target_x) && (target_x <? width)
                then store output target_idx 1%float
                else Ok output) output
            else Ok output) output) output1 in
        Ok (MASK_PROCESSOR_SUCCESS, Some output')
      else
        (* First pass: mark all foreground pixels *)
        let* output2 := for_range 0 (width * height) (fun i output =>
          let* v := load mask i in
          if (THRESHOLD <? v)%float then store output i 1%float
          else Ok output) output1 in
        match temp_buffer with
        | None => Ok (MASK_PROCESSOR_ERROR_MEMORY, Some output2)
        | Some temp_buffer0 =>
          let* '(_, output') :=
            for_range 0 border_width (fun iter '(temp_buffer, output) =>
              let* temp_buffer := memcpy temp_buffer output (width * height) in
              let positive := positive_at temp_buffer in
              let* output := for_range 1 (height - 1) (fun y output =>
                for_range 1 (width - 1) (fun x output =>
                  let idx := y * width + x in
                  grow_at temp_buffer idx
                    (or_else (positive (idx - width - 1))
                    (or_else (positive (idx - width))
                    (or_else (positive (idx - width + 1))
                    (or_else (positive (idx - 1))
                    (or_else (positive (idx + 1))
                    (or_else (positive (idx + width - 1))
                    (or_else (positive (idx + width))
                             (positive (idx + width + 1)))))))))
                    output) output) output in
              (* Handle border pixels separately *)
              let* output := for_range 0 width (fun x output =>
                (* Top row (y = 0) *)
                let* output := grow_at temp_buffer x
                  (or_else (and_then (0 <? x) (positive (x - 1)))
                  (or_else (and_then (x <? width - 1) (positive (x + 1)))
                  (or_else (positive (width + x))
                  (or_else (and_then (0 <? x) (positive (width + x - 1)))
                           (and_then (x <? width - 1)
                                     (positive (width + x + 1)))))))
                  output in
                (* Bottom row *)
                let bottom_idx := (height - 1) * width + x in
                grow_at temp_buffer bottom_idx
                  (or_else (and_then (0 <? x) (positive (bottom_idx - 1)))
                  (or_else (and_then (x <? width - 1) (positive (bottom_idx + 1)))
                  (or_else (positive (bottom_idx - width))
                  (or_else (and_then (0 <? x) (positive (bottom_idx - width - 1)))
                           (and_then (x <? width - 1)
                                     (positive (bottom_idx - width + 1)))))))
                  output) output in
              let* output := for_range 1 (height - 1) (fun y output =>
                (* Left column *)
                let left_idx := y * width in
                let* output := grow_at temp_buffer left_idx
                  (or_else (positive (left_idx - width))
                  (or_else (positive (left_idx - width + 1))
                  (or_else (positive (left_idx + 1))
                  (or_else (positive (left_idx + width))
                           (positive (left_idx + width + 1))))))
                  output in
                (* Right column *)
                let right_idx := y * width + width - 1 in
                grow_at temp_buffer right_idx
                  (or_else (positive (right_idx - width - 1))
                  (or_else (positive (right_idx - width))
                  (or_else (positive (right_idx - 1))
                  (or_else (positive (right_idx + width - 1))
                           (positive (right_idx + width))))))
                  output) output in
              Ok (temp_buffer, output))
              (temp_buffer0, output2) in
          Ok (MASK_PROCESSOR_SUCCESS, Some output')
        end
  | _, _ => Ok (MASK_PROCESSOR_ERROR_INVALID_PARAMS, output)
  end.

End Ios.

(** ** [clamp_double] (both files) *)

Definition clamp_double (value min max : float) : float :=
  if (value <? min)%float then min
  else if (max <? value)%float then max
  else value.

(** ** [simd_optimizations.c]

    [ARM_NEON] and [SSE2] tell whether the macros [__ARM_NEON] and
    [__SSE2__] are defined for the build. *)

Definition apply_sticker_mask_neon
    (pixels : option (list Z)) (mask : option (list float))
    (width height add_border : Z) (border_color : RGBColor) (border_width : Z)
    (expanded_mask : option (list float))
  : exec (MaskProcessorResult * option (list Z)) :=
  apply_sticker_mask_native pixels mask width height add_border border_color
    border_width expanded_mask.

Definition smooth_mask_neon
    (mask output : option (list float)) (width height kernel_size : Z)
    (temp : option (list float))
  : exec (MaskProcessorResult * option (list float)) :=
  smooth_mask_native mask output width height kernel_size temp.

Definition apply_sticker_mask_sse2
    (pixels : option (list Z)) (mask : option (list float))
    (width height add_border : Z) (border_color : RGBColor) (border_width : Z)
    (expanded_mask : option (list float))
  : exec (MaskProcessorResult * option (list Z)) :=
  apply_sticker_mask_native pixels mask width height add_border border_color
    border_width expanded_mask.

Definition smooth_mask_sse2
    (mask output : option (list float)) (width height kernel_size : Z)
    (temp : option (list float))
  : exec (MaskProcessorResult * option (list float)) :=
  smooth_mask_native mask output width height kernel_size temp.

Definition apply_sticker_mask_optimized (ARM_NEON SSE2 : bool)
    (pixels : option (list Z)) (mask : option (list float))
    (width height add_border : Z) (border_color : RGBColor) (border_width : Z)
    (expanded_mask : option (list float))
  : exec (MaskProcessorResult * option (list Z)) :=
  if ARM_NEON then
    apply_sticker_mask_neon pixels mask width height add_border border_color
      border_width expanded_mask
  else if SSE2 then
    apply_sticker_mask_sse2 pixels mask width height add_border border_color
      border_width expanded_mask
  else
    apply_sticker_mask_native pixels mask width height add_border border_color
      border_width expanded_mask.

Definition smooth_mask_optimized (ARM_NEON SSE2 : bool)
    (mask output : option (list float)) (width height kernel_size : Z)
    (temp : option (list float))
  : exec (MaskProcessorResult * option (list float)) :=
  if ARM_NEON then smooth_mask_neon mask output width height kernel_size temp
  else if SSE2 then smooth_mask_sse2 mask output width height kernel_size temp
  else smooth_mask_native mask output width height kernel_size temp.

(** ** [aligned_malloc] ([android/src/cpp/mask_processor.h])

    [size_t] is an unsigned type of [size_bits] bits; the three branches
    of the function are selected by the platform macros. *)

Definition MEMORY_ALIGNMENT : Z := 16384.

Definition size_t (size_bits v : Z) : Z := v mod 2 ^ size_bits.

Inductive platform : Type := ANDROID_API_28 | APPLE | OTHER_PLATFORM.

(** The calls made to the C library *)
Inductive allocation : Type :=
  | aligned_alloc (alignment size : Z)
  | posix_memalign (alignment size : Z)
  | malloc (size : Z).

(** [(size + MEMORY_ALIGNMENT - 1) & ~(MEMORY_ALIGNMENT - 1)] *)
Definition aligned_size (size_bits size : Z) : Z :=
  Z.land (size_t size_bits (size_t size_bits (size + MEMORY_ALIGNMENT) - 1))
         (size_t size_bits (Z.lnot (MEMORY_ALIGNMENT - 1))).

(** [libc] answers an allocation with the block it returns, [None] when
    it fails. *)
Definition aligned_malloc {A : Type} (p : platform) (size_bits : Z)
    (libc : allocation -> option A) (size : Z) : option A :=
  match p with
  | ANDROID_API_28 =>
      libc (aligned_alloc MEMORY_ALIGNMENT (aligned_size size_bits size))
  | APPLE =>
      match libc (posix_memalign MEMORY_ALIGNMENT (aligned_size size_bits size)) with
      | Some ptr => Some ptr
      | None => None
      end
  | OTHER_PLATFORM => libc (malloc size)
  end.

(** * Vocabulary of the statements *)

(** The value that the transition branch of [apply_sticker_mask_native]
    rounds: [(mask_value - THRESHOLD_LOW) / THRESHOLD_RANGE * 255.0]. *)
Definition transition_value (mask_value : float) : float :=
  ((mask_value - THRESHOLD_LOW) / THRESHOLD_RANGE * 255.0)%float.

(** Mask values of the transition band: neither above [THRESHOLD_HIGH]
    nor below [THRESHOLD_LOW], and not a NaN (which also fails both
    comparisons). *)
Definition in_band (m : float) : Prop :=
  (THRESHOLD_HIGH <? m)%float = false /\ (m <? THRESHOLD_LOW)%float = false /\
  is_nan m = false.

(** The four bands of the compositor *)
Inductive band : Type := Foreground | Border | Background | Transition.

Definition classify (add_border : Z) (m e : float) : band :=
  if (THRESHOLD_HIGH <? m)%float then Foreground
  else if (m <? THRESHOLD_LOW)%float then
    if negb (add_border =? 0) && (THRESHOLD <? e)%float then Border
    else Background
  else Transition.

(** The byte of channel [k] (0 = R, 1 = G, 2 = B, 3 = A) left in a pixel
    whose mask value is [m], whose expanded-mask value is [e] and whose
    byte was [old]. *)
Definition composite_byte (add_border : Z) (border_color : RGBColor)
    (m e : float) (k old : Z) : Z :=
  match classify add_border m e with
  | Foreground => if k =? 3 then 255 else old
  | Border =>
      if k =? 0 then r border_color
      else if k =? 1 then g border_color
      else if k =? 2 then b border_color
      else 255
  | Background => if k =? 3 then 0 else old
  | Transition =>
      if k =? 3 then
        match round (transition_value m) with
        | Some z => uint8_t (clamp_int z 0 255)
        | None => old
        end
      else old
  end.

(** The expanded-mask value the compositor uses at cell [i] *)
Definition expanded_value (expanded_mask : option (list float)) (i : Z)
    (m : float) : option float :=
  match expanded_mask with
  | Some expanded_mask => expanded_mask !! Z.to_nat i
  | None => Some m
  end.

(** A buffer of [n] elements *)
Definition sized {A : Type} (buf : list A) (n : Z) : Prop :=
  Z.of_nat (length buf) = n.

(** The calls of the compositor considered: positive dimensions, buffers
    of the sizes the interface requires, no NaN in the mask. *)
Definition valid_composite_call (pixels : list Z) (mask : list float)
    (width height : Z) (expanded_mask : option (list float)) : Prop :=
  0 < width /\ 0 < height /\
  sized pixels (width * height * 4) /\ sized mask (width * height) /\
  (forall em, expanded_mask = Some em -> sized em (width * height)) /\
  Forall (fun m => is_nan m = false) mask.

(** A border pixel: mask value below 0.45, bordering enabled, expanded
    value above 0.5. *)
Definition border_pixel (add_border : Z) (m e : float) : bool :=
  (m <? 0.45)%float && negb (add_border =? 0) && (0.5 <? e)%float.

(** Alpha is non-decreasing in the mask value over the pixels of [px]. *)
Definition alpha_monotone (mask : list float) (px : list Z) : Prop :=
  forall i j mi mj ai aj,
    0 <= i -> 0 <= j ->
    mask !! Z.to_nat i = Some mi -> mask !! Z.to_nat j = Some mj ->
    (mi <=? mj)%float = true ->
    px !! Z.to_nat (i * 4 + 3) = Some ai ->
    px !! Z.to_nat (j * 4 + 3) = Some aj ->
    ai <= aj.

(** Cells of a [width] x [height] grid, stored row by row *)
Definition in_grid (width height x y : Z) : Prop :=
  0 <= x < width /\ 0 <= y < height.

(** Foreground cells: mask value above 0.5 *)
Definition foreground_at (mask : list float) (width x y : Z) : Prop :=
  exists v, mask !! Z.to_nat (y * width + x) = Some v /\ (0.5 <? v)%float = true.

(** [(x, y)] lies within Euclidean distance [border_width] of [(fx, fy)] *)
Definition within (border_width fx fy x y : Z) : Prop :=
  (x - fx) * (x - fx) + (y - fy) * (y - fy) <= border_width * border_width.

(** The squares that [expand_mask_native] of [src/native] computes as
    [int]s are in range: [border_width * border_width], and
    [dx * dx + dy * dy] for the offsets [(dx, dy)] of its window, which
    the clamping keeps within [border_width] and within the grid.  Every
    radius up to 32767 qualifies, and no radius above 46340. *)
Definition squares_in_range (width height border_width : Z) : Prop :=
  border_width * border_width <= INT_MAX /\
  Z.min border_width (width - 1) * Z.min border_width (width - 1)
  + Z.min border_width (height - 1) * Z.min border_width (height - 1)
  <= INT_MAX.

(** [(x, y)] lies within distance [border_width] of a foreground cell that
    satisfies [P] *)
Definition covered_by (P : Z -> Z -> Prop) (mask : list float)
    (width height border_width x y : Z) : Prop :=
  exists fx fy, in_grid width height fx fy /\ foreground_at mask width fx fy /\
                within border_width fx fy x y /\ P fx fy.

(** The dilation of the foreground by the disk of radius [border_width] *)
Definition covered (mask : list float) (width height border_width x y : Z)
  : Prop :=
  covered_by (fun _ _ => True) mask width height border_width x y.

(** [out] is the binary grid that holds 1.0 exactly on the cells of [S] *)
Definition painted (S : Z -> Z -> Prop) (width height : Z) (out : list float)
  : Prop :=
  sized out (width * height) /\
  forall x y, in_grid width height x y ->
    (S x y /\ out !! Z.to_nat (y * width + x) = Some 1%float) \/
    (~ S x y /\ out !! Z.to_nat (y * width + x) = Some 0%float).

(** The 3 x 3 mask whose centre alone is set, and the plus-shaped grid *)
Definition centre_3x3 : list float := [0; 0; 0; 0; 1; 0; 0; 0; 0]%float.
Definition plus_3x3 : list float := [0; 1; 0; 1; 1; 1; 0; 1; 0]%float.

(** A 4 x 4 mask whose top-left cell alone is set *)
Definition corner_4x4 : list float :=
  [1; 0; 0; 0; 0; 0; 0; 0; 0; 0; 0; 0; 0; 0; 0; 0]%float.

(** The value of cell [i] of a buffer (0.0 outside it) *)
Definition cell (buf : list float) (i : Z) : float :=
  default 0%float (buf !! Z.to_nat i).

(** The arithmetic mean of a list of doubles, summed from 0.0 in list
    order and divided by the number of elements *)
Definition mean (l : list float) : float :=
  (fold_left PrimFloat.add l 0 / double_of_int (Z.of_nat (length l)))%float.

(** The positions of the window [c - half .. c + half] that fall inside
    [0 .. n - 1], in increasing order *)
Definition in_bounds_window (c n half : Z) : list Z :=
  seqZ (Z.max 0 (c - half))
       (Z.min (n - 1) (c + half) - Z.max 0 (c - half) + 1).

(** The two passes of the box filter *)
Definition horizontal_mean (mask : list float) (width half x y : Z) : float :=
  mean ((fun nx => cell mask (y * width + nx)) <$> in_bounds_window x width half).

Definition vertical_mean (temp : list float) (width height half x y : Z) : float :=
  mean ((fun ny => cell temp (ny * width + x)) <$> in_bounds_window y height half).

(** * Vocabulary of the further properties *)

(** The status code of a run that returns is one of [codes]. *)
Definition result_among {A : Type} (codes : list MaskProcessorResult)
    (run : exec (MaskProcessorResult * A)) : Prop :=
  match run with
  | Ok (c, _) => In c codes
  | Fault _ => True
  end.

(** The values of a [uint8_t] *)
Definition is_byte (z : Z) : Prop := 0 <= z <= 255.

(** [(x, y)] is reached from a foreground cell by an offset [(ex, ey)] of
    the disk of radius [border_width], cells being taken by their
    row-major index: an offset that leaves a row on one side enters the
    neighbouring row on the other side. *)
Definition covered_by_index (mask : list float)
    (width height border_width x y : Z) : Prop :=
  exists fx fy ex ey,
    in_grid width height fx fy /\ foreground_at mask width fx fy /\
    ex * ex + ey * ey <= border_width * border_width /\
    y * width + x = (fy * width + fx) + (ey * width + ex).

(** [(x, y)] lies within Chebyshev distance [radius] of a foreground
    cell. *)
Definition covered_by_square (mask : list float)
    (width height radius x y : Z) : Prop :=
  exists fx fy,
    in_grid width height fx fy /\ foreground_at mask width fx fy /\
    Z.abs (x - fx) <= radius /\ Z.abs (y - fy) <= radius.

(** [buf[y * width + x] > 0.0] *)
Definition lit (buf : list float) (width x y : Z) : bool :=
  match buf !! Z.to_nat (y * width + x) with
  | Some v => (0 <? v)%float
  | None => false
  end.

Definition in_gridb (width height x y : Z) : bool :=
  (0 <=? x) && (x <? width) && (0 <=? y) && (y <? height).

(** Some 8-connected neighbour of [(x, y)] inside the grid is positive. *)
Definition near (buf : list float) (width height x y : Z) : bool :=
  existsb (fun d : Z * Z =>
             in_gridb width height (x + fst d) (y + snd d)
             && lit buf width (x + fst d) (y + snd d))
    [(-1, -1); (0, -1); (1, -1); (-1, 0); (1, 0); (-1, 1); (0, 1); (1, 1)].

(** * Vocabulary for binary64 reasoning *)

Local Open Scope R_scope.

(** [2^e] as a real number *)
Definition bpow (e : Z) : R := powerRZ 2 e.

(** The real number denoted by a finite float *)
Definition SF2R (f : spec_float) : R :=
  match f with
  | S754_finite s m e => IZR (cond_Zopp s (Zpos m)) * bpow e
  | _ => 0
  end.

(** A real [x] located with respect to the grid of step [bpow e]:
    [m * 2^e <= x < (m + 1) * 2^e], with the position of [x] in that
    interval as [SpecFloat] records it. *)
Definition located (x : R) (m e : Z) (l : location) : Prop :=
  match l with
  | loc_Exact => x = IZR m * bpow e
  | loc_Inexact Lt => IZR m * bpow e < x < (IZR m + /2) * bpow e
  | loc_Inexact Eq => x = (IZR m + /2) * bpow e
  | loc_Inexact Gt => (IZR m + /2) * bpow e < x < (IZR m + 1) * bpow e
  end.

(** [rounded x M E]: [M * 2^E] is [x] rounded to nearest, ties to even,
    for an [x] of the binade of exponent [E]. *)
Definition rounded (x : R) (M E : Z) : Prop :=
  (2 ^ 52 <= M <= 2 ^ 53)%Z /\
  IZR (2 ^ 52) * bpow E <= x < IZR (2 ^ 53) * bpow E /\
  (IZR M - /2) * bpow E <= x <= (IZR M + /2) * bpow E /\
  (x = (IZR M - /2) * bpow E \/ x = (IZR M + /2) * bpow E -> Z.even M = true).

(** The float of mantissa [M] (53 bits, or [2^53] after a carry) and
    exponent [E] *)
Definition normal_float (M E : Z) : spec_float :=
  if (M =? 2 ^ 53)%Z then S754_finite false (Z.to_pos (2 ^ 52)) (E + 1)
  else S754_finite false (Z.to_pos M) E.

(** Positive normal floats with an exponent in [elo, ehi] *)
Definition normal (elo ehi : Z) (f : spec_float) : Prop :=
  exists m e, f = S754_finite false m e /\ Zpos (digits2_pos m) = 53%Z /\
              (elo <= e <= ehi)%Z.

(** [f] is the rounding of the positive real [x] *)
Definition rounds_to (x : R) (elo ehi : Z) (f : spec_float) : Prop :=
  exists M E, rounded x M E /\ (elo <= E /\ E + 1 <= ehi)%Z /\ f = normal_float M E.

(** [f] is the rounding of the non-negative real [x] *)
Definition rounds_nonneg (x : R) (elo ehi : Z) (f : spec_float) : Prop :=
  (x = 0 /\ f = S754_zero false) \/ rounds_to x elo ehi f.

(** The order of floats is the lexicographic order of their keys *)
Definition key (f : spec_float) : Z * Z * Z :=
  match f with
  | S754_nan => (0, 0, 0)%Z
  | S754_infinity true => (-2, 0, 0)%Z
  | S754_infinity false => (2, 0, 0)%Z
  | S754_zero _ => (0, 0, 0)%Z
  | S754_finite true m e => (-1, - e, - Zpos m)%Z
  | S754_finite false m e => (1, e, Zpos m)%Z
  end.

Definition lex_lt (p q : Z * Z * Z) : Prop :=
  let '(a, b, c) := p in
  let '(a', b', c') := q in
  (a < a' \/ (a = a' /\ (b < b' \/ (b = b' /\ c < c'))))%Z.

Definition non_nan (f : spec_float) : bool :=
  match f with S754_nan => false | _ => true end.

Local Close Scope R_scope.

(** * Vocabulary for the range of the smoother *)

(** Mask values of the unit interval: a zero, or a double between
    [2^-500] and 1. *)
Definition unit_value (v : float) : Prop :=
  (v =? 0)%float = true \/
  ((0x1p-500 <=? v)%float = true /\ (v <=? 1)%float = true).

(** A zero, or a positive normal float of exponent at least [elo] and of
    value at most [bound] (itself at most [2^31]) *)
Definition unit_sum (elo bound : Z) (f : spec_float) : Prop :=
  (exists s, f = S754_zero s) \/
  (normal elo (-21) f /\ (SF2R f <= IZR bound)%R).

(** * Binary64 rounding

    The operations of [SpecFloat] on positive normal numbers, related to
    the real numbers they round. *)

Section Binary64Facts.
Local Open Scope R_scope.

Lemma bpow_gt_0 e : 0 < bpow e.
Proof. apply powerRZ_lt. lra. Qed.

Lemma bpow_plus e1 e2 : bpow (e1 + e2) = bpow e1 * bpow e2.
Proof. apply powerRZ_add. lra. Qed.

Lemma bpow_succ e : bpow (e + 1) = 2 * bpow e.
Proof. rewrite bpow_plus. unfold bpow at 2. rewrite powerRZ_1. lra. Qed.

Lemma bpow_0 : bpow 0 = 1.
Proof. reflexivity. Qed.

Lemma bpow_opp e : bpow (- e) = / bpow e.
Proof. apply powerRZ_neg'. Qed.

Lemma bpow_IZR n : (0 <= n)%Z -> bpow n = IZR (2 ^ n).
Proof.
  intros Hn. pattern n. apply natlike_ind; [reflexivity | | exact Hn].
  intros k Hk IH. unfold Z.succ. rewrite bpow_succ, IH, Z.pow_add_r by lia.
  rewrite mult_IZR. simpl (IZR (2 ^ 1)). lra.
Qed.

Lemma bpow_le e1 e2 : (e1 <= e2)%Z -> bpow e1 <= bpow e2.
Proof.
  intros H. replace e2 with (e1 + (e2 - e1))%Z by lia.
  rewrite bpow_plus, (bpow_IZR (e2 - e1)) by lia.
  assert (1 <= IZR (2 ^ (e2 - e1))).
  { apply IZR_le. assert (0 < 2 ^ (e2 - e1))%Z by (apply Z.pow_pos_nonneg; lia). lia. }
  pose proof (bpow_gt_0 e1). nra.
Qed.

Lemma bpow_lt e1 e2 : (e1 < e2)%Z -> 2 * bpow e1 <= bpow e2.
Proof. intros H. rewrite <- bpow_succ. apply bpow_le. lia. Qed.

(** Number of binary digits *)

Lemma digits2_pos_bounds p :
  (2 ^ (Zpos (digits2_pos p) - 1) <= Zpos p < 2 ^ Zpos (digits2_pos p))%Z.
Proof.
  induction p as [p IH | p IH |]; simpl digits2_pos.
  - rewrite Pos2Z.inj_succ.
    replace (Z.succ (Zpos (digits2_pos p)) - 1)%Z with (Z.succ (Zpos (digits2_pos p) - 1))%Z by lia.
    rewrite !Z.pow_succ_r by lia. lia.
  - rewrite Pos2Z.inj_succ.
    replace (Z.succ (Zpos (digits2_pos p)) - 1)%Z with (Z.succ (Zpos (digits2_pos p) - 1))%Z by lia.
    rewrite !Z.pow_succ_r by lia. lia.
  - simpl. lia.
Qed.

Lemma digits2_pos_unique p d :
  (2 ^ (d - 1) <= Zpos p < 2 ^ d)%Z -> Zpos (digits2_pos p) = d.
Proof.
  intros [H1 H2]. pose proof (digits2_pos_bounds p) as [H3 H4].
  set (k := Zpos (digits2_pos p)) in *.
  assert (0 < k)%Z by (unfold k; lia).
  destruct (Z.lt_trichotomy k d) as [Hlt | [Heq | Hgt]]; [ | exact Heq | ].
  - assert (2 ^ k <= 2 ^ (d - 1))%Z by (apply Z.pow_le_mono_r; lia). lia.
  - assert (d <= 0 \/ 0 < d)%Z as [Hd | Hd] by lia.
    + assert (2 ^ d <= 2 ^ 0)%Z by (apply Z.pow_le_mono_r; lia).
      simpl in *. lia.
    + assert (2 ^ d <= 2 ^ (k - 1))%Z by (apply Z.pow_le_mono_r; lia). lia.
Qed.

Lemma located_bounds x m e l :
  located x m e l -> IZR m * bpow e <= x < (IZR m + 1) * bpow e.
Proof.
  pose proof (bpow_gt_0 e).
  destruct l as [| []]; simpl; intros; nra.
Qed.

Lemma loc_of_shr_record_of_loc m l :
  loc_of_shr_record (shr_record_of_loc m l) = l.
Proof. destruct l as [| []]; reflexivity. Qed.

Lemma shr_m_shr_record_of_loc m l : shr_m (shr_record_of_loc m l) = m.
Proof. destruct l as [| []]; reflexivity. Qed.

Lemma shr_1_located x mrs e :
  (0 <= shr_m mrs)%Z ->
  located x (shr_m mrs) e (loc_of_shr_record mrs) ->
  located x (shr_m (shr_1 mrs)) (e + 1) (loc_of_shr_record (shr_1 mrs))
  /\ shr_m (shr_1 mrs) = (shr_m mrs / 2)%Z.
Proof.
  destruct mrs as [m r s]. cbn [shr_m]. intros Hm.
  pose proof (bpow_gt_0 e) as Hb.
  assert (forall p, IZR (Z.pos p~1) = 2 * IZR (Z.pos p) + 1) as HI
    by (intros; rewrite Pos2Z.inj_xI, plus_IZR, mult_IZR; reflexivity).
  assert (forall p, IZR (Z.pos p~0) = 2 * IZR (Z.pos p)) as HO
    by (intros; rewrite Pos2Z.inj_xO, mult_IZR; reflexivity).
  assert (forall p, (Z.pos p~1 / 2)%Z = Z.pos p) as DI
    by (intros; symmetry; apply Z.div_unique with 1%Z; lia).
  assert (forall p, (Z.pos p~0 / 2)%Z = Z.pos p) as DO
    by (intros; symmetry; apply Z.div_unique with 0%Z; lia).
  destruct m as [| [p | p |] | p]; [ | | | | lia ].
  - destruct r, s; cbn [shr_1 shr_m loc_of_shr_record located orb];
      rewrite bpow_succ; intros; (split; [ lra | reflexivity ]).
  - rewrite DI. destruct r, s; cbn [shr_1 shr_m loc_of_shr_record located orb];
      rewrite (HI p), bpow_succ; intros; (split; [ lra | reflexivity ]).
  - rewrite DO. destruct r, s; cbn [shr_1 shr_m loc_of_shr_record located orb];
      rewrite (HO p), bpow_succ; intros; (split; [ lra | reflexivity ]).
  - destruct r, s; cbn [shr_1 shr_m loc_of_shr_record located orb];
      rewrite bpow_succ; intros; (split; [ lra | reflexivity ]).
Qed.

Lemma iter_pos_shr_1 n : forall x mrs e,
  (0 <= shr_m mrs)%Z ->
  located x (shr_m mrs) e (loc_of_shr_record mrs) ->
  located x (shr_m (SpecFloat.iter_pos shr_1 n mrs)) (e + Zpos n)
            (loc_of_shr_record (SpecFloat.iter_pos shr_1 n mrs))
  /\ shr_m (SpecFloat.iter_pos shr_1 n mrs) = (shr_m mrs / 2 ^ Zpos n)%Z.
Proof.
  induction n as [n IH | n IH |]; intros x mrs e Hm Hl; simpl SpecFloat.iter_pos.
  - destruct (shr_1_located x mrs e Hm Hl) as [H1 E1].
    assert (0 <= shr_m (shr_1 mrs))%Z by (rewrite E1; apply Z.div_pos; lia).
    destruct (IH x _ _ H H1) as [H2 E2].
    assert (0 <= shr_m (SpecFloat.iter_pos shr_1 n (shr_1 mrs)))%Z
      by (rewrite E2; apply Z.div_pos; [lia | apply Z.pow_pos_nonneg; lia]).
    destruct (IH x _ _ H0 H2) as [H3 E3].
    split.
    + replace (e + Z.pos n~1)%Z with (e + 1 + Z.pos n + Z.pos n)%Z by lia. exact H3.
    + rewrite E3, E2, E1. rewrite !Z.div_div by (try apply Z.pow_pos_nonneg; lia).
      f_equal. rewrite (Pos2Z.inj_xI n).
      replace (2 * Z.pos n + 1)%Z with (1 + Z.pos n + Z.pos n)%Z by lia.
      rewrite !Z.pow_add_r by lia. simpl (2 ^ 1)%Z. ring.
  - destruct (IH x _ _ Hm Hl) as [H2 E2].
    assert (0 <= shr_m (SpecFloat.iter_pos shr_1 n mrs))%Z
      by (rewrite E2; apply Z.div_pos; [lia | apply Z.pow_pos_nonneg; lia]).
    destruct (IH x _ _ H H2) as [H3 E3].
    split.
    + replace (e + Z.pos n~0)%Z with (e + Z.pos n + Z.pos n)%Z by lia. exact H3.
    + rewrite E3, E2. rewrite !Z.div_div by (try apply Z.pow_pos_nonneg; lia).
      f_equal. rewrite (Pos2Z.inj_xO n).
      replace (2 * Z.pos n)%Z with (Z.pos n + Z.pos n)%Z by lia.
      rewrite !Z.pow_add_r by lia. ring.
  - apply shr_1_located; assumption.
Qed.

Lemma fexp_normal k : (-1074 <= k - 53)%Z -> fexp prec emax k = (k - 53)%Z.
Proof. unfold fexp, SpecFloat.emin, prec, emax. lia. Qed.

Lemma shr_fexp_normal x m e l :
  (0 < m)%Z -> located x m e l ->
  (53 <= Zdigits2 m)%Z -> (-1074 <= Zdigits2 m + e - 53)%Z ->
  exists mrs,
    shr_fexp prec emax m e l = (mrs, Zdigits2 m + e - 53)%Z /\
    located x (shr_m mrs) (Zdigits2 m + e - 53) (loc_of_shr_record mrs) /\
    (2 ^ 52 <= shr_m mrs < 2 ^ 53)%Z.
Proof.
  intros Hm Hl Hd He.
  destruct m as [| p | p]; try lia.
  cbn [Zdigits2] in *. pose proof (digits2_pos_bounds p) as Hp.
  set (d := Zpos (digits2_pos p)) in *.
  unfold shr_fexp. cbn [Zdigits2]. fold d.
  rewrite fexp_normal by lia.
  replace (d + e - 53 - e)%Z with (d - 53)%Z by lia.
  destruct (d - 53)%Z as [| n | n] eqn:Hn; try lia.
  - exists (shr_record_of_loc (Zpos p) l). cbn [shr].
    rewrite loc_of_shr_record_of_loc, shr_m_shr_record_of_loc.
    replace (d + e - 53)%Z with e by lia.
    repeat split; try assumption.
    + replace (2 ^ 52)%Z with (2 ^ (d - 1))%Z by (f_equal; lia). lia.
    + replace (2 ^ 53)%Z with (2 ^ d)%Z by (f_equal; lia). lia.
  - cbn [shr].
    destruct (iter_pos_shr_1 n x (shr_record_of_loc (Zpos p) l) e) as [H1 H2].
    + rewrite shr_m_shr_record_of_loc. lia.
    + rewrite loc_of_shr_record_of_loc, shr_m_shr_record_of_loc. exact Hl.
    + rewrite shr_m_shr_record_of_loc in H2.
      exists (SpecFloat.iter_pos shr_1 n (shr_record_of_loc (Zpos p) l)).
      replace (d + e - 53)%Z with (e + Zpos n)%Z by lia.
      repeat split; try assumption.
      * rewrite H2. apply Z.div_le_lower_bound; [apply Z.pow_pos_nonneg; lia|].
        rewrite <- Z.pow_add_r by lia.
        replace (Zpos n + 52)%Z with (d - 1)%Z by lia. lia.
      * rewrite H2. apply Z.div_lt_upper_bound; [apply Z.pow_pos_nonneg; lia|].
        rewrite <- Z.pow_add_r by lia.
        replace (Zpos n + 53)%Z with d by lia. lia.
Qed.

Lemma round_nearest_even_rounded x m E l :
  (2 ^ 52 <= m < 2 ^ 53)%Z -> located x m E l ->
  rounded x (round_nearest_even m l) E.
Proof.
  intros Hm Hl. pose proof (bpow_gt_0 E) as Hb.
  pose proof (located_bounds _ _ _ _ Hl) as Hx.
  assert (IZR (2 ^ 52) <= IZR m) as H1 by (apply IZR_le; lia).
  assert (IZR m + 1 <= IZR (2 ^ 53)) as H2
    by (rewrite <- plus_IZR; apply IZR_le; lia).
  assert (Hbin : IZR (2 ^ 52) * bpow E <= x < IZR (2 ^ 53) * bpow E) by nra.
  unfold rounded.
  destruct l as [| [| |]]; cbn [round_nearest_even located] in *.
  - repeat split; try lia; try nra; try (intros [H | H]; nra).
  - destruct (Z.even m) eqn:Hev.
    + repeat split; try lia; try nra. intros _. exact Hev.
    + rewrite plus_IZR. repeat split; try lia; try nra.
      intros _. replace (m + 1)%Z with (Z.succ m) by lia.
      rewrite Z.even_succ, <- Z.negb_even, Hev. reflexivity.
  - repeat split; try lia; try nra; try (intros [H | H]; nra).
  - rewrite plus_IZR. repeat split; try lia; try nra; try (intros [H | H]; nra).
Qed.

Lemma binary_round_aux_normal x mx ex lx :
  (0 < mx)%Z -> located x mx ex lx ->
  (53 <= Zdigits2 mx)%Z ->
  (-1074 <= Zdigits2 mx + ex - 53 <= 970)%Z ->
  exists M,
    rounded x M (Zdigits2 mx + ex - 53) /\
    binary_round_aux prec emax false mx ex lx
    = normal_float M (Zdigits2 mx + ex - 53).
Proof.
  intros Hm Hl Hd HE.
  destruct (shr_fexp_normal x mx ex lx Hm Hl Hd) as (mrs & E1 & L1 & B1); [lia|].
  set (E := (Zdigits2 mx + ex - 53)%Z) in *.
  pose proof (round_nearest_even_rounded x _ E _ B1 L1) as HR.
  set (M := round_nearest_even (shr_m mrs) (loc_of_shr_record mrs)) in *.
  exists M. split; [exact HR|].
  unfold binary_round_aux. rewrite E1. fold M.
  destruct HR as (HM & _).
  unfold normal_float.
  destruct (Z.eqb_spec M (2 ^ 53)) as [Heq | Hne].
  - rewrite Heq. unfold shr_fexp.
    replace (Zdigits2 (2 ^ 53)) with 54%Z by reflexivity.
    rewrite fexp_normal by lia.
    replace (54 + E - 53 - E)%Z with 1%Z by lia.
    cbn [shr shr_record_of_loc SpecFloat.iter_pos].
    replace (shr_m (Pos.iter shr_1 (shr_record_of_loc (2 ^ 53) loc_Exact) 1))
      with (Zpos (Z.to_pos (2 ^ 52))) by reflexivity.
    replace (E + 1 <=? emax - prec)%Z with true; [reflexivity|].
    symmetry. apply Z.leb_le. unfold emax, prec. lia.
  - assert (Zdigits2 M = 53%Z) as HdM.
    { destruct M as [| p | p]; try lia. cbn [Zdigits2].
      apply digits2_pos_unique. simpl (53 - 1)%Z. lia. }
    unfold shr_fexp. rewrite HdM, fexp_normal by lia.
    replace (53 + E - 53 - E)%Z with 0%Z by lia.
    cbn [shr shr_record_of_loc shr_m].
    destruct M as [| p | p]; try lia.
    rewrite Pos2Z.id.
    replace (E <=? emax - prec)%Z with true; [reflexivity|].
    symmetry. apply Z.leb_le. unfold emax, prec. lia.
Qed.

Lemma IZR_pow2_52 : IZR (2 ^ 52) = 4503599627370496.
Proof. reflexivity. Qed.

Lemma IZR_pow2_53 : IZR (2 ^ 53) = 9007199254740992.
Proof. reflexivity. Qed.

Lemma normal_float_val M E :
  (2 ^ 52 <= M <= 2 ^ 53)%Z -> SF2R (normal_float M E) = IZR M * bpow E.
Proof.
  intros HM. unfold normal_float.
  destruct (Z.eqb_spec M (2 ^ 53)) as [-> | Hne]; cbn [SF2R cond_Zopp].
  - rewrite Z2Pos.id by reflexivity. rewrite bpow_succ, IZR_pow2_52, IZR_pow2_53. lra.
  - rewrite Z2Pos.id by lia. reflexivity.
Qed.

Lemma rounded_pos x M E : rounded x M E -> 0 < x.
Proof.
  intros (_ & [H _] & _). pose proof (bpow_gt_0 E). rewrite IZR_pow2_52 in H. nra.
Qed.

Lemma rounded_mono x x' M E M' E' :
  x <= x' -> rounded x M E -> rounded x' M' E' ->
  IZR M * bpow E <= IZR M' * bpow E'.
Proof.
  intros Hx (HM & [B1 B2] & [N1 N2] & T) (HM' & [B1' B2'] & [N1' N2'] & T').
  pose proof (bpow_gt_0 E) as Hb. pose proof (bpow_gt_0 E') as Hb'.
  rewrite IZR_pow2_52, IZR_pow2_53 in *.
  assert (4503599627370496 <= IZR M <= 9007199254740992) as RM
    by (rewrite <- IZR_pow2_52, <- IZR_pow2_53; split; apply IZR_le; lia).
  assert (4503599627370496 <= IZR M' <= 9007199254740992) as RM'
    by (rewrite <- IZR_pow2_52, <- IZR_pow2_53; split; apply IZR_le; lia).
  destruct (Z.lt_trichotomy E E') as [Hlt | [Heq | Hgt]].
  - pose proof (bpow_lt _ _ Hlt). nra.
  - subst E'. destruct (Z_le_gt_dec M M') as [Hle | Hgt].
    + apply IZR_le in Hle. nra.
    + assert (IZR M' + 1 <= IZR M) as H1
        by (rewrite <- plus_IZR; apply IZR_le; lia).
      assert (IZR M' * bpow E + bpow E <= IZR M * bpow E) as H2 by nra.
      assert (x = (IZR M - / 2) * bpow E) as Hxe by lra.
      assert (x' = (IZR M' + / 2) * bpow E) as Hxe' by lra.
      assert (IZR M = IZR M' + 1) as H3 by nra.
      rewrite <- plus_IZR in H3. apply eq_IZR in H3.
      specialize (T (or_introl Hxe)). specialize (T' (or_intror Hxe')).
      subst M. replace (M' + 1)%Z with (Z.succ M') in T by lia.
      rewrite Z.even_succ, <- Z.negb_even, T' in T. discriminate.
  - pose proof (bpow_lt _ _ Hgt). nra.
Qed.

Lemma rounds_to_mono x x' elo ehi elo' ehi' f f' :
  x <= x' -> rounds_to x elo ehi f -> rounds_to x' elo' ehi' f' ->
  SF2R f <= SF2R f'.
Proof.
  intros Hx (M & E & HR & _ & ->) (M' & E' & HR' & _ & ->).
  rewrite !normal_float_val by (first [apply HR | apply HR']).
  eapply rounded_mono; eassumption.
Qed.

Lemma rounds_to_normal x elo ehi f :
  rounds_to x elo ehi f -> normal elo ehi f /\ 0 < SF2R f /\ 0 < x.
Proof.
  intros (M & E & HR & HE & ->). split; [|split].
  - destruct HR as (HM & _). unfold normal_float.
    destruct (Z.eqb_spec M (2 ^ 53)) as [-> | Hne].
    + exists (Z.to_pos (2 ^ 52)), (E + 1)%Z. repeat split; try lia.
    + exists (Z.to_pos M), E. repeat split; try lia.
      apply digits2_pos_unique. rewrite Z2Pos.id by lia. simpl (53 - 1)%Z. lia.
  - rewrite normal_float_val by apply HR. destruct HR as (HM & _).
    pose proof (bpow_gt_0 E).
    assert (IZR (2 ^ 52) <= IZR M) by (apply IZR_le; lia).
    rewrite IZR_pow2_52 in *. nra.
  - eapply rounded_pos; eassumption.
Qed.

Lemma normal_mantissa m : Zpos (digits2_pos m) = 53%Z ->
  (2 ^ 52 <= Zpos m < 2 ^ 53)%Z.
Proof. intros H. pose proof (digits2_pos_bounds m) as Hb. rewrite H in Hb. exact Hb. Qed.

Lemma normal_val elo ehi f : normal elo ehi f -> 0 < SF2R f.
Proof.
  intros (m & e & -> & Hd & _). cbn [SF2R cond_Zopp].
  pose proof (bpow_gt_0 e). assert (0 < IZR (Zpos m)) by (apply IZR_lt; lia). nra.
Qed.

Lemma SFmul_normal a b ea1 ea2 eb1 eb2 :
  normal ea1 ea2 a -> normal eb1 eb2 b ->
  (-1074 <= ea1 + eb1 + 52)%Z -> (ea2 + eb2 + 53 <= 970)%Z ->
  rounds_to (SF2R a * SF2R b) (ea1 + eb1 + 52) (ea2 + eb2 + 54)
            (SFmul prec emax a b).
Proof.
  intros (ma & ea & -> & Hda & Hea) (mb & eb & -> & Hdb & Heb) Hlo Hhi.
  pose proof (normal_mantissa _ Hda) as Ha.
  pose proof (normal_mantissa _ Hdb) as Hb.
  cbn [SFmul xorb SF2R cond_Zopp].
  pose proof (digits2_pos_bounds (ma * mb)) as Hd.
  set (d := Zpos (digits2_pos (ma * mb))) in *.
  rewrite Pos2Z.inj_mul in Hd.
  assert (2 ^ 104 <= Zpos ma * Zpos mb < 2 ^ 106)%Z as Hp.
  { change (2 ^ 104)%Z with (2 ^ 52 * 2 ^ 52)%Z.
    change (2 ^ 106)%Z with (2 ^ 53 * 2 ^ 53)%Z. nia. }
  assert (105 <= d <= 106)%Z as Hd'.
  { split.
    - assert (104 < d)%Z; [|lia].
      apply (Z.pow_lt_mono_r_iff 2); [lia | unfold d; lia | lia].
    - assert (d - 1 < 106)%Z; [|lia].
      apply (Z.pow_lt_mono_r_iff 2); [lia | lia | lia]. }
  destruct (binary_round_aux_normal
              (IZR (Zpos ma) * bpow ea * (IZR (Zpos mb) * bpow eb))
              (Zpos (ma * mb)) (ea + eb) loc_Exact) as (M & HR & HE).
  - lia.
  - cbn [located]. rewrite Pos2Z.inj_mul, mult_IZR, bpow_plus. ring.
  - cbn [Zdigits2]. fold d. lia.
  - cbn [Zdigits2]. fold d. lia.
  - cbn [Zdigits2] in *. fold d in HR, HE.
    exists M, (d + (ea + eb) - 53)%Z. split; [exact HR|]. split; [lia|exact HE].
Qed.

Lemma new_location_located q r m2 (x b : R) :
  (0 < m2)%Z -> (0 <= r < m2)%Z -> 0 < b ->
  x * IZR m2 = (IZR m2 * IZR q + IZR r) * b ->
  forall e, b = bpow e -> located x q e (new_location m2 r).
Proof.
  intros Hm Hr Hb Hx e ->.
  assert (0 < IZR m2) as HM by (apply IZR_lt; lia).
  set (rho := IZR r / IZR m2).
  assert (rho * IZR m2 = IZR r) as Hrho by (unfold rho; field; lra).
  assert (x = (IZR q + rho) * bpow e) as ->.
  { apply (Rmult_eq_reg_r (IZR m2)); [|lra]. rewrite Hx. nra. }
  clear Hx.
  assert (0 <= IZR r) as Hr0 by (apply IZR_le; lia).
  assert (IZR r < IZR m2) as Hr1 by (apply IZR_lt; lia).
  assert (0 <= rho < 1) as Hrho1 by (split; nra).
  unfold new_location, new_location_even, new_location_odd.
  assert (r = 0%Z -> rho = 0) as Hz by (intros ->; nra).
  assert (r <> 0%Z -> 0 < rho) as Hnz.
  { intros Hne. assert (0 < IZR r) by (apply IZR_lt; lia). nra. }
  assert ((2 * r < m2)%Z -> rho < /2) as Hlt.
  { intros H. apply IZR_lt in H. rewrite mult_IZR in H. nra. }
  assert ((2 * r > m2)%Z -> /2 < rho) as Hgt.
  { intros H. apply Z.gt_lt, IZR_lt in H. rewrite mult_IZR in H. nra. }
  assert ((2 * r = m2)%Z -> rho = /2) as Heq.
  { intros H. apply (f_equal IZR) in H. rewrite mult_IZR in H. nra. }
  destruct (Z.even m2) eqn:Hev.
  - destruct (Z.eqb_spec r 0) as [H0 | H0].
    + cbn [located]. rewrite (Hz H0). ring.
    + specialize (Hnz H0).
      destruct (Z.compare_spec (2 * r) m2) as [H | H | H]; cbn [located].
      * rewrite (Heq H). ring.
      * specialize (Hlt H). nra.
      * specialize (Hgt ltac:(lia)). nra.
  - destruct (Z.eqb_spec r 0) as [H0 | H0].
    + cbn [located]. rewrite (Hz H0). ring.
    + specialize (Hnz H0).
      assert (2 * r <> m2)%Z as Hodd.
      { intros H. rewrite <- H, Z.even_mul in Hev. discriminate. }
      destruct (Z.compare_spec (2 * r + 1) m2) as [H | H | H]; cbn [located].
      * specialize (Hlt ltac:(lia)). nra.
      * specialize (Hlt ltac:(lia)). nra.
      * specialize (Hgt ltac:(lia)). nra.
Qed.

Lemma SFdiv_normal a b ea1 ea2 eb1 eb2 :
  normal ea1 ea2 a -> normal eb1 eb2 b ->
  (-1074 <= ea1 - eb2 - 53)%Z -> (ea2 - eb1 - 52 <= 970)%Z ->
  rounds_to (SF2R a / SF2R b) (ea1 - eb2 - 53) (ea2 - eb1 - 51)
            (SFdiv prec emax a b).
Proof.
  intros (ma & ea & -> & Hda & Hea) (mb & eb & -> & Hdb & Heb) Hlo Hhi.
  pose proof (normal_mantissa _ Hda) as Ha.
  pose proof (normal_mantissa _ Hdb) as Hb.
  cbn [SFdiv xorb SF2R cond_Zopp].
  unfold SFdiv_core_binary. cbn [Zdigits2]. rewrite Hda, Hdb.
  rewrite fexp_normal by lia.
  change IntDef.Z.min with Z.min.
  replace (Z.min (53 + ea - (53 + eb) - 53) (ea - eb))%Z with (ea - eb - 53)%Z by lia.
  replace (ea - eb - (ea - eb - 53))%Z with 53%Z by lia.
  cbv iota beta.
  change IntDef.Z.shiftl with Z.shiftl. rewrite Z.shiftl_mul_pow2 by lia.
  change IntDef.Z.div_eucl with Z.div_eucl.
  pose proof (Z_div_mod (Zpos ma * 2 ^ 53) (Zpos mb) ltac:(lia)) as Hdiv.
  destruct (Z.div_eucl (Zpos ma * 2 ^ 53) (Zpos mb)) as [q r].
  destruct Hdiv as [Hqr Hr].
  assert (2 ^ 52 <= q < 2 ^ 54)%Z as Hq.
  { change (2 ^ 54)%Z with (2 * 2 ^ 53)%Z in *.
    change (2 ^ 53)%Z with (2 * 2 ^ 52)%Z in *. nia. }
  assert (0 < q)%Z as Hq0 by lia.
  assert (53 <= Zdigits2 q <= 54)%Z as Hdq.
  { destruct q as [| p | p]; try lia. cbn [Zdigits2].
    pose proof (digits2_pos_bounds p) as Hp.
    set (d := Zpos (digits2_pos p)) in *. split.
    - assert (52 < d)%Z; [|lia].
      apply (Z.pow_lt_mono_r_iff 2); [lia | unfold d; lia | lia].
    - assert (d - 1 < 54)%Z; [|lia].
      apply (Z.pow_lt_mono_r_iff 2); [lia | lia | lia]. }
  set (x := IZR (Zpos ma) * bpow ea / (IZR (Zpos mb) * bpow eb)).
  destruct (binary_round_aux_normal x q (ea - eb - 53)
              (new_location (Zpos mb) r)) as (M & HR & HE).
  - exact Hq0.
  - apply new_location_located with (b := bpow (ea - eb - 53)); try lia.
    + apply bpow_gt_0.
    + apply (f_equal IZR) in Hqr. rewrite plus_IZR, !mult_IZR, IZR_pow2_53 in Hqr.
      rewrite <- Hqr. unfold x.
      replace (ea - eb - 53)%Z with (ea + (- eb) + (- (53)))%Z by lia.
      rewrite !bpow_plus, !bpow_opp.
      rewrite (bpow_IZR 53) by lia. rewrite IZR_pow2_53.
      pose proof (bpow_gt_0 eb). assert (0 < IZR (Zpos mb)) by (apply IZR_lt; lia).
      field. lra.
    + reflexivity.
  - lia.
  - lia.
  - exists M, (Zdigits2 q + (ea - eb - 53) - 53)%Z.
    split; [exact HR|]. split; [lia|exact HE].
Qed.

Lemma pos_iter_xO m d : Zpos (Pos.iter xO m d) = (Zpos m * 2 ^ Zpos d)%Z.
Proof.
  apply (Pos.iter_ind _ xO m (fun p a => Zpos a = (Zpos m * 2 ^ Zpos p)%Z)).
  - rewrite Pos2Z.inj_xO. change (2 ^ 1)%Z with 2%Z. ring.
  - intros p a' IH. rewrite Pos2Z.inj_xO, IH, Pos2Z.inj_succ, Z.pow_succ_r by lia.
    ring.
Qed.

Lemma shl_align_le m e e' :
  (e' <= e)%Z ->
  Zpos (fst (shl_align m e e')) = (Zpos m * 2 ^ (e - e'))%Z /\
  snd (shl_align m e e') = e'.
Proof.
  intros He. unfold shl_align.
  destruct (e' - e)%Z as [| d | d] eqn:Hd; try lia; cbn [fst snd].
  - replace (e - e')%Z with 0%Z by lia. split; [ring | lia].
  - change (@PosDef.Pos.iter) with (@Pos.iter). rewrite pos_iter_xO.
    replace (e - e')%Z with (Zpos d) by lia. split; reflexivity.
Qed.

Lemma binary_round_normal p e :
  (-1074 <= Zpos (digits2_pos p) + e - 53 <= 970)%Z ->
  exists M,
    rounded (IZR (Zpos p) * bpow e) M (Zpos (digits2_pos p) + e - 53) /\
    binary_round prec emax false p e
    = normal_float M (Zpos (digits2_pos p) + e - 53).
Proof.
  intros HE. pose proof (digits2_pos_bounds p) as Hp.
  set (d := Zpos (digits2_pos p)) in *.
  assert (0 < d)%Z as Hd0 by (unfold d; lia).
  unfold binary_round. rewrite fexp_normal by (fold d; lia). fold d.
  destruct (Z_le_gt_dec (d + e - 53) e) as [Hle | Hgt].
  - destruct (shl_align_le p e (d + e - 53) Hle) as [Hm He'].
    destruct (shl_align p e (d + e - 53)) as [mz ez]. cbn [fst snd] in Hm, He'.
    subst ez. replace (e - (d + e - 53))%Z with (53 - d)%Z in Hm by lia.
    assert (2 ^ 52 <= Zpos mz < 2 ^ 53)%Z as Hmz.
    { rewrite Hm. split.
      - replace 52%Z with ((d - 1) + (53 - d))%Z by lia.
        rewrite Z.pow_add_r by lia.
        apply Z.mul_le_mono_nonneg_r; [apply Z.pow_nonneg|]; lia.
      - replace 53%Z with (d + (53 - d))%Z at 2 by lia.
        rewrite Z.pow_add_r by lia.
        apply Z.mul_lt_mono_pos_r; [apply Z.pow_pos_nonneg|]; lia. }
    assert (Zdigits2 (Zpos mz) = 53%Z) as Hdz
      by (cbn [Zdigits2]; apply digits2_pos_unique; simpl (53 - 1)%Z; lia).
    destruct (binary_round_aux_normal (IZR (Zpos p) * bpow e) (Zpos mz)
                (d + e - 53) loc_Exact) as (M & HR & HEq).
    + lia.
    + cbn [located]. rewrite Hm, mult_IZR, <- (bpow_IZR (53 - d)) by lia.
      rewrite Rmult_assoc, <- bpow_plus. do 2 f_equal. lia.
    + lia.
    + lia.
    + rewrite Hdz in HR, HEq.
      replace (53 + (d + e - 53) - 53)%Z with (d + e - 53)%Z in HR, HEq by lia.
      exists M. split; assumption.
  - unfold shl_align.
    destruct (d + e - 53 - e)%Z as [| k | k] eqn:Hk; try lia.
    destruct (binary_round_aux_normal (IZR (Zpos p) * bpow e) (Zpos p)
                e loc_Exact) as (M & HR & HEq).
    + lia.
    + reflexivity.
    + cbn [Zdigits2]. fold d. lia.
    + cbn [Zdigits2]. fold d. lia.
    + cbn [Zdigits2] in HR, HEq. fold d in HR, HEq.
      exists M. split; assumption.
Qed.

Lemma SFsub_normal a b ea1 ea2 eb1 eb2 :
  normal ea1 ea2 a -> normal eb1 eb2 b ->
  (-1074 <= Z.min ea1 eb1 - 52)%Z -> (ea2 <= 970)%Z ->
  SF2R b <= SF2R a ->
  (SF2R a = SF2R b /\ SFsub prec emax a b = S754_zero false) \/
  rounds_to (SF2R a - SF2R b) (Z.min ea1 eb1 - 52) (ea2 + 1)
            (SFsub prec emax a b).
Proof.
  intros (ma & ea & -> & Hda & Hea) (mb & eb & -> & Hdb & Heb) Hlo Hhi Hle.
  pose proof (normal_mantissa _ Hda) as Ha.
  pose proof (normal_mantissa _ Hdb) as Hb.
  cbn [SFsub SF2R cond_Zopp] in *.
  change IntDef.Z.min with Z.min. change IntDef.Z.sub with Z.sub.
  set (ez := Z.min ea eb).
  destruct (shl_align_le ma ea ez ltac:(lia)) as [HA _].
  destruct (shl_align_le mb eb ez ltac:(lia)) as [HB _].
  rewrite HA, HB.
  set (A := (Zpos ma * 2 ^ (ea - ez))%Z). set (B := (Zpos mb * 2 ^ (eb - ez))%Z).
  assert (forall m e, (ez <= e)%Z ->
            IZR (m * 2 ^ (e - ez)) * bpow ez = IZR m * bpow e) as Hval.
  { intros m e He. rewrite mult_IZR, <- (bpow_IZR (e - ez)) by lia.
    rewrite Rmult_assoc, <- bpow_plus. do 2 f_equal. lia. }
  pose proof (Hval (Zpos ma) ea ltac:(lia)) as VA. fold A in VA.
  pose proof (Hval (Zpos mb) eb ltac:(lia)) as VB. fold B in VB.
  pose proof (bpow_gt_0 ez) as Hbz.
  assert (B <= A)%Z as HBA.
  { apply le_IZR. rewrite <- VA, <- VB in Hle. nra. }
  assert (A < 2 ^ (53 + (ea - ez)))%Z as HAub.
  { unfold A. rewrite Z.pow_add_r by lia.
    apply Z.mul_lt_mono_pos_r; [apply Z.pow_pos_nonneg|]; lia. }
  assert (0 < B)%Z as HB0.
  { unfold B. apply Z.mul_pos_pos; [|apply Z.pow_pos_nonneg]; lia. }
  destruct (A - B)%Z as [| p | p] eqn:Hp; try lia.
  - left. split; [|reflexivity].
    rewrite <- VA, <- VB. replace A with B by lia. reflexivity.
  - right. cbn [binary_normalize].
    pose proof (digits2_pos_bounds p) as Hdp.
    set (d := Zpos (digits2_pos p)) in *.
    assert (1 <= d <= 53 + (ea - ez))%Z as Hd.
    { split; [unfold d; lia|].
      assert (d - 1 < 53 + (ea - ez))%Z; [|lia].
      apply (Z.pow_lt_mono_r_iff 2); lia. }
    destruct (binary_round_normal p ez) as (M & HR & HEq); [fold d; lia|].
    fold d in HR, HEq.
    exists M, (d + ez - 53)%Z. split; [|split; [lia|exact HEq]].
    replace (IZR (Zpos ma) * bpow ea - IZR (Zpos mb) * bpow eb)
      with (IZR (Zpos p) * bpow ez); [exact HR|].
    rewrite <- VA, <- VB, <- Hp, minus_IZR. ring.
Qed.

Lemma SFcompare_key a b :
  non_nan a = true -> non_nan b = true ->
  (SFcompare a b = Some Lt /\ lex_lt (key a) (key b)) \/
  (SFcompare a b = Some Eq /\ key a = key b) \/
  (SFcompare a b = Some Gt /\ lex_lt (key b) (key a)).
Proof.
  intros Ha Hb.
  destruct a as [sa | sa | | sa ma ea]; try discriminate;
  destruct b as [sb | sb | | sb mb eb]; try discriminate;
  try destruct sa; try destruct sb; cbn [SFcompare key lex_lt];
  try (left; split; [reflexivity | lia]);
  try (right; left; split; reflexivity);
  try (right; right; split; [reflexivity | lia]).
  - change (Pos.compare_cont Eq ma mb) with (Pos.compare ma mb).
    destruct (Z.compare_spec ea eb) as [He | He | He];
      [destruct (Pos.compare_spec ma mb) as [Hm | Hm | Hm] | | ]; cbn [CompOpp].
    + right; left. subst. split; reflexivity.
    + right; right. split; [reflexivity | lia].
    + left. split; [reflexivity | lia].
    + right; right. split; [reflexivity | lia].
    + left. split; [reflexivity | lia].
  - change (Pos.compare_cont Eq ma mb) with (Pos.compare ma mb).
    destruct (Z.compare_spec ea eb) as [He | He | He];
      [destruct (Pos.compare_spec ma mb) as [Hm | Hm | Hm] | | ].
    + right; left. subst. split; reflexivity.
    + left. split; [reflexivity | lia].
    + right; right. split; [reflexivity | lia].
    + left. split; [reflexivity | lia].
    + right; right. split; [reflexivity | lia].
Qed.

Lemma lex_lt_irrefl p : ~ lex_lt p p.
Proof. destruct p as [[a b] c]. cbn. lia. Qed.

Lemma lex_lt_asym p q : lex_lt p q -> ~ lex_lt q p.
Proof. destruct p as [[a b] c], q as [[a' b'] c']. cbn. lia. Qed.

Lemma SFltb_true a b :
  SFltb a b = true -> non_nan a = true /\ non_nan b = true /\ lex_lt (key a) (key b).
Proof.
  unfold SFltb. intros H.
  assert (non_nan a = true /\ non_nan b = true) as [Ha Hb].
  { destruct a, b; try discriminate; split; reflexivity. }
  repeat split; try assumption.
  destruct (SFcompare_key a b Ha Hb) as [[E K] | [[E K] | [E K]]];
    rewrite E in H; try discriminate. exact K.
Qed.

Lemma SFltb_false a b :
  SFltb a b = false -> non_nan a = true -> non_nan b = true ->
  ~ lex_lt (key a) (key b).
Proof.
  unfold SFltb. intros H Ha Hb.
  destruct (SFcompare_key a b Ha Hb) as [[E K] | [[E K] | [E K]]];
    rewrite E in H; try discriminate.
  - rewrite K. apply lex_lt_irrefl.
  - apply lex_lt_asym. exact K.
Qed.

Lemma SFltb_intro a b :
  non_nan a = true -> non_nan b = true -> lex_lt (key a) (key b) ->
  SFltb a b = true.
Proof.
  intros Ha Hb K. unfold SFltb.
  destruct (SFcompare_key a b Ha Hb) as [[E K'] | [[E K'] | [E K']]]; rewrite E.
  - reflexivity.
  - rewrite K' in K. destruct (lex_lt_irrefl _ K).
  - destruct (lex_lt_asym _ _ K K').
Qed.

Lemma SFleb_true a b :
  SFleb a b = true ->
  non_nan a = true /\ non_nan b = true /\ ~ lex_lt (key b) (key a).
Proof.
  unfold SFleb. intros H.
  assert (non_nan a = true /\ non_nan b = true) as [Ha Hb].
  { destruct a, b; try discriminate; split; reflexivity. }
  repeat split; try assumption.
  destruct (SFcompare_key a b Ha Hb) as [[E K] | [[E K] | [E K]]];
    rewrite E in H; try discriminate.
  - apply lex_lt_asym. exact K.
  - rewrite K. apply lex_lt_irrefl.
Qed.

(** On normal floats the key order is the order of the values *)

Lemma normal_key_le elo ehi elo' ehi' a b :
  normal elo ehi a -> normal elo' ehi' b ->
  ~ lex_lt (key b) (key a) -> SF2R a <= SF2R b.
Proof.
  intros (ma & ea & -> & Hda & _) (mb & eb & -> & Hdb & _) K.
  pose proof (normal_mantissa _ Hda) as Ha.
  pose proof (normal_mantissa _ Hdb) as Hb.
  cbn [key lex_lt SF2R cond_Zopp] in *.
  pose proof (bpow_gt_0 ea). pose proof (bpow_gt_0 eb).
  assert (IZR (2 ^ 52) <= IZR (Zpos ma) <= IZR (2 ^ 53)) as RA
    by (split; apply IZR_le; lia).
  assert (IZR (2 ^ 52) <= IZR (Zpos mb) <= IZR (2 ^ 53)) as RB
    by (split; apply IZR_le; lia).
  rewrite IZR_pow2_52, IZR_pow2_53 in *.
  destruct (Z.lt_trichotomy ea eb) as [Hlt | [Heq | Hgt]].
  - pose proof (bpow_lt _ _ Hlt). nra.
  - subst eb. assert (Zpos ma <= Zpos mb)%Z as Hm by lia.
    apply IZR_le in Hm. nra.
  - lia.
Qed.

End Binary64Facts.

(** * The transition ramp in binary64 *)

Section TransitionFacts.
Local Open Scope R_scope.

Lemma Prim2SF_THRESHOLD_LOW :
  Prim2SF THRESHOLD_LOW = S754_finite false 8106479329266893 (-54).
Proof. reflexivity. Qed.

Lemma Prim2SF_THRESHOLD_HIGH :
  Prim2SF THRESHOLD_HIGH = S754_finite false 4953959590107546 (-53).
Proof. reflexivity. Qed.

Lemma Prim2SF_THRESHOLD :
  Prim2SF THRESHOLD = S754_finite false 4503599627370496 (-53).
Proof. reflexivity. Qed.

Lemma Prim2SF_THRESHOLD_RANGE :
  Prim2SF THRESHOLD_RANGE = S754_finite false 7205759403792794 (-56).
Proof. reflexivity. Qed.

Lemma Prim2SF_255 :
  Prim2SF 255 = S754_finite false 8972014882652160 (-45).
Proof. reflexivity. Qed.

Lemma is_nan_non_nan m : is_nan m = false -> non_nan (Prim2SF m) = true.
Proof.
  unfold is_nan. rewrite FloatAxioms.eqb_spec. destruct (Prim2SF m); try reflexivity.
  cbn. discriminate.
Qed.

Lemma valid_normal s m e :
  valid_binary (S754_finite s m e) = true -> (-1074 < e)%Z ->
  Zpos (digits2_pos m) = 53%Z.
Proof.
  cbn [SpecFloat.valid_binary]. unfold bounded, canonical_mantissa, fexp, SpecFloat.emin.
  intros H He. apply andb_true_iff in H as [H _]. apply Z.eqb_eq in H.
  unfold fexp, SpecFloat.emin, prec, emax in H. lia.
Qed.

(** A mask value of the transition band is a normal number between the
    two thresholds. *)
Lemma in_band_normal m :
  (THRESHOLD_HIGH <? m)%float = false -> (m <? THRESHOLD_LOW)%float = false ->
  non_nan (Prim2SF m) = true ->
  normal (-54) (-53) (Prim2SF m) /\
  ~ lex_lt (key (Prim2SF m)) (key (Prim2SF THRESHOLD_LOW)) /\
  ~ lex_lt (key (Prim2SF THRESHOLD_HIGH)) (key (Prim2SF m)).
Proof.
  rewrite !FloatAxioms.ltb_spec. intros Hhi Hlo Hn.
  apply SFltb_false in Hhi; [|reflexivity|exact Hn].
  apply SFltb_false in Hlo; [|exact Hn|reflexivity].
  split; [|split; assumption].
  pose proof (Prim2SF_valid m) as Hv.
  rewrite Prim2SF_THRESHOLD_LOW in Hlo. rewrite Prim2SF_THRESHOLD_HIGH in Hhi.
  destruct (Prim2SF m) as [s | s | | s mm e]; try discriminate;
    try destruct s; cbn [key lex_lt] in Hhi, Hlo; try lia.
  assert (e = -54 \/ e = -53)%Z as He by lia.
  exists mm, e. split; [reflexivity|]. split; [|lia].
  apply (valid_normal false mm e Hv). lia.
Qed.

Lemma rounds_nonneg_cases x elo ehi f :
  rounds_nonneg x elo ehi f ->
  (x = 0 /\ f = S754_zero false /\ SF2R f = 0) \/
  (0 < x /\ normal elo ehi f /\ 0 < SF2R f).
Proof.
  intros [[Hx ->] | H].
  - left. repeat split; assumption.
  - right. destruct (rounds_to_normal _ _ _ _ H) as (Hn & Hf & Hx).
    repeat split; assumption.
Qed.

Lemma rounds_nonneg_mono x x' elo ehi elo' ehi' f f' :
  x <= x' -> rounds_nonneg x elo ehi f -> rounds_nonneg x' elo' ehi' f' ->
  SF2R f <= SF2R f'.
Proof.
  intros Hx H H'.
  destruct H as [[Hz ->] | H]; destruct H' as [[Hz' ->] | H']; cbn [SF2R].
  - lra.
  - apply rounds_to_normal in H'. lra.
  - apply rounds_to_normal in H. lra.
  - eapply rounds_to_mono; eassumption.
Qed.

Lemma sub_stage m :
  normal (-54) (-53) (Prim2SF m) ->
  SF2R (Prim2SF THRESHOLD_LOW) <= SF2R (Prim2SF m) ->
  rounds_nonneg (SF2R (Prim2SF m) - SF2R (Prim2SF THRESHOLD_LOW)) (-106) (-52)
                (Prim2SF (m - THRESHOLD_LOW)).
Proof.
  intros Hm Hle. rewrite FloatAxioms.sub_spec.
  assert (normal (-54) (-54) (Prim2SF THRESHOLD_LOW)) as Hlo.
  { rewrite Prim2SF_THRESHOLD_LOW. eexists _, _. repeat split; try reflexivity; lia. }
  destruct (SFsub_normal _ _ _ _ _ _ Hm Hlo ltac:(lia) ltac:(lia) Hle) as [[E Z] | H].
  - left. split; [lra | exact Z].
  - right. exact H.
Qed.

Lemma div_stage x d :
  rounds_nonneg x (-106) (-52) d ->
  rounds_nonneg (SF2R d / SF2R (Prim2SF THRESHOLD_RANGE)) (-103) (-47)
                (SF64div d (Prim2SF THRESHOLD_RANGE)).
Proof.
  intros H.
  assert (normal (-56) (-56) (Prim2SF THRESHOLD_RANGE)) as Hc.
  { rewrite Prim2SF_THRESHOLD_RANGE. eexists _, _. repeat split; try reflexivity; lia. }
  destruct (rounds_nonneg_cases _ _ _ _ H) as [(_ & -> & _) | (_ & Hn & _)].
  - left. split; [|reflexivity]. cbn [SF2R]. unfold Rdiv. ring.
  - right. exact (SFdiv_normal _ _ _ _ _ _ Hn Hc ltac:(lia) ltac:(lia)).
Qed.

Lemma mul_stage x q :
  rounds_nonneg x (-103) (-47) q ->
  rounds_nonneg (SF2R q * SF2R (Prim2SF 255)) (-96) (-38)
                (SF64mul q (Prim2SF 255)).
Proof.
  intros H.
  assert (normal (-45) (-45) (Prim2SF 255)) as Hc.
  { rewrite Prim2SF_255. eexists _, _. repeat split; try reflexivity; lia. }
  destruct (rounds_nonneg_cases _ _ _ _ H) as [(_ & -> & _) | (_ & Hn & _)].
  - left. split; [|reflexivity]. cbn [SF2R]. ring.
  - right. exact (SFmul_normal _ _ _ _ _ _ Hn Hc ltac:(lia) ltac:(lia)).
Qed.


Lemma round_magnitude_spec m e :
  (0 < m)%Z ->
  IZR (round_magnitude m e) - /2 <= IZR m * bpow e
  < IZR (round_magnitude m e) + /2.
Proof.
  intros Hm. unfold round_magnitude. destruct (Z.leb_spec 0 e) as [He | He].
  - rewrite mult_IZR, <- bpow_IZR by lia. lra.
  - set (P := (2 ^ (- e - 1))%Z).
    assert (0 < P)%Z as HP by (apply Z.pow_pos_nonneg; lia).
    assert (2 ^ (- e) = 2 * P)%Z as H2P.
    { unfold P. rewrite <- Z.pow_succ_r by lia. f_equal. lia. }
    rewrite H2P.
    pose proof (Z.div_mod (m + P) (2 * P) ltac:(lia)) as Hdm.
    pose proof (Z.mod_pos_bound (m + P) (2 * P) ltac:(lia)) as Hr.
    set (z := ((m + P) / (2 * P))%Z) in *. set (r := ((m + P) mod (2 * P))%Z) in *.
    assert (bpow e * (2 * IZR P) = 1) as Hb.
    { rewrite <- mult_IZR, <- H2P, <- bpow_IZR, <- bpow_plus by lia.
      replace (e + - e)%Z with 0%Z by lia. reflexivity. }
    assert (IZR m = 2 * IZR P * IZR z + IZR r - IZR P) as HmR.
    { rewrite <- !mult_IZR, <- plus_IZR, <- minus_IZR. f_equal. lia. }
    assert (0 <= IZR r < 2 * IZR P) as HrR.
    { rewrite <- mult_IZR. split; [apply IZR_le | apply IZR_lt]; lia. }
    assert (0 < IZR P) as HPR by (apply IZR_lt; lia).
    set (t := IZR m * bpow e).
    assert (t * (2 * IZR P) = 2 * IZR P * IZR z + IZR r - IZR P) as Ht.
    { unfold t. rewrite Rmult_assoc, Hb, <- HmR. ring. }
    split.
    + apply (Rmult_le_reg_r (2 * IZR P)); [lra|]. rewrite Ht. nra.
    + apply (Rmult_lt_reg_r (2 * IZR P)); [lra|]. rewrite Ht. nra.
Qed.

Lemma round_spec x elo ehi :
  Prim2SF x = S754_zero false \/ normal elo ehi (Prim2SF x) ->
  exists z, round x = Some z /\
            IZR z - /2 <= SF2R (Prim2SF x) < IZR z + /2.
Proof.
  unfold round. intros [-> | (m & e & -> & _)].
  - exists 0%Z. split; [reflexivity|]. cbn [SF2R]. lra.
  - eexists. split; [reflexivity|]. cbn [SF2R cond_Zopp].
    apply round_magnitude_spec. lia.
Qed.

Lemma transition_value_stages m :
  normal (-54) (-53) (Prim2SF m) ->
  SF2R (Prim2SF THRESHOLD_LOW) <= SF2R (Prim2SF m) ->
  exists d q,
    rounds_nonneg (SF2R (Prim2SF m) - SF2R (Prim2SF THRESHOLD_LOW)) (-106) (-52) d /\
    rounds_nonneg (SF2R d / SF2R (Prim2SF THRESHOLD_RANGE)) (-103) (-47) q /\
    rounds_nonneg (SF2R q * SF2R (Prim2SF 255)) (-96) (-38)
                  (Prim2SF (transition_value m)).
Proof.
  intros Hm Hle. unfold transition_value.
  rewrite FloatAxioms.mul_spec, FloatAxioms.div_spec.
  pose proof (sub_stage m Hm Hle) as Hd.
  pose proof (div_stage _ _ Hd) as Hq.
  pose proof (mul_stage _ _ Hq) as Hp.
  eexists _, _. repeat split; eassumption.
Qed.

Lemma transition_value_mono m1 m2 :
  normal (-54) (-53) (Prim2SF m1) -> normal (-54) (-53) (Prim2SF m2) ->
  SF2R (Prim2SF THRESHOLD_LOW) <= SF2R (Prim2SF m1) ->
  SF2R (Prim2SF m1) <= SF2R (Prim2SF m2) ->
  SF2R (Prim2SF (transition_value m1)) <= SF2R (Prim2SF (transition_value m2)).
Proof.
  intros H1 H2 Hlo Hle.
  destruct (transition_value_stages m1 H1 Hlo) as (d1 & q1 & D1 & Q1 & P1).
  destruct (transition_value_stages m2 H2 ltac:(lra)) as (d2 & q2 & D2 & Q2 & P2).
  assert (SF2R d1 <= SF2R d2) as Hd
    by (eapply rounds_nonneg_mono; [|exact D1|exact D2]; lra).
  assert (0 < SF2R (Prim2SF THRESHOLD_RANGE)) as Hc
    by (rewrite Prim2SF_THRESHOLD_RANGE; cbn [SF2R cond_Zopp];
        pose proof (bpow_gt_0 (-56)); nra).
  assert (SF2R q1 <= SF2R q2) as Hq.
  { eapply rounds_nonneg_mono; [|exact Q1|exact Q2].
    unfold Rdiv. apply Rmult_le_compat_r; [|exact Hd].
    apply Rlt_le, Rinv_0_lt_compat, Hc. }
  assert (0 < SF2R (Prim2SF 255)) as Hc'
    by (rewrite Prim2SF_255; cbn [SF2R cond_Zopp];
        pose proof (bpow_gt_0 (-45)); nra).
  eapply rounds_nonneg_mono; [|exact P1|exact P2].
  apply Rmult_le_compat_r; lra.
Qed.

Lemma round_transition_value m :
  normal (-54) (-53) (Prim2SF m) ->
  SF2R (Prim2SF THRESHOLD_LOW) <= SF2R (Prim2SF m) ->
  exists z, round (transition_value m) = Some z /\
            IZR z - /2 <= SF2R (Prim2SF (transition_value m)) < IZR z + /2 /\
            0 <= SF2R (Prim2SF (transition_value m)).
Proof.
  intros Hm Hle.
  destruct (transition_value_stages m Hm Hle) as (d & q & _ & _ & P).
  destruct (rounds_nonneg_cases _ _ _ _ P) as [(_ & E & V) | (_ & Hn & V)].
  - destruct (round_spec (transition_value m) (-96) (-38) (or_introl E)) as (z & Hz & Hb).
    exists z. repeat split; try assumption; try apply Hb. lra.
  - destruct (round_spec (transition_value m) (-96) (-38) (or_intror Hn)) as (z & Hz & Hb).
    exists z. repeat split; try assumption; try apply Hb. lra.
Qed.

End TransitionFacts.

(** The float-level facts used by the compositor proofs. *)

Lemma in_band_value m :
  in_band m ->
  normal (-54) (-53) (Prim2SF m) /\
  (SF2R (Prim2SF THRESHOLD_LOW) <= SF2R (Prim2SF m))%R.
Proof.
  intros (Hhi & Hlo & Hn).
  destruct (in_band_normal m Hhi Hlo (is_nan_non_nan m Hn)) as (Hnorm & K & _).
  split; [exact Hnorm|].
  eapply normal_key_le; [| exact Hnorm | exact K].
  rewrite Prim2SF_THRESHOLD_LOW. exists 8106479329266893%positive, (-54).
  repeat split; try reflexivity; lia.
Qed.

Lemma in_band_THRESHOLD_HIGH : in_band THRESHOLD_HIGH.
Proof. repeat split; reflexivity. Qed.

Lemma round_transition_value_HIGH :
  round (transition_value THRESHOLD_HIGH) = Some 255.
Proof. vm_compute. reflexivity. Qed.

Lemma transition_round_mono m1 m2 z1 z2 :
  in_band m1 -> in_band m2 -> (m1 <=? m2)%float = true ->
  round (transition_value m1) = Some z1 ->
  round (transition_value m2) = Some z2 ->
  z1 <= z2.
Proof.
  intros B1 B2 Hle R1 R2.
  destruct (in_band_value m1 B1) as [N1 L1].
  destruct (in_band_value m2 B2) as [N2 L2].
  rewrite FloatAxioms.leb_spec in Hle. apply SFleb_true in Hle as (_ & _ & K).
  pose proof (normal_key_le _ _ _ _ _ _ N1 N2 K) as Hv.
  pose proof (transition_value_mono m1 m2 N1 N2 L1 Hv) as Hp.
  destruct (round_transition_value m1 N1 L1) as (z1' & E1 & [A1 _] & _).
  destruct (round_transition_value m2 N2 L2) as (z2' & E2 & [_ A2] & _).
  rewrite R1 in E1. rewrite R2 in E2.
  injection E1 as <-. injection E2 as <-.
  assert (IZR z1 < IZR z2 + 1)%R as H by lra.
  rewrite <- plus_IZR in H. apply lt_IZR in H. lia.
Qed.

Lemma transition_round_range m :
  in_band m ->
  exists z, round (transition_value m) = Some z /\ 0 <= z <= 255.
Proof.
  intros B. destruct (in_band_value m B) as [N L].
  destruct (round_transition_value m N L) as (z & E & [_ A] & Hpos).
  exists z. split; [exact E|]. split.
  - assert (IZR (-1) < IZR z)%R as H by lra. apply lt_IZR in H. lia.
  - apply (transition_round_mono m THRESHOLD_HIGH z 255 B in_band_THRESHOLD_HIGH);
      [| exact E | exact round_transition_value_HIGH].
    destruct B as (Hhi & _ & Hn).
    rewrite FloatAxioms.leb_spec. rewrite FloatAxioms.ltb_spec in Hhi.
    pose proof (is_nan_non_nan m Hn) as Hnn.
    unfold SFleb, SFltb in *.
    destruct (SFcompare_key (Prim2SF m) (Prim2SF THRESHOLD_HIGH) Hnn eq_refl)
      as [[E1 K] | [[E1 K] | [E1 K]]]; rewrite E1; try reflexivity.
    destruct (SFcompare_key (Prim2SF THRESHOLD_HIGH) (Prim2SF m) eq_refl Hnn)
      as [[E2 K2] | [[E2 K2] | [E2 K2]]]; rewrite E2 in Hhi; try discriminate.
    + rewrite K2 in K. destruct (lex_lt_irrefl _ K).
    + destruct (lex_lt_asym _ _ K K2).
Qed.

(** * Order of binary64 values *)

Lemma lex_lt_trans p q s : lex_lt p q -> lex_lt q s -> lex_lt p s.
Proof.
  destruct p as [[a b] c], q as [[a' b'] c'], s as [[a'' b''] c'']. cbn. lia.
Qed.

Lemma lex_lt_total p q : lex_lt p q \/ p = q \/ lex_lt q p.
Proof.
  destruct p as [[a b] c], q as [[a' b'] c']. cbn.
  destruct (Z.lt_trichotomy a a') as [H | [H | H]];
  destruct (Z.lt_trichotomy b b') as [H' | [H' | H']];
  destruct (Z.lt_trichotomy c c') as [H'' | [H'' | H'']]; subst;
    try (left; lia); try (right; right; lia); right; left; reflexivity.
Qed.

Lemma float_ltb_true a b :
  (a <? b)%float = true ->
  non_nan (Prim2SF a) = true /\ non_nan (Prim2SF b) = true /\
  lex_lt (key (Prim2SF a)) (key (Prim2SF b)).
Proof. rewrite FloatAxioms.ltb_spec. apply SFltb_true. Qed.

Lemma float_leb_true a b :
  (a <=? b)%float = true ->
  non_nan (Prim2SF a) = true /\ non_nan (Prim2SF b) = true /\
  ~ lex_lt (key (Prim2SF b)) (key (Prim2SF a)).
Proof. rewrite FloatAxioms.leb_spec. apply SFleb_true. Qed.

Lemma float_ltb_intro a b :
  non_nan (Prim2SF a) = true -> non_nan (Prim2SF b) = true ->
  lex_lt (key (Prim2SF a)) (key (Prim2SF b)) -> (a <? b)%float = true.
Proof. rewrite FloatAxioms.ltb_spec. apply SFltb_intro. Qed.

Lemma float_ltb_false_intro a b :
  ~ lex_lt (key (Prim2SF a)) (key (Prim2SF b)) -> (a <? b)%float = false.
Proof.
  intros H. destruct (a <? b)%float eqn:E; [|reflexivity].
  apply float_ltb_true in E as (_ & _ & K). contradiction.
Qed.

Lemma non_nan_is_nan a : non_nan (Prim2SF a) = true -> is_nan a = false.
Proof.
  intros H. unfold is_nan. rewrite FloatAxioms.eqb_spec. unfold SFeqb.
  destruct (SFcompare_key _ _ H H) as [[E K] | [[E K] | [E K]]]; rewrite E.
  - destruct (lex_lt_irrefl _ K).
  - reflexivity.
  - destruct (lex_lt_irrefl _ K).
Qed.

Lemma float_ltb_leb_trans a b c :
  (a <? b)%float = true -> (b <=? c)%float = true -> (a <? c)%float = true.
Proof.
  intros H1 H2. apply float_ltb_true in H1 as (Na & Nb & K1).
  apply float_leb_true in H2 as (_ & Nc & K2).
  apply float_ltb_intro; try assumption.
  destruct (lex_lt_total (key (Prim2SF b)) (key (Prim2SF c))) as [K | [K | K]].
  - eapply lex_lt_trans; eassumption.
  - rewrite <- K. exact K1.
  - contradiction.
Qed.

Lemma float_leb_ltb_trans a b c :
  (a <=? b)%float = true -> (b <? c)%float = true -> (a <? c)%float = true.
Proof.
  intros H1 H2. apply float_leb_true in H1 as (Na & Nb & K1).
  apply float_ltb_true in H2 as (_ & Nc & K2).
  apply float_ltb_intro; try assumption.
  destruct (lex_lt_total (key (Prim2SF a)) (key (Prim2SF b))) as [K | [K | K]].
  - eapply lex_lt_trans; eassumption.
  - rewrite K. exact K2.
  - contradiction.
Qed.

Lemma float_ltb_trans a b c :
  (a <? b)%float = true -> (b <? c)%float = true -> (a <? c)%float = true.
Proof.
  intros H1 H2. apply float_ltb_true in H1 as (Na & Nb & K1).
  apply float_ltb_true in H2 as (_ & Nc & K2).
  apply float_ltb_intro; try assumption. eapply lex_lt_trans; eassumption.
Qed.

Lemma float_ltb_asym a b : (a <? b)%float = true -> (b <? a)%float = false.
Proof.
  intros H. apply float_ltb_true in H as (_ & _ & K).
  apply float_ltb_false_intro. apply lex_lt_asym. exact K.
Qed.

Lemma float_leb_not_ltb a b : (a <=? b)%float = true -> (b <? a)%float = false.
Proof.
  intros H. apply float_leb_true in H as (_ & _ & K).
  apply float_ltb_false_intro. exact K.
Qed.

Lemma float_leb_is_nan a b :
  (a <=? b)%float = true -> is_nan a = false /\ is_nan b = false.
Proof.
  intros H. apply float_leb_true in H as (Na & Nb & _).
  split; apply non_nan_is_nan; assumption.
Qed.

(** The thresholds are the doubles nearest to 0.45 and 0.55, in this order
    around 0.5. *)
Lemma THRESHOLD_LOW_eq : THRESHOLD_LOW = 0.45%float.
Proof. reflexivity. Qed.

Lemma THRESHOLD_HIGH_eq : THRESHOLD_HIGH = 0.55%float.
Proof. reflexivity. Qed.

Lemma below_LOW_not_above_HIGH m :
  (m <? THRESHOLD_LOW)%float = true -> (THRESHOLD_HIGH <? m)%float = false.
Proof.
  intros H. apply float_ltb_asym.
  apply (float_ltb_trans m THRESHOLD_LOW THRESHOLD_HIGH H). reflexivity.
Qed.

Lemma below_LOW_not_above_THRESHOLD m :
  (m <? THRESHOLD_LOW)%float = true -> (THRESHOLD <? m)%float = false.
Proof.
  intros H. apply float_ltb_asym.
  apply (float_ltb_trans m THRESHOLD_LOW THRESHOLD H). reflexivity.
Qed.

Lemma between_thresholds_in_band m :
  (THRESHOLD_LOW <=? m)%float = true -> (m <=? THRESHOLD_HIGH)%float = true ->
  in_band m.
Proof.
  intros Hlo Hhi. unfold in_band. repeat split.
  - apply float_leb_not_ltb. exact Hhi.
  - apply float_leb_not_ltb. exact Hlo.
  - apply (float_leb_is_nan m THRESHOLD_HIGH Hhi).
Qed.

(** * Buffers and loops *)

Lemma load_ok {A : Type} (buf : list A) (i : Z) :
  0 <= i < Z.of_nat (length buf) ->
  exists v, load buf i = Ok v /\ buf !! Z.to_nat i = Some v.
Proof.
  intros Hi. unfold load.
  destruct (Z.ltb_spec i 0) as [H | _]; [lia|].
  destruct (buf !! Z.to_nat i) as [v |] eqn:E.
  - exists v. split; reflexivity.
  - apply lookup_ge_None in E. lia.
Qed.

Lemma load_lookup {A : Type} (buf : list A) (i : Z) (v : A) :
  0 <= i -> buf !! Z.to_nat i = Some v -> load buf i = Ok v.
Proof.
  intros Hi E. unfold load.
  destruct (Z.ltb_spec i 0) as [H | _]; [lia|]. rewrite E. reflexivity.
Qed.

Lemma store_ok {A : Type} (buf : list A) (i : Z) (v : A) :
  0 <= i < Z.of_nat (length buf) ->
  store buf i v = Ok (<[Z.to_nat i := v]> buf).
Proof.
  intros Hi. unfold store.
  destruct (Z.leb_spec 0 i); [|lia].
  destruct (Z.ltb_spec i (Z.of_nat (length buf))); [reflexivity|lia].
Qed.

Lemma lookup_store {A : Type} (buf : list A) (i j : Z) (v : A) :
  0 <= i < Z.of_nat (length buf) -> 0 <= j ->
  <[Z.to_nat i := v]> buf !! Z.to_nat j
  = if j =? i then Some v else buf !! Z.to_nat j.
Proof.
  intros Hi Hj. destruct (Z.eqb_spec j i) as [-> | Hne].
  - apply list_lookup_insert_eq. lia.
  - apply list_lookup_insert_ne. lia.
Qed.

Lemma for_loop_inv {S : Type} (I : Z -> S -> Prop) (body : Z -> S -> exec S) n :
  forall lo s,
    I lo s ->
    (forall i s, lo <= i < lo + Z.of_nat n -> I i s ->
                 exists s', body i s = Ok s' /\ I (i + 1) s') ->
    exists s', for_loop n lo body s = Ok s' /\ I (lo + Z.of_nat n) s'.
Proof.
  induction n as [| n IH]; intros lo s H0 Hstep.
  - exists s. split; [reflexivity|]. replace (lo + Z.of_nat 0) with lo by lia. exact H0.
  - destruct (Hstep lo s ltac:(lia) H0) as (s1 & E1 & H1).
    destruct (IH (lo + 1) s1 H1) as (s' & E' & H').
    { intros i t Hi. apply Hstep. lia. }
    exists s'. split.
    + cbn [for_loop]. rewrite E1. exact E'.
    + replace (lo + Z.of_nat (Datatypes.S n)) with (lo + 1 + Z.of_nat n) by lia.
      exact H'.
Qed.

Lemma for_range_inv {S : Type} (I : Z -> S -> Prop) (body : Z -> S -> exec S)
    lo hi s :
  lo <= hi -> I lo s ->
  (forall i s, lo <= i < hi -> I i s ->
               exists s', body i s = Ok s' /\ I (i + 1) s') ->
  exists s', for_range lo hi body s = Ok s' /\ I hi s'.
Proof.
  intros Hle H0 Hstep. unfold for_range.
  destruct (for_loop_inv I body (Z.to_nat (hi - lo)) lo s H0) as (s' & E & H).
  - intros i t Hi. apply Hstep. lia.
  - exists s'. split; [exact E|].
    replace hi with (lo + Z.of_nat (Z.to_nat (hi - lo))) by lia. exact H.
Qed.

Lemma for_range_empty {S : Type} (body : Z -> S -> exec S) lo hi s :
  hi <= lo -> for_range lo hi body s = Ok s.
Proof.
  intros H. unfold for_range. replace (Z.to_nat (hi - lo)) with O by lia.
  reflexivity.
Qed.

(** * The compositor *)

Ltac zeqb :=
  repeat match goal with
         | |- context [Z.eqb ?a ?b] => destruct (Z.eqb_spec a b); try lia
         | |- context [Z.ltb ?a ?b] => destruct (Z.ltb_spec a b); try lia
         end.

Lemma classify_Transition add_border m e :
  classify add_border m e = Transition -> is_nan m = false -> in_band m.
Proof.
  unfold classify, in_band. intros H Hn.
  destruct (THRESHOLD_HIGH <? m)%float; [discriminate|].
  destruct (m <? THRESHOLD_LOW)%float.
  - destruct (negb (add_border =? 0) && (THRESHOLD <? e)%float); discriminate.
  - repeat split; assumption.
Qed.

(** What a call on well-sized buffers leaves in the pixel buffer. *)
Lemma apply_sticker_mask_native_run
    pixels mask width height add_border border_color border_width expanded_mask :
  0 < width -> 0 < height ->
  sized pixels (width * height * 4) -> sized mask (width * height) ->
  (forall em, expanded_mask = Some em -> sized em (width * height)) ->
  Forall (fun m => is_nan m = false) mask ->
  exists pixels',
    apply_sticker_mask_native (Some pixels) (Some mask) width height add_border
      border_color border_width expanded_mask
    = Ok (MASK_PROCESSOR_SUCCESS, Some pixels') /\
    length pixels' = length pixels /\
    forall i k m e old,
      0 <= i < width * height -> 0 <= k < 4 ->
      mask !! Z.to_nat i = Some m ->
      expanded_value expanded_mask i m = Some e ->
      pixels !! Z.to_nat (i * 4 + k) = Some old ->
      pixels' !! Z.to_nat (i * 4 + k)
      = Some (composite_byte add_border border_color m e k old).
Proof.
  unfold sized. intros Hw Hh Hpx Hmk Hem Hnan.
  unfold apply_sticker_mask_native.
  destruct (Z.leb_spec width 0) as [|_]; [lia|].
  destruct (Z.leb_spec height 0) as [|_]; [lia|]. cbn [orb].
  set (expected := fun j k =>
    match mask !! Z.to_nat j, pixels !! Z.to_nat (j * 4 + k) with
    | Some m, Some old =>
        match expanded_value expanded_mask j m with
        | Some e => Some (composite_byte add_border border_color m e k old)
        | None => None
        end
    | _, _ => None
    end).
  set (I := fun (i : Z) (px : list Z) =>
    length px = length pixels /\
    forall j k, 0 <= j < width * height -> 0 <= k < 4 ->
      px !! Z.to_nat (j * 4 + k)
      = if j <? i then expected j k else pixels !! Z.to_nat (j * 4 + k)).
  match goal with
  | |- context [for_range 0 (width * height) ?body pixels] =>
      destruct (for_range_inv I body 0 (width * height) pixels) as (px' & E & Hlen & HI)
  end.
  - nia.
  - split; [reflexivity|]. intros j k Hj Hk.
    destruct (Z.ltb_spec j 0); [lia|reflexivity].
  - intros i px Hi (Hlen & HI).
    destruct (load_ok mask i ltac:(lia)) as (m & -> & Em). cbn [bind].
    assert (exists e, match expanded_mask with
                      | Some em => load em i
                      | None => Ok m
                      end = Ok e /\ expanded_value expanded_mask i m = Some e)
      as (e & -> & Ee).
    { destruct expanded_mask as [em|]; cbn [expanded_value].
      - specialize (Hem em eq_refl).
        destruct (load_ok em i ltac:(lia)) as (e & -> & Ee). exists e.
        split; [reflexivity | exact Ee].
      - exists m. split; reflexivity. }
    cbn [bind].
    assert (forall k, 0 <= k < 4 -> 0 <= i * 4 + k < Z.of_nat (length px)) as Hidx
      by (intros; lia).
    assert (forall k, 0 <= k < 4 ->
              exists old, pixels !! Z.to_nat (i * 4 + k) = Some old) as Hold.
    { intros k Hk. apply lookup_lt_is_Some. lia. }
    (* the state after the stores of this iteration *)
    assert (forall px1 : list Z,
      length px1 = length pixels ->
      (forall j k, 0 <= j < width * height -> 0 <= k < 4 ->
         px1 !! Z.to_nat (j * 4 + k)
         = if j =? i then expected i k else px !! Z.to_nat (j * 4 + k)) ->
      I (i + 1) px1) as Hdone.
    { intros px1 Hl1 H1. split; [exact Hl1|]. intros j k Hj Hk.
      rewrite (H1 j k Hj Hk). rewrite (HI j k Hj Hk).
      destruct (Z.eqb_spec j i) as [-> | Hne].
      - destruct (Z.ltb_spec i (i + 1)); [reflexivity | lia].
      - destruct (Z.ltb_spec j i); destruct (Z.ltb_spec j (i + 1)); try lia; reflexivity. }
    assert (forall k, 0 <= k < 4 ->
              expected i k = match pixels !! Z.to_nat (i * 4 + k) with
                             | Some old => Some (composite_byte add_border border_color m e k old)
                             | None => None
                             end) as Hexp.
    { intros k Hk. unfold expected. rewrite Em, Ee.
      destruct (pixels !! Z.to_nat (i * 4 + k)); reflexivity. }
    assert (forall j k, 0 <= j < width * height -> 0 <= k < 4 ->
              (j * 4 + k =? i * 4 + 3) = (j =? i) && (k =? 3)) as Hix3
      by (intros; zeqb; reflexivity).
    unfold composite_byte, classify in Hexp.
    destruct (THRESHOLD_HIGH <? m)%float eqn:Chi.
    { (* foreground *)
      rewrite store_ok by (apply Hidx; lia).
      eexists. split; [reflexivity|]. apply Hdone.
      - rewrite length_insert. exact Hlen.
      - intros j k Hj Hk. rewrite lookup_store by (try apply Hidx; lia).
        rewrite Hix3 by assumption.
        destruct (Z.eqb_spec j i) as [-> | Hne]; cbn [andb]; [|reflexivity].
        rewrite Hexp by assumption. destruct (Hold k Hk) as (old & Eo). rewrite Eo.
        destruct (Z.eqb_spec k 3); [reflexivity|].
        rewrite (HI i k) by lia. destruct (Z.ltb_spec i i); [lia|]. exact Eo. }
    destruct (m <? THRESHOLD_LOW)%float eqn:Clo.
    { destruct (negb (add_border =? 0) && (THRESHOLD <? e)%float) eqn:Cb.
      - (* border *)
        rewrite store_ok by (replace (i * 4) with (i * 4 + 0) by lia; apply Hidx; lia).
        cbn [bind].
        rewrite store_ok by (rewrite length_insert; apply Hidx; lia). cbn [bind].
        rewrite store_ok by (rewrite !length_insert; apply Hidx; lia). cbn [bind].
        rewrite store_ok by (rewrite !length_insert; apply Hidx; lia).
        eexists. split; [reflexivity|]. apply Hdone.
        + rewrite !length_insert. exact Hlen.
        + intros j k Hj Hk.
          rewrite !lookup_store by (rewrite ?length_insert; lia).
          destruct (Z.eqb_spec j i) as [-> | Hne].
          * rewrite Hexp by assumption. destruct (Hold k Hk) as (old & Eo). rewrite Eo.
            zeqb; reflexivity.
          * zeqb. reflexivity.
      - (* background *)
        rewrite store_ok by (apply Hidx; lia).
        eexists. split; [reflexivity|]. apply Hdone.
        + rewrite length_insert. exact Hlen.
        + intros j k Hj Hk. rewrite lookup_store by (try apply Hidx; lia).
          rewrite Hix3 by assumption.
          destruct (Z.eqb_spec j i) as [-> | Hne]; cbn [andb]; [|reflexivity].
          rewrite Hexp by assumption. destruct (Hold k Hk) as (old & Eo). rewrite Eo.
          destruct (Z.eqb_spec k 3); [reflexivity|].
          rewrite (HI i k) by lia. destruct (Z.ltb_spec i i); [lia|]. exact Eo. }
    (* transition *)
    assert (in_band m) as Hband.
    { repeat split; try assumption.
      exact (Forall_lookup_1 _ _ _ _ Hnan Em). }
    destruct (transition_round_range m Hband) as (z & Ez & Hz).
    change ((m - THRESHOLD_LOW) / THRESHOLD_RANGE * 255.0)%float
      with (transition_value m).
    rewrite Ez in *. cbn [int_of_double].
    replace ((INT_MIN <=? z) && (z <=? INT_MAX)) with true
      by (symmetry; apply andb_true_iff; unfold INT_MIN, INT_MAX; split;
          apply Z.leb_le; lia).
    cbn [bind].
    rewrite store_ok by (apply Hidx; lia).
    eexists. split; [reflexivity|]. apply Hdone.
    + rewrite length_insert. exact Hlen.
    + intros j k Hj Hk. rewrite lookup_store by (try apply Hidx; lia).
      rewrite Hix3 by assumption.
      destruct (Z.eqb_spec j i) as [-> | Hne]; cbn [andb]; [|reflexivity].
      rewrite Hexp by assumption. destruct (Hold k Hk) as (old & Eo). rewrite Eo.
      destruct (Z.eqb_spec k 3); [reflexivity|].
      rewrite (HI i k) by lia. destruct (Z.ltb_spec i i); [lia|]. exact Eo.
  - exists px'. rewrite E. cbn [bind]. split; [reflexivity|]. split; [exact Hlen|].
    intros i k m e old Hi Hk Em Ee Eo.
    rewrite (HI i k Hi Hk). destruct (Z.ltb_spec i (width * height)); [|lia].
    unfold expected. rewrite Em, Eo, Ee. reflexivity.
Qed.

Lemma composite_pixel_at
    pixels mask width height add_border border_color border_width expanded_mask :
  valid_composite_call pixels mask width height expanded_mask ->
  exists pixels',
    apply_sticker_mask_native (Some pixels) (Some mask) width height add_border
      border_color border_width expanded_mask
    = Ok (MASK_PROCESSOR_SUCCESS, Some pixels') /\
    length pixels' = length pixels /\
    forall i m, 0 <= i < width * height -> mask !! Z.to_nat i = Some m ->
      exists e, expanded_value expanded_mask i m = Some e /\
      forall k, 0 <= k < 4 ->
        exists old, pixels !! Z.to_nat (i * 4 + k) = Some old /\
          pixels' !! Z.to_nat (i * 4 + k)
          = Some (composite_byte add_border border_color m e k old).
Proof.
  intros (Hw & Hh & Hpx & Hmk & Hem & Hnan).
  destruct (apply_sticker_mask_native_run pixels mask width height add_border
              border_color border_width expanded_mask Hw Hh Hpx Hmk Hem Hnan)
    as (pixels' & E & Hlen & Hrun).
  exists pixels'. split; [exact E|]. split; [exact Hlen|].
  intros i m Hi Em.
  assert (exists e, expanded_value expanded_mask i m = Some e) as (e & Ee).
  { destruct expanded_mask as [em|]; cbn [expanded_value]; [|eauto].
    apply lookup_lt_is_Some. specialize (Hem em eq_refl). unfold sized in Hem. lia. }
  exists e. split; [exact Ee|]. intros k Hk.
  assert (exists old, pixels !! Z.to_nat (i * 4 + k) = Some old) as (old & Eo).
  { apply lookup_lt_is_Some. unfold sized in Hpx. lia. }
  exists old. split; [exact Eo|]. apply Hrun; assumption.
Qed.

Lemma uint8_t_clamp z : uint8_t (clamp_int z 0 255) = clamp_int z 0 255.
Proof.
  unfold uint8_t, clamp_int.
  destruct (Z.ltb_spec z 0); [reflexivity|].
  destruct (Z.ltb_spec 255 z); [reflexivity|].
  apply Z.mod_small. lia.
Qed.

Lemma clamp_int_range z : 0 <= clamp_int z 0 255 <= 255.
Proof.
  unfold clamp_int.
  destruct (Z.ltb_spec z 0); [lia|]. destruct (Z.ltb_spec 255 z); lia.
Qed.

(** C3: a pixel whose mask value exceeds 0.55 gets alpha 255 and keeps
    its R, G, B bytes, whatever [add_border], [border_width] and the
    expanded mask are. *)
Theorem foreground_alpha_opaque
    pixels mask width height add_border border_color border_width expanded_mask :
  valid_composite_call pixels mask width height expanded_mask ->
  exists pixels',
    apply_sticker_mask_native (Some pixels) (Some mask) width height add_border
      border_color border_width expanded_mask
    = Ok (MASK_PROCESSOR_SUCCESS, Some pixels') /\
    forall i m,
      0 <= i < width * height -> mask !! Z.to_nat i = Some m ->
      (0.55 <? m)%float = true ->
      pixels' !! Z.to_nat (i * 4 + 3) = Some 255 /\
      forall k, 0 <= k < 3 ->
        pixels' !! Z.to_nat (i * 4 + k) = pixels !! Z.to_nat (i * 4 + k).
Proof.
  intros Hv.
  destruct (composite_pixel_at pixels mask width height add_border border_color
              border_width expanded_mask Hv) as (pixels' & E & _ & Hrun).
  exists pixels'. split; [exact E|]. intros i m Hi Em Hm.
  destruct (Hrun i m Hi Em) as (e & _ & Hk).
  change 0.55%float with THRESHOLD_HIGH in Hm.
  assert (forall k old, composite_byte add_border border_color m e k old
                        = if k =? 3 then 255 else old) as Hb
    by (intros; unfold composite_byte, classify; rewrite Hm; reflexivity).
  split.
  - destruct (Hk 3 ltac:(lia)) as (old & _ & ->). rewrite Hb. reflexivity.
  - intros k Hk3. destruct (Hk k ltac:(lia)) as (old & -> & ->). rewrite Hb.
    destruct (Z.eqb_spec k 3); [lia | reflexivity].
Qed.

Lemma foreground_alpha_opaque_witness :
  exists pixels',
    apply_sticker_mask_native (Some [10; 20; 30; 40]) (Some [1%float]) 1 1 1
      {| r := 1; g := 2; b := 3 |} 2 (Some [1%float])
    = Ok (MASK_PROCESSOR_SUCCESS, Some pixels') /\
    forall i m,
      0 <= i < 1 * 1 -> [1%float] !! Z.to_nat i = Some m ->
      (0.55 <? m)%float = true ->
      pixels' !! Z.to_nat (i * 4 + 3) = Some 255 /\
      forall k, 0 <= k < 3 ->
        pixels' !! Z.to_nat (i * 4 + k)
        = [10; 20; 30; 40] !! Z.to_nat (i * 4 + k).
Proof.
  apply (foreground_alpha_opaque [10; 20; 30; 40] [1%float] 1 1 1
           {| r := 1; g := 2; b := 3 |} 2 (Some [1%float])).
  repeat split; try lia; try reflexivity.
  - intros em [= <-]. reflexivity.
  - repeat constructor.
Defined.

(** C4: a pixel whose mask value is below 0.45 is painted with the border
    colour and alpha 255 when [add_border] is set and its expanded-mask
    value [e] exceeds 0.5 ([e] being the mask value itself when there is
    no expanded mask); otherwise it gets alpha 0 and keeps R, G, B. *)
Theorem background_or_border
    pixels mask width height add_border border_color border_width expanded_mask :
  valid_composite_call pixels mask width height expanded_mask ->
  exists pixels',
    apply_sticker_mask_native (Some pixels) (Some mask) width height add_border
      border_color border_width expanded_mask
    = Ok (MASK_PROCESSOR_SUCCESS, Some pixels') /\
    forall i m e,
      0 <= i < width * height -> mask !! Z.to_nat i = Some m ->
      expanded_value expanded_mask i m = Some e ->
      (m <? 0.45)%float = true ->
      if negb (add_border =? 0) && (0.5 <? e)%float then
        pixels' !! Z.to_nat (i * 4) = Some (r border_color) /\
        pixels' !! Z.to_nat (i * 4 + 1) = Some (g border_color) /\
        pixels' !! Z.to_nat (i * 4 + 2) = Some (b border_color) /\
        pixels' !! Z.to_nat (i * 4 + 3) = Some 255
      else
        pixels' !! Z.to_nat (i * 4 + 3) = Some 0 /\
        forall k, 0 <= k < 3 ->
          pixels' !! Z.to_nat (i * 4 + k) = pixels !! Z.to_nat (i * 4 + k).
Proof.
  intros Hv.
  destruct (composite_pixel_at pixels mask width height add_border border_color
              border_width expanded_mask Hv) as (pixels' & E & _ & Hrun).
  exists pixels'. split; [exact E|]. intros i m e Hi Em Ee Hm.
  destruct (Hrun i m Hi Em) as (e' & Ee' & Hk).
  rewrite Ee in Ee'. injection Ee' as <-.
  change 0.45%float with THRESHOLD_LOW in Hm.
  change 0.5%float with THRESHOLD.
  pose proof (below_LOW_not_above_HIGH m Hm) as Hhi.
  destruct (negb (add_border =? 0) && (THRESHOLD <? e)%float) eqn:Cb.
  - assert (forall k old, composite_byte add_border border_color m e k old
                          = if k =? 0 then r border_color
                            else if k =? 1 then g border_color
                            else if k =? 2 then b border_color else 255) as Hb
      by (intros; unfold composite_byte, classify; rewrite Hhi, Hm, Cb; reflexivity).
    replace (i * 4) with (i * 4 + 0) at 1 by lia.
    destruct (Hk 0 ltac:(lia)) as (o0 & _ & ->).
    destruct (Hk 1 ltac:(lia)) as (o1 & _ & ->).
    destruct (Hk 2 ltac:(lia)) as (o2 & _ & ->).
    destruct (Hk 3 ltac:(lia)) as (o3 & _ & ->).
    rewrite !Hb. repeat split; reflexivity.
  - assert (forall k old, composite_byte add_border border_color m e k old
                          = if k =? 3 then 0 else old) as Hb
      by (intros; unfold composite_byte, classify; rewrite Hhi, Hm, Cb; reflexivity).
    split.
    + destruct (Hk 3 ltac:(lia)) as (old & _ & ->). rewrite Hb. reflexivity.
    + intros k Hk3. destruct (Hk k ltac:(lia)) as (old & -> & ->). rewrite Hb.
      destruct (Z.eqb_spec k 3); [lia | reflexivity].
Qed.

Lemma background_or_border_witness :
  exists pixels',
    apply_sticker_mask_native (Some [10; 20; 30; 40; 50; 60; 70; 80])
      (Some [0.25; 0.25]%float) 2 1 1
      {| r := 1; g := 2; b := 3 |} 2 (Some [1; 0]%float)
    = Ok (MASK_PROCESSOR_SUCCESS, Some pixels') /\
    forall i m e,
      0 <= i < 2 * 1 -> [0.25; 0.25]%float !! Z.to_nat i = Some m ->
      expanded_value (Some [1; 0]%float) i m = Some e ->
      (m <? 0.45)%float = true ->
      if negb (1 =? 0) && (0.5 <? e)%float then
        pixels' !! Z.to_nat (i * 4) = Some 1 /\
        pixels' !! Z.to_nat (i * 4 + 1) = Some 2 /\
        pixels' !! Z.to_nat (i * 4 + 2) = Some 3 /\
        pixels' !! Z.to_nat (i * 4 + 3) = Some 255
      else
        pixels' !! Z.to_nat (i * 4 + 3) = Some 0 /\
        forall k, 0 <= k < 3 ->
          pixels' !! Z.to_nat (i * 4 + k)
          = [10; 20; 30; 40; 50; 60; 70; 80] !! Z.to_nat (i * 4 + k).
Proof.
  apply (background_or_border [10; 20; 30; 40; 50; 60; 70; 80]
           [0.25; 0.25]%float 2 1 1 {| r := 1; g := 2; b := 3 |} 2
           (Some [1; 0]%float)).
  repeat split; try lia; try reflexivity.
  - intros em [= <-]. reflexivity.
  - repeat constructor.
Defined.

Lemma border_pixel_classify add_border m e :
  border_pixel add_border m e = true <-> classify add_border m e = Border.
Proof.
  unfold border_pixel, classify.
  change 0.45%float with THRESHOLD_LOW. change 0.5%float with THRESHOLD.
  destruct (m <? THRESHOLD_LOW)%float eqn:Hm.
  - rewrite (below_LOW_not_above_HIGH m Hm). cbn [andb].
    destruct (negb (add_border =? 0) && (THRESHOLD <? e)%float);
      split; intros; congruence.
  - cbn [andb]. destruct (THRESHOLD_HIGH <? m)%float; split; intros; congruence.
Qed.

(** C5: the compositor leaves R, G, B of every pixel that is not a border
    pixel as they were (only alpha is written there), and writes the four
    bytes R, G, B, A of a border pixel. *)
Theorem rgb_preserved_unless_border
    pixels mask width height add_border border_color border_width expanded_mask :
  valid_composite_call pixels mask width height expanded_mask ->
  exists pixels',
    apply_sticker_mask_native (Some pixels) (Some mask) width height add_border
      border_color border_width expanded_mask
    = Ok (MASK_PROCESSOR_SUCCESS, Some pixels') /\
    length pixels' = length pixels /\
    forall i m e,
      0 <= i < width * height -> mask !! Z.to_nat i = Some m ->
      expanded_value expanded_mask i m = Some e ->
      if border_pixel add_border m e then
        pixels' !! Z.to_nat (i * 4) = Some (r border_color) /\
        pixels' !! Z.to_nat (i * 4 + 1) = Some (g border_color) /\
        pixels' !! Z.to_nat (i * 4 + 2) = Some (b border_color) /\
        pixels' !! Z.to_nat (i * 4 + 3) = Some 255
      else
        forall k, 0 <= k < 3 ->
          pixels' !! Z.to_nat (i * 4 + k) = pixels !! Z.to_nat (i * 4 + k).
Proof.
  intros Hv.
  destruct (composite_pixel_at pixels mask width height add_border border_color
              border_width expanded_mask Hv) as (pixels' & E & Hlen & Hrun).
  exists pixels'. split; [exact E|]. split; [exact Hlen|]. intros i m e Hi Em Ee.
  destruct (Hrun i m Hi Em) as (e' & Ee' & Hk).
  rewrite Ee in Ee'. injection Ee' as <-.
  destruct (border_pixel add_border m e) eqn:Hb.
  - apply border_pixel_classify in Hb.
    replace (i * 4) with (i * 4 + 0) at 1 by lia.
    destruct (Hk 0 ltac:(lia)) as (o0 & _ & ->).
    destruct (Hk 1 ltac:(lia)) as (o1 & _ & ->).
    destruct (Hk 2 ltac:(lia)) as (o2 & _ & ->).
    destruct (Hk 3 ltac:(lia)) as (o3 & _ & ->).
    unfold composite_byte. rewrite Hb. repeat split; reflexivity.
  - intros k Hk3. destruct (Hk k ltac:(lia)) as (old & -> & ->).
    f_equal. unfold composite_byte.
    destruct (classify add_border m e) eqn:C.
    + destruct (Z.eqb_spec k 3); [lia | reflexivity].
    + apply border_pixel_classify in C. congruence.
    + destruct (Z.eqb_spec k 3); [lia | reflexivity].
    + destruct (Z.eqb_spec k 3); [lia | reflexivity].
Qed.

Lemma rgb_preserved_unless_border_witness :
  exists pixels',
    apply_sticker_mask_native (Some [10; 20; 30; 40; 50; 60; 70; 80])
      (Some [0.25; 0.5]%float) 2 1 1
      {| r := 1; g := 2; b := 3 |} 2 (Some [1; 1]%float)
    = Ok (MASK_PROCESSOR_SUCCESS, Some pixels') /\
    length pixels' = length [10; 20; 30; 40; 50; 60; 70; 80] /\
    forall i m e,
      0 <= i < 2 * 1 -> [0.25; 0.5]%float !! Z.to_nat i = Some m ->
      expanded_value (Some [1; 1]%float) i m = Some e ->
      if border_pixel 1 m e then
        pixels' !! Z.to_nat (i * 4) = Some 1 /\
        pixels' !! Z.to_nat (i * 4 + 1) = Some 2 /\
        pixels' !! Z.to_nat (i * 4 + 2) = Some 3 /\
        pixels' !! Z.to_nat (i * 4 + 3) = Some 255
      else
        forall k, 0 <= k < 3 ->
          pixels' !! Z.to_nat (i * 4 + k)
          = [10; 20; 30; 40; 50; 60; 70; 80] !! Z.to_nat (i * 4 + k).
Proof.
  apply (rgb_preserved_unless_border [10; 20; 30; 40; 50; 60; 70; 80]
           [0.25; 0.5]%float 2 1 1 {| r := 1; g := 2; b := 3 |} 2
           (Some [1; 1]%float)).
  repeat split; try lia; try reflexivity.
  - intros em [= <-]. reflexivity.
  - repeat constructor.
Defined.

(** C10: without an expanded mask the compositor writes no R, G or B byte:
    the border test would need a mask value both below 0.45 and above
    0.5. *)
Theorem no_expanded_mask_keeps_rgb
    pixels mask width height add_border border_color border_width :
  valid_composite_call pixels mask width height None ->
  exists pixels',
    apply_sticker_mask_native (Some pixels) (Some mask) width height add_border
      border_color border_width None
    = Ok (MASK_PROCESSOR_SUCCESS, Some pixels') /\
    length pixels' = length pixels /\
    (forall i m, mask !! Z.to_nat i = Some m -> border_pixel add_border m m = false) /\
    forall i k,
      0 <= i < width * height -> 0 <= k < 3 ->
      pixels' !! Z.to_nat (i * 4 + k) = pixels !! Z.to_nat (i * 4 + k).
Proof.
  intros Hv.
  destruct (composite_pixel_at pixels mask width height add_border border_color
              border_width None Hv) as (pixels' & E & Hlen & Hrun).
  assert (forall m, border_pixel add_border m m = false) as Hnb.
  { intros m. unfold border_pixel.
    change 0.45%float with THRESHOLD_LOW. change 0.5%float with THRESHOLD.
    destruct (m <? THRESHOLD_LOW)%float eqn:Hm; [|reflexivity].
    rewrite (below_LOW_not_above_THRESHOLD m Hm). apply andb_false_r. }
  exists pixels'. split; [exact E|]. split; [exact Hlen|]. split; [intros; apply Hnb|].
  intros i k Hi Hk.
  assert (exists m, mask !! Z.to_nat i = Some m) as (m & Em).
  { apply lookup_lt_is_Some. destruct Hv as (_ & _ & _ & Hmk & _).
    unfold sized in Hmk. lia. }
  destruct (Hrun i m Hi Em) as (e & Ee & Hbyte).
  cbn [expanded_value] in Ee. injection Ee as <-.
  destruct (Hbyte k ltac:(lia)) as (old & -> & ->).
  f_equal. unfold composite_byte.
  destruct (classify add_border m m) eqn:C.
  - destruct (Z.eqb_spec k 3); [lia | reflexivity].
  - apply border_pixel_classify in C. rewrite Hnb in C. discriminate.
  - destruct (Z.eqb_spec k 3); [lia | reflexivity].
  - destruct (Z.eqb_spec k 3); [lia | reflexivity].
Qed.

Lemma no_expanded_mask_keeps_rgb_witness :
  exists pixels',
    apply_sticker_mask_native (Some [10; 20; 30; 40; 50; 60; 70; 80])
      (Some [0.25; 0.5]%float) 2 1 1 {| r := 1; g := 2; b := 3 |} 2 None
    = Ok (MASK_PROCESSOR_SUCCESS, Some pixels') /\
    length pixels' = length [10; 20; 30; 40; 50; 60; 70; 80] /\
    (forall i m, [0.25; 0.5]%float !! Z.to_nat i = Some m ->
                 border_pixel 1 m m = false) /\
    forall i k,
      0 <= i < 2 * 1 -> 0 <= k < 3 ->
      pixels' !! Z.to_nat (i * 4 + k)
      = [10; 20; 30; 40; 50; 60; 70; 80] !! Z.to_nat (i * 4 + k).
Proof.
  apply (no_expanded_mask_keeps_rgb [10; 20; 30; 40; 50; 60; 70; 80]
           [0.25; 0.5]%float 2 1 1 {| r := 1; g := 2; b := 3 |} 2).
  repeat split; try lia; try reflexivity.
  - intros em [=].
  - repeat constructor.
Defined.

Lemma composite_alpha_cases add_border border_color m e old :
  is_nan m = false ->
  match classify add_border m e with
  | Foreground => (THRESHOLD_HIGH <? m)%float = true /\
                  composite_byte add_border border_color m e 3 old = 255
  | Border => (m <? THRESHOLD_LOW)%float = true /\
              composite_byte add_border border_color m e 3 old = 255
  | Background => (m <? THRESHOLD_LOW)%float = true /\
                  composite_byte add_border border_color m e 3 old = 0
  | Transition =>
      in_band m /\
      exists z, round (transition_value m) = Some z /\ 0 <= z <= 255 /\
                composite_byte add_border border_color m e 3 old = clamp_int z 0 255 /\
                clamp_int z 0 255 = z
  end.
Proof.
  intros Hn. unfold composite_byte.
  destruct (classify add_border m e) eqn:C; cbn [Z.eqb Pos.eqb].
  - split; [|reflexivity]. unfold classify in C.
    destruct (THRESHOLD_HIGH <? m)%float; [reflexivity|].
    destruct (m <? THRESHOLD_LOW)%float; [|discriminate].
    destruct (negb (add_border =? 0) && (THRESHOLD <? e)%float); discriminate.
  - split; [|reflexivity]. unfold classify in C.
    destruct (THRESHOLD_HIGH <? m)%float; [discriminate|].
    destruct (m <? THRESHOLD_LOW)%float; [reflexivity|discriminate].
  - split; [|reflexivity]. unfold classify in C.
    destruct (THRESHOLD_HIGH <? m)%float; [discriminate|].
    destruct (m <? THRESHOLD_LOW)%float; [reflexivity|discriminate].
  - pose proof (classify_Transition _ _ _ C Hn) as Hb. split; [exact Hb|].
    destruct (transition_round_range m Hb) as (z & -> & Hz).
    exists z. split; [reflexivity|]. split; [exact Hz|].
    split; [apply uint8_t_clamp|].
    unfold clamp_int. destruct (Z.ltb_spec z 0); [lia|].
    destruct (Z.ltb_spec 255 z); [lia|reflexivity].
Qed.

Lemma composite_alpha_mono add_border border_color mi mj ei ej oi oj :
  (mi <=? mj)%float = true -> border_pixel add_border mi ei = false ->
  composite_byte add_border border_color mi ei 3 oi
  <= composite_byte add_border border_color mj ej 3 oj.
Proof.
  intros Hle Hnb. destruct (float_leb_is_nan mi mj Hle) as [Ni Nj].
  pose proof (composite_alpha_cases add_border border_color mi ei oi Ni) as Ci.
  pose proof (composite_alpha_cases add_border border_color mj ej oj Nj) as Cj.
  assert (0 <= composite_byte add_border border_color mj ej 3 oj <= 255) as Rj.
  { destruct (classify add_border mj ej);
      try (destruct Cj as [_ ->]; lia).
    destruct Cj as (_ & z & _ & Hz & -> & ->). exact Hz. }
  destruct (classify add_border mi ei) eqn:Ki.
  - destruct Ci as [Hi ->].
    pose proof (float_ltb_leb_trans _ _ _ Hi Hle) as Hj.
    unfold composite_byte, classify. rewrite Hj. cbn. lia.
  - apply border_pixel_classify in Ki. congruence.
  - destruct Ci as [_ ->]. lia.
  - destruct Ci as (Bi & zi & Ri & Hzi & -> & ->).
    destruct (classify add_border mj ej) eqn:Kj.
    + destruct Cj as [_ ->]. lia.
    + destruct Cj as [_ ->]. lia.
    + destruct Cj as [Hj _].
      pose proof (float_leb_ltb_trans _ _ _ Hle Hj) as Hi.
      destruct Bi as (_ & Hlo & _). congruence.
    + destruct Cj as (Bj & zj & Rj' & Hzj & -> & ->).
      exact (transition_round_mono mi mj zi zj Bi Bj Hle Ri Rj').
Qed.

(** C2 (as amended): for a mask value in [0.45, 0.55] the alpha written is
    [clamp (round ((m - 0.45) / 0.1 * 255)) 0 255], evaluated in double
    arithmetic; and alpha is non-decreasing in the mask value whenever the
    pixel of the smaller mask value is not a border pixel, hence over the
    whole image when bordering is off or no expanded mask is given. *)
Theorem transition_alpha_ramp
    pixels mask width height add_border border_color border_width expanded_mask :
  valid_composite_call pixels mask width height expanded_mask ->
  exists pixels',
    apply_sticker_mask_native (Some pixels) (Some mask) width height add_border
      border_color border_width expanded_mask
    = Ok (MASK_PROCESSOR_SUCCESS, Some pixels') /\
    (forall i m,
       0 <= i < width * height -> mask !! Z.to_nat i = Some m ->
       (0.45 <=? m)%float = true -> (m <=? 0.55)%float = true ->
       exists z, round ((m - 0.45) / 0.1 * 255)%float = Some z /\
                 pixels' !! Z.to_nat (i * 4 + 3) = Some (clamp_int z 0 255)) /\
    (forall i j mi mj ei ai aj,
       0 <= i -> 0 <= j ->
       mask !! Z.to_nat i = Some mi -> mask !! Z.to_nat j = Some mj ->
       expanded_value expanded_mask i mi = Some ei ->
       border_pixel add_border mi ei = false ->
       (mi <=? mj)%float = true ->
       pixels' !! Z.to_nat (i * 4 + 3) = Some ai ->
       pixels' !! Z.to_nat (j * 4 + 3) = Some aj ->
       ai <= aj) /\
    (add_border = 0 \/ expanded_mask = None -> alpha_monotone mask pixels').
Proof.
  intros Hv.
  destruct (composite_pixel_at pixels mask width height add_border border_color
              border_width expanded_mask Hv) as (pixels' & E & _ & Hrun).
  assert (Hmk : sized mask (width * height))
    by (destruct Hv as (_ & _ & _ & H & _); exact H).
  assert (Hrange : forall i m, 0 <= i -> mask !! Z.to_nat i = Some m ->
                               0 <= i < width * height).
  { intros i m Hi Em. apply lookup_lt_Some in Em. unfold sized in Hmk. lia. }
  assert (Hmono : forall i j mi mj ei ai aj,
       0 <= i -> 0 <= j ->
       mask !! Z.to_nat i = Some mi -> mask !! Z.to_nat j = Some mj ->
       expanded_value expanded_mask i mi = Some ei ->
       border_pixel add_border mi ei = false ->
       (mi <=? mj)%float = true ->
       pixels' !! Z.to_nat (i * 4 + 3) = Some ai ->
       pixels' !! Z.to_nat (j * 4 + 3) = Some aj ->
       ai <= aj).
  { intros i j mi mj ei ai aj Hi Hj Emi Emj Eei Hnb Hle Eai Eaj.
    destruct (Hrun i mi (Hrange i mi Hi Emi) Emi) as (ei' & Eei' & Hki).
    rewrite Eei in Eei'. injection Eei' as <-.
    destruct (Hrun j mj (Hrange j mj Hj Emj) Emj) as (ej & _ & Hkj).
    destruct (Hki 3 ltac:(lia)) as (oi & _ & Hai).
    destruct (Hkj 3 ltac:(lia)) as (oj & _ & Haj).
    rewrite Eai in Hai. rewrite Eaj in Haj.
    injection Hai as ->. injection Haj as ->.
    apply composite_alpha_mono; assumption. }
  exists pixels'. split; [exact E|]. split; [|split; [exact Hmono|]].
  - intros i m Hi Em Hlo Hhi.
    change 0.45%float with THRESHOLD_LOW in *.
    change 0.55%float with THRESHOLD_HIGH in Hhi.
    change ((m - THRESHOLD_LOW) / 0.1 * 255)%float with (transition_value m).
    pose proof (between_thresholds_in_band m Hlo Hhi) as Hb.
    destruct (Hrun i m Hi Em) as (e & _ & Hk).
    destruct (Hk 3 ltac:(lia)) as (old & _ & ->).
    destruct Hb as (Chi & Clo & Hn).
    pose proof (composite_alpha_cases add_border border_color m e old Hn) as C.
    assert (classify add_border m e = Transition) as K
      by (unfold classify; rewrite Chi, Clo; reflexivity).
    rewrite K in C. destruct C as (_ & z & Rz & _ & -> & _).
    exists z. split; [exact Rz | reflexivity].
  - intros Hoff i j mi mj ai aj Hi Hj Emi Emj Hle Eai Eaj.
    destruct (Hrun i mi (Hrange i mi Hi Emi) Emi) as (ei & Eei & _).
    apply (Hmono i j mi mj ei ai aj); try assumption.
    unfold border_pixel. destruct Hoff as [-> | ->].
    + cbn [Z.eqb negb]. rewrite andb_false_r. reflexivity.
    + cbn [expanded_value] in Eei. injection Eei as <-.
      change 0.45%float with THRESHOLD_LOW. change 0.5%float with THRESHOLD.
      destruct (mi <? THRESHOLD_LOW)%float eqn:Hm; [|reflexivity].
      rewrite (below_LOW_not_above_THRESHOLD mi Hm). apply andb_false_r.
Qed.

Lemma transition_alpha_ramp_witness :
  exists pixels',
    apply_sticker_mask_native (Some [10; 20; 30; 40; 50; 60; 70; 80])
      (Some [0.5; 0.75]%float) 2 1 0 {| r := 1; g := 2; b := 3 |} 2 None
    = Ok (MASK_PROCESSOR_SUCCESS, Some pixels') /\
    (forall i m,
       0 <= i < 2 * 1 -> [0.5; 0.75]%float !! Z.to_nat i = Some m ->
       (0.45 <=? m)%float = true -> (m <=? 0.55)%float = true ->
       exists z, round ((m - 0.45) / 0.1 * 255)%float = Some z /\
                 pixels' !! Z.to_nat (i * 4 + 3) = Some (clamp_int z 0 255)) /\
    (forall i j mi mj ei ai aj,
       0 <= i -> 0 <= j ->
       [0.5; 0.75]%float !! Z.to_nat i = Some mi ->
       [0.5; 0.75]%float !! Z.to_nat j = Some mj ->
       expanded_value None i mi = Some ei ->
       border_pixel 0 mi ei = false ->
       (mi <=? mj)%float = true ->
       pixels' !! Z.to_nat (i * 4 + 3) = Some ai ->
       pixels' !! Z.to_nat (j * 4 + 3) = Some aj ->
       ai <= aj) /\
    (0 = 0 \/ @None (list float) = None ->
     alpha_monotone [0.5; 0.75]%float pixels').
Proof.
  apply (transition_alpha_ramp [10; 20; 30; 40; 50; 60; 70; 80]
           [0.5; 0.75]%float 2 1 0 {| r := 1; g := 2; b := 3 |} 2 None).
  repeat split; try lia; try reflexivity.
  - intros em [=].
  - repeat constructor.
Defined.

(** C2 as stated fails: with bordering on, a border pixel of mask value 0
    gets alpha 255 while a pixel of mask value 0.5 gets 127. *)
Lemma transition_alpha_border_breaks_monotone :
  apply_sticker_mask_native (Some [0; 0; 0; 0; 0; 0; 0; 0])
    (Some [0; 0.5]%float) 2 1 1 {| r := 1; g := 2; b := 3 |} 1
    (Some [1; 1]%float)
  = Ok (MASK_PROCESSOR_SUCCESS, Some [1; 2; 3; 255; 0; 0; 0; 127]) /\
  ~ alpha_monotone [0; 0.5]%float [1; 2; 3; 255; 0; 0; 0; 127].
Proof.
  split; [reflexivity|]. intros H.
  specialize (H 0 1 0%float 0.5%float 255 127).
  assert (255 <= 127) by (apply H; try lia; reflexivity). lia.
Qed.

(** In double arithmetic the ramp gives 127 at the mask value 0.5:
    [(0.5 - 0.45) / 0.1 * 255] evaluates to 127.49999999999997. *)
Lemma transition_alpha_at_half :
  apply_sticker_mask_native (Some [10; 20; 30; 40]) (Some [0.5%float]) 1 1 0
    {| r := 1; g := 2; b := 3 |} 0 None
  = Ok (MASK_PROCESSOR_SUCCESS, Some [10; 20; 30; 127]).
Proof. reflexivity. Qed.

(** * Mask expansion, [src/native] *)

Lemma cell_index_range width height x y :
  in_grid width height x y -> 0 <= y * width + x < width * height.
Proof. unfold in_grid. nia. Qed.

Lemma cell_index_inj width x y x' y' :
  0 <= x < width -> 0 <= x' < width ->
  y * width + x = y' * width + x' -> x = x' /\ y = y'.
Proof. intros Hx Hx' E. assert (y = y') by nia. subst. lia. Qed.

Lemma painted_ext (S S' : Z -> Z -> Prop) width height out :
  (forall x y, in_grid width height x y -> (S x y <-> S' x y)) ->
  painted S width height out -> painted S' width height out.
Proof.
  intros Hiff [Hs Hp]. split; [exact Hs|]. intros x y Hg.
  destruct (Hp x y Hg) as [[H1 H2] | [H1 H2]].
  - left. split; [apply Hiff; assumption | exact H2].
  - right. split; [|exact H2]. intros H. apply H1, Hiff; assumption.
Qed.

Lemma painted_store (S : Z -> Z -> Prop) width height out nx ny :
  painted S width height out -> in_grid width height nx ny ->
  exists out',
    store out (ny * width + nx) 1%float = Ok out' /\
    painted (fun x y => S x y \/ (x = nx /\ y = ny)) width height out'.
Proof.
  intros [Hs Hp] Hg. unfold sized in Hs.
  pose proof (cell_index_range _ _ _ _ Hg) as Hi.
  rewrite store_ok by lia. eexists. split; [reflexivity|].
  split; [unfold sized; rewrite length_insert; exact Hs|].
  intros x y Hg'. pose proof (cell_index_range _ _ _ _ Hg') as Hi'.
  rewrite lookup_store by lia.
  destruct (Z.eqb_spec (y * width + x) (ny * width + nx)) as [E | Hne].
  - apply cell_index_inj in E; [| apply Hg' | apply Hg].
    left. split; [right; exact E | reflexivity].
  - destruct (Hp x y Hg') as [[H1 H2] | [H1 H2]].
    + left. split; [left; exact H1 | exact H2].
    + right. split; [|exact H2]. intros [H | [-> ->]]; [contradiction | lia].
Qed.

Lemma memset_zero_painted output width height :
  0 < width -> 0 < height -> sized output (width * height) ->
  exists out', memset_zero output (width * height) = Ok out' /\
               painted (fun _ _ => False) width height out'.
Proof.
  unfold sized. intros Hw Hh Hs. unfold memset_zero.
  destruct (Z.leb_spec 0 (width * height)); [|nia].
  destruct (Z.leb_spec (width * height) (Z.of_nat (length output))); [|lia].
  eexists. split; [reflexivity|]. split.
  - unfold sized. rewrite length_app, length_replicate, length_drop. lia.
  - intros x y Hg. right. split; [tauto|].
    pose proof (cell_index_range _ _ _ _ Hg) as Hi.
    rewrite lookup_app_l by (rewrite length_replicate; lia).
    apply lookup_replicate_2. lia.
Qed.

Lemma clamp_int_low v n : 0 <= n -> v <= n -> clamp_int v 0 n = Z.max 0 v.
Proof.
  intros Hn Hv. unfold clamp_int.
  destruct (Z.ltb_spec v 0); [lia|]. destruct (Z.ltb_spec n v); lia.
Qed.

Lemma clamp_int_high v n : 0 <= n -> 0 <= v -> clamp_int v 0 n = Z.min n v.
Proof.
  intros Hn Hv. unfold clamp_int.
  destruct (Z.ltb_spec v 0); [lia|]. destruct (Z.ltb_spec n v); lia.
Qed.

Lemma int_expr_ok z : INT_MIN <= z <= INT_MAX -> int_expr z = Ok z.
Proof.
  intros H. unfold int_expr.
  destruct (Z.leb_spec INT_MIN z); [|lia]. destruct (Z.leb_spec z INT_MAX); [|lia].
  reflexivity.
Qed.

Lemma int_expr_overflow z : INT_MAX < z -> int_expr z = Fault SignedOverflow.
Proof.
  intros H. unfold int_expr.
  destruct (Z.leb_spec z INT_MAX); [lia|]. rewrite andb_false_r. reflexivity.
Qed.

Lemma square_le_square a m : - m <= a <= m -> a * a <= m * m.
Proof. intros H. nia. Qed.

(** Radii whose squares are in range: all up to 32767, none above
    46340, and with a radius every smaller one. *)
Lemma squares_in_range_small width height border_width :
  0 <= border_width <= 32767 -> 0 < width -> 0 < height ->
  squares_in_range width height border_width.
Proof.
  intros Hbw Hw Hh. unfold squares_in_range, INT_MAX.
  assert (border_width * border_width <= 32767 * 32767) by nia.
  assert (Hm : forall n, 0 < n ->
            Z.min border_width (n - 1) * Z.min border_width (n - 1) <= 32767 * 32767).
  { intros n Hn. apply square_le_square. lia. }
  specialize (Hm width Hw) as H1. specialize (Hm height Hh) as H2. lia.
Qed.

Lemma squares_in_range_bound width height border_width :
  0 <= border_width -> squares_in_range width height border_width ->
  border_width <= 46340.
Proof. unfold squares_in_range, INT_MAX. intros Hbw [H _]. nia. Qed.

Lemma squares_in_range_le width height border_width border_width' :
  0 <= border_width <= border_width' -> 0 < width -> 0 < height ->
  squares_in_range width height border_width' ->
  squares_in_range width height border_width.
Proof.
  unfold squares_in_range. intros Hbw Hw Hh [H1 H2].
  assert (border_width * border_width <= border_width' * border_width')
    by (apply square_le_square; lia).
  assert (Z.min border_width (width - 1) * Z.min border_width (width - 1)
          <= Z.min border_width' (width - 1) * Z.min border_width' (width - 1))
    by (apply square_le_square; lia).
  assert (Z.min border_width (height - 1) * Z.min border_width (height - 1)
          <= Z.min border_width' (height - 1) * Z.min border_width' (height - 1))
    by (apply square_le_square; lia).
  lia.
Qed.

(** The two inner loops paint the disk around the foreground cell
    [(x, y)]; no square overflows. *)
Lemma paint_disk (S : Z -> Z -> Prop) width height border_width x y out :
  0 <= border_width -> squares_in_range width height border_width ->
  in_grid width height x y ->
  painted S width height out ->
  exists out',
    for_range (clamp_int (y - border_width) 0 (height - 1))
              (clamp_int (y + border_width) 0 (height - 1) + 1)
      (fun ny output =>
         for_range (clamp_int (x - border_width) 0 (width - 1))
                   (clamp_int (x + border_width) 0 (width - 1) + 1)
           (fun nx output =>
              let* distance_sq :=
                int_expr ((nx - x) * (nx - x) + (ny - y) * (ny - y)) in
              if distance_sq <=? border_width * border_width
              then store output (ny * width + nx) 1%float
              else Ok output) output) out
    = Ok out' /\
    painted (fun tx ty => S tx ty \/ within border_width x y tx ty)
            width height out'.
Proof.
  intros Hbw [_ Hsq] [Hx Hy] Hp.
  rewrite !clamp_int_low, !clamp_int_high by lia.
  set (sy := Z.max 0 (y - border_width)). set (ey := Z.min (height - 1) (y + border_width)).
  set (sx := Z.max 0 (x - border_width)). set (ex := Z.min (width - 1) (x + border_width)).
  set (T := fun (ny nx : Z) (tx ty : Z) =>
              within border_width x y tx ty /\ sx <= tx <= ex /\ sy <= ty /\
              (ty < ny \/ (ty = ny /\ tx < nx))).
  match goal with
  | |- context [for_range sy (ey + 1) ?body out] =>
      destruct (for_range_inv
                  (fun ny o => painted (fun tx ty => S tx ty \/ T ny sx tx ty)
                                       width height o)
                  body sy (ey + 1) out) as (out' & E & HP)
  end.
  - lia.
  - revert Hp. apply painted_ext. intros tx ty _. unfold T. split; [tauto|].
    intros [H | H]; [exact H | lia].
  - intros ny o Hny Ho. cbv beta.
    rewrite clamp_int_low, clamp_int_high by lia. fold sx ex.
    match goal with
    | |- context [for_range sx (ex + 1) ?body o] =>
        destruct (for_range_inv
                    (fun nx o' => painted (fun tx ty => S tx ty \/ T ny nx tx ty)
                                          width height o')
                    body sx (ex + 1) o) as (o' & E & HP)
    end.
    + lia.
    + exact Ho.
    + intros nx o1 Hnx Ho1. cbv beta.
      rewrite int_expr_ok; cycle 1.
      { pose proof (Z.square_nonneg (nx - x)). pose proof (Z.square_nonneg (ny - y)).
        assert ((nx - x) * (nx - x)
                <= Z.min border_width (width - 1) * Z.min border_width (width - 1))
          by (apply square_le_square; unfold sx, ex in Hnx; lia).
        assert ((ny - y) * (ny - y)
                <= Z.min border_width (height - 1) * Z.min border_width (height - 1))
          by (apply square_le_square; unfold sy, ey in Hny; lia).
        unfold INT_MIN. lia. }
      cbn [bind].
      destruct (Z.leb_spec ((nx - x) * (nx - x) + (ny - y) * (ny - y))
                           (border_width * border_width)) as [Hd | Hd].
      * destruct (painted_store _ width height o1 nx ny Ho1) as (o2 & -> & Ho2).
        { unfold in_grid. lia. }
        exists o2. split; [reflexivity|]. revert Ho2. apply painted_ext.
        intros tx ty _. unfold T, within. split.
        -- intros [[H | H] | [-> ->]]; [tauto | right; intuition lia | right; lia].
        -- intros [H | (Hwi & Hbx & Hby & Hpos)]; [tauto|].
           destruct (Z.eq_dec tx nx) as [-> | Hne];
             destruct (Z.eq_dec ty ny) as [-> | Hne']; try tauto;
             left; right; intuition lia.
      * exists o1. split; [reflexivity|]. revert Ho1. apply painted_ext.
        intros tx ty _. unfold T, within. split.
        -- intros [H | H]; [tauto | right; intuition lia].
        -- intros [H | (Hwi & Hbx & Hby & Hpos)]; [tauto|].
           right. repeat split; try assumption; try lia.
           destruct (Z.eq_dec tx nx) as [-> | Hne];
             destruct (Z.eq_dec ty ny) as [-> | Hne']; lia.
    + exists o'. split; [exact E|]. revert HP. apply painted_ext.
      intros tx ty _. unfold T. split.
      * intros [H | H]; [tauto | right; intuition lia].
      * intros [H | H]; [tauto | right; intuition lia].
  - exists out'. split; [exact E|]. revert HP. apply painted_ext.
    intros tx ty [Htx Hty]. unfold T, within. split.
    + intros [H | H]; tauto.
    + intros [H | H]; [tauto|]. right. split; [exact H|].
      pose proof (Z.square_nonneg (tx - x)) as Hsx.
      pose proof (Z.square_nonneg (ty - y)) as Hsy.
      assert (Hdx : (tx - x) * (tx - x) <= border_width * border_width) by lia.
      assert (Hdy : (ty - y) * (ty - y) <= border_width * border_width) by lia.
      assert (x - border_width <= tx <= x + border_width) by nia.
      assert (y - border_width <= ty <= y + border_width) by nia.
      unfold sx, ex, sy, ey. lia.
Qed.

Lemma covered_by_ext (P P' : Z -> Z -> Prop) mask width height border_width x y :
  (forall fx fy, in_grid width height fx fy -> foreground_at mask width fx fy ->
                 (P fx fy <-> P' fx fy)) ->
  covered_by P mask width height border_width x y <->
  covered_by P' mask width height border_width x y.
Proof.
  intros H. unfold covered_by.
  split; intros (fx & fy & Hg & Hf & Hw & Hp); exists fx, fy;
    (split; [exact Hg|]); (split; [exact Hf|]); (split; [exact Hw|]);
    apply (H fx fy Hg Hf); exact Hp.
Qed.

(** [expand_mask_native] of [src/native] computes the dilation by the
    Euclidean disk, for every radius, 0 included, whose squares are in
    the range of [int]. *)
Lemma native_expand_mask_disk mask output width height border_width :
  0 < width -> 0 < height -> 0 <= border_width ->
  squares_in_range width height border_width ->
  sized mask (width * height) -> sized output (width * height) ->
  exists output',
    Native.expand_mask_native (Some mask) (Some output) width height border_width
    = Ok (MASK_PROCESSOR_SUCCESS, Some output') /\
    painted (covered mask width height border_width) width height output'.
Proof.
  intros Hw Hh Hbw Hsq Hmk Hout. unfold Native.expand_mask_native.
  destruct (Z.leb_spec width 0); [lia|]. destruct (Z.leb_spec height 0); [lia|].
  destruct (Z.ltb_spec border_width 0); [lia|]. cbn [orb].
  destruct (memset_zero_painted output width height Hw Hh Hout) as (out1 & -> & P1).
  cbn [bind]. cbv zeta.
  rewrite (int_expr_ok (border_width * border_width))
    by (destruct Hsq as [Hsq _]; pose proof (Z.square_nonneg border_width);
        unfold INT_MIN; lia).
  cbn [bind].
  set (Prow := fun (y fx fy : Z) => fy < y).
  set (Pcell := fun (y x fx fy : Z) => fy < y \/ (fy = y /\ fx < x)).
  match goal with
  | |- context [for_range 0 height ?body out1] =>
      destruct (for_range_inv
                  (fun y o => painted (covered_by (Prow y) mask width height border_width)
                                      width height o)
                  body 0 height out1) as (out' & E & HP)
  end.
  - lia.
  - revert P1. apply painted_ext. intros x y _. split; [tauto|].
    intros (fx & fy & [_ Hfy] & _ & _ & Hp). unfold Prow in Hp. lia.
  - intros y o Hy Ho. cbv beta.
    match goal with
    | |- context [for_range 0 width ?body o] =>
        destruct (for_range_inv
                    (fun x o' => painted (covered_by (Pcell y x) mask width height
                                                     border_width) width height o')
                    body 0 width o) as (o' & E & HP)
    end.
    + lia.
    + revert Ho. apply painted_ext. intros tx ty _. apply covered_by_ext.
      intros fx fy [Hfx _] _. unfold Prow, Pcell. lia.
    + intros x o1 Hx Ho1. cbv beta.
      assert (in_grid width height x y) as Hg by (unfold in_grid; lia).
      pose proof (cell_index_range _ _ _ _ Hg) as Hi.
      unfold sized in Hmk.
      destruct (load_ok mask (y * width + x) ltac:(lia)) as (v & -> & Ev).
      cbn [bind].
      destruct (THRESHOLD <? v)%float eqn:Hv.
      * destruct (paint_disk _ width height border_width x y o1 Hbw Hsq Hg Ho1)
          as (o2 & -> & Ho2).
        exists o2. split; [reflexivity|]. revert Ho2. apply painted_ext.
        intros tx ty _. unfold covered_by, Pcell. split.
        -- intros [(fx & fy & Hfg & Hf & Hwi & Hp) | Hwi].
           ++ exists fx, fy. repeat split; try assumption; try apply Hfg. lia.
           ++ exists x, y. repeat split; try lia; try assumption.
              exists v. split; [exact Ev | exact Hv].
        -- intros (fx & fy & Hfg & Hf & Hwi & Hp).
           destruct (Z.eq_dec fy y) as [-> | Hne];
             [destruct (Z.eq_dec fx x) as [-> | Hne]|].
           ++ right. exact Hwi.
           ++ left. exists fx, y. repeat split; try assumption; try apply Hfg. lia.
           ++ left. exists fx, fy. repeat split; try assumption; try apply Hfg. lia.
      * exists o1. split; [reflexivity|]. revert Ho1. apply painted_ext.
        intros tx ty _. apply covered_by_ext.
        intros fx fy _ (v' & Ev' & Hv'). unfold Pcell. split; [lia|].
        intros Hp.
        destruct (Z.eq_dec fy y) as [-> | Hne];
          [destruct (Z.eq_dec fx x) as [-> | Hne]|]; try lia.
        rewrite Ev in Ev'. injection Ev' as <-.
        change 0.5%float with THRESHOLD in Hv'. congruence.
    + exists o'. split; [exact E|]. revert HP. apply painted_ext.
      intros tx ty _. apply covered_by_ext.
      intros fx fy [Hfx _] _. unfold Prow, Pcell. lia.
  - exists out'. rewrite E. cbn [bind]. split; [reflexivity|].
    revert HP. apply painted_ext. intros tx ty _. apply covered_by_ext.
    intros fx fy [_ Hfy] _. unfold Prow. split; [tauto | lia].
Qed.

Lemma one_ne_zero : 1%float <> 0%float.
Proof.
  intros H. apply (f_equal Prim2SF) in H. vm_compute in H. discriminate.
Qed.

Lemma painted_iff (S : Z -> Z -> Prop) width height out x y :
  painted S width height out -> in_grid width height x y ->
  (out !! Z.to_nat (y * width + x) = Some 1%float <-> S x y) /\
  (out !! Z.to_nat (y * width + x) = Some 0%float <-> ~ S x y).
Proof.
  intros [_ Hp] Hg.
  destruct (Hp x y Hg) as [[H1 H2] | [H1 H2]]; rewrite H2; split; split;
    first [ tauto
          | intros [= E]; first [ destruct (one_ne_zero E)
                                | symmetry in E; destruct (one_ne_zero E) ]
          | intros H; first [ reflexivity | contradiction ] ].
Qed.

Lemma sized_9 (l : list float) :
  sized l 9 -> exists a b c d e f g h i, l = [a; b; c; d; e; f; g; h; i].
Proof.
  unfold sized. intros H.
  do 9 (destruct l as [| ? l]; [cbn in H; lia|]).
  destruct l; [|cbn in H; lia]. eauto 12.
Qed.

(** C1 (as amended): for a radius [border_width > 0] whose squares stay
    in the range of [int] (every radius up to 32767, none above 46340),
    [expand_mask_native] of [src/native] sets a cell to 1.0 exactly when
    a foreground cell lies within Euclidean distance [border_width] of
    it, and to 0.0 otherwise; on the 3 x 3 mask whose centre alone is
    set, radius 1 gives the plus-shaped grid, in both variants of the
    function. *)
Theorem native_expand_is_euclidean_disk mask output width height border_width :
  0 < width -> 0 < height -> 0 < border_width ->
  squares_in_range width height border_width ->
  sized mask (width * height) -> sized output (width * height) ->
  (exists output',
     Native.expand_mask_native (Some mask) (Some output) width height
       border_width
     = Ok (MASK_PROCESSOR_SUCCESS, Some output') /\
     forall x y, in_grid width height x y ->
       (output' !! Z.to_nat (y * width + x) = Some 1%float
        <-> covered mask width height border_width x y) /\
       (output' !! Z.to_nat (y * width + x) = Some 0%float
        <-> ~ covered mask width height border_width x y)) /\
  (forall out temp, sized out 9 ->
     Native.expand_mask_native (Some centre_3x3) (Some out) 3 3 1
     = Ok (MASK_PROCESSOR_SUCCESS, Some plus_3x3) /\
     Ios.expand_mask_native (Some centre_3x3) (Some out) 3 3 1 temp
     = Ok (MASK_PROCESSOR_SUCCESS, Some plus_3x3)).
Proof.
  intros Hw Hh Hbw Hsq Hmk Hout. split.
  - destruct (native_expand_mask_disk mask output width height border_width
                Hw Hh ltac:(lia) Hsq Hmk Hout) as (output' & E & HP).
    exists output'. split; [exact E|]. intros x y Hg.
    exact (painted_iff _ _ _ _ _ _ HP Hg).
  - intros out temp Hs.
    destruct (sized_9 out Hs) as (a & b & c & d & e & f & g & h & i & ->).
    split; vm_compute; reflexivity.
Qed.

Lemma native_expand_is_euclidean_disk_witness :
  (exists output',
     Native.expand_mask_native (Some centre_3x3) (Some plus_3x3) 3 3 2
     = Ok (MASK_PROCESSOR_SUCCESS, Some output') /\
     forall x y, in_grid 3 3 x y ->
       (output' !! Z.to_nat (y * 3 + x) = Some 1%float
        <-> covered centre_3x3 3 3 2 x y) /\
       (output' !! Z.to_nat (y * 3 + x) = Some 0%float
        <-> ~ covered centre_3x3 3 3 2 x y)) /\
  (forall out temp, sized out 9 ->
     Native.expand_mask_native (Some centre_3x3) (Some out) 3 3 1
     = Ok (MASK_PROCESSOR_SUCCESS, Some plus_3x3) /\
     Ios.expand_mask_native (Some centre_3x3) (Some out) 3 3 1 temp
     = Ok (MASK_PROCESSOR_SUCCESS, Some plus_3x3)).
Proof.
  apply (native_expand_is_euclidean_disk centre_3x3 plus_3x3 3 3 2);
    first [ lia | reflexivity | unfold squares_in_range, INT_MAX; lia ].
Defined.

(** From radius 46341 the square of the radius is not an [int]: the
    behaviour of [src/native] is undefined, whatever the mask. *)
Lemma native_expand_overflows mask output width height border_width :
  0 < width -> 0 < height -> 46340 < border_width ->
  sized output (width * height) ->
  Native.expand_mask_native (Some mask) (Some output) width height border_width
  = Fault SignedOverflow.
Proof.
  intros Hw Hh Hbw Hout. unfold Native.expand_mask_native.
  destruct (Z.leb_spec width 0); [lia|]. destruct (Z.leb_spec height 0); [lia|].
  destruct (Z.ltb_spec border_width 0); [lia|]. cbn [orb].
  destruct (memset_zero_painted output width height Hw Hh Hout) as (out1 & -> & _).
  cbn [bind]. rewrite int_expr_overflow by (unfold INT_MAX; nia). reflexivity.
Qed.

(** Below that, on a grid wide and high enough, it is the sum of two
    squares that overflows: radius 46340 on a 46341 x 298 grid. *)
Lemma squares_out_of_range_46340 : ~ squares_in_range 46341 298 46340.
Proof. unfold squares_in_range, INT_MAX. lia. Qed.

(** C1 as stated fails on [ios/Classes]: for radius 4 the iterative
    8-connected growth marks the cell (3, 3) of a 4 x 4 grid whose only
    foreground cell is (0, 0), at squared distance 18 > 16. *)
Lemma ios_expand_not_euclidean_disk :
  exists output',
    Ios.expand_mask_native (Some corner_4x4) (Some (replicate 16 0%float)) 4 4 4
      (Some (replicate 16 0%float))
    = Ok (MASK_PROCESSOR_SUCCESS, Some output') /\
    output' !! Z.to_nat (3 * 4 + 3) = Some 1%float /\
    ~ covered corner_4x4 4 4 4 3 3.
Proof.
  eexists. split; [vm_compute; reflexivity|]. split; [reflexivity|].
  intros (fx & fy & [Hfx Hfy] & (v & Ev & Hv) & Hwi & _).
  unfold within in Hwi.
  assert (fx = 0 /\ fy = 0) as [-> ->]; [|lia].
  assert (fx = 0 \/ fx = 1 \/ fx = 2 \/ fx = 3) as Hx by lia.
  assert (fy = 0 \/ fy = 1 \/ fy = 2 \/ fy = 3) as Hy by lia.
  destruct Hx as [-> | [-> | [-> | ->]]]; destruct Hy as [-> | [-> | [-> | ->]]];
    try (split; reflexivity);
    cbn in Ev; injection Ev as <-; vm_compute in Hv; discriminate.
Qed.

(** Also at radius 1 the iOS variant leaves the disk: an offset that
    crosses the right edge lands on the next row. *)
Lemma ios_expand_wraps_rows :
  Ios.expand_mask_native (Some [0; 0; 1; 0; 0; 0; 0; 0; 0]%float)
    (Some (replicate 9 0%float)) 3 3 1 None
  = Ok (MASK_PROCESSOR_SUCCESS, Some [0; 1; 1; 1; 0; 1; 0; 0; 0]%float) /\
  Native.expand_mask_native (Some [0; 0; 1; 0; 0; 0; 0; 0; 0]%float)
    (Some (replicate 9 0%float)) 3 3 1
  = Ok (MASK_PROCESSOR_SUCCESS, Some [0; 1; 1; 0; 0; 1; 0; 0; 0]%float).
Proof. split; vm_compute; reflexivity. Qed.

Lemma covered_radius_0 mask width height x y :
  in_grid width height x y ->
  covered mask width height 0 x y <-> foreground_at mask width x y.
Proof.
  intros Hg. unfold covered, covered_by, within. split.
  - intros (fx & fy & _ & Hf & Hwi & _).
    pose proof (Z.square_nonneg (x - fx)) as Hsx.
    pose proof (Z.square_nonneg (y - fy)) as Hsy.
    assert ((x - fx) * (x - fx) = 0) as Hx0 by lia.
    assert ((y - fy) * (y - fy) = 0) as Hy0 by lia.
    apply Z.eq_mul_0 in Hx0. apply Z.eq_mul_0 in Hy0.
    assert (x = fx /\ y = fy) as [-> ->] by lia. exact Hf.
  - intros Hf. exists x, y. repeat split; try apply Hg; try assumption; lia.
Qed.

Lemma memcpy_all (dst src : list float) n :
  sized dst n -> sized src n -> memcpy dst src n = Ok src.
Proof.
  unfold sized, memcpy. intros Hd Hs.
  destruct (Z.leb_spec 0 n); [|lia].
  destruct (Z.leb_spec n (Z.of_nat (length dst))); [|lia].
  destruct (Z.leb_spec n (Z.of_nat (length src))); [|lia]. cbn [andb].
  rewrite take_ge, drop_ge by lia. rewrite app_nil_r. reflexivity.
Qed.

(** C6 (as amended): with [border_width = 0], [src/native] returns SUCCESS
    and writes the thresholded mask (1.0 where the mask exceeds 0.5, 0.0
    elsewhere), while [ios/Classes] returns SUCCESS and copies the mask
    unchanged. *)
Theorem expand_radius_0 mask output width height :
  0 < width -> 0 < height ->
  sized mask (width * height) -> sized output (width * height) ->
  (exists output',
     Native.expand_mask_native (Some mask) (Some output) width height 0
     = Ok (MASK_PROCESSOR_SUCCESS, Some output') /\
     forall x y v, in_grid width height x y ->
       mask !! Z.to_nat (y * width + x) = Some v ->
       output' !! Z.to_nat (y * width + x)
       = Some (if (0.5 <? v)%float then 1%float else 0%float)) /\
  (forall temp,
     Ios.expand_mask_native (Some mask) (Some output) width height 0 temp
     = Ok (MASK_PROCESSOR_SUCCESS, Some mask)).
Proof.
  intros Hw Hh Hmk Hout. split.
  - destruct (native_expand_mask_disk mask output width height 0
                Hw Hh ltac:(lia)
                (squares_in_range_small width height 0 ltac:(lia) Hw Hh)
                Hmk Hout) as (output' & E & HP).
    exists output'. split; [exact E|]. intros x y v Hg Ev.
    destruct (painted_iff _ _ _ _ _ _ HP Hg) as [H1 H0].
    destruct (0.5 <? v)%float eqn:Hv.
    + apply H1. apply covered_radius_0; [exact Hg|]. exists v. split; assumption.
    + apply H0. intros Hc. apply covered_radius_0 in Hc; [|exact Hg].
      destruct Hc as (v' & Ev' & Hv'). rewrite Ev in Ev'. injection Ev' as <-.
      congruence.
  - intros temp. unfold Ios.expand_mask_native.
    destruct (Z.leb_spec width 0); [lia|]. destruct (Z.leb_spec height 0); [lia|].
    cbn [orb Z.ltb Z.compare Z.eqb].
    rewrite (memcpy_all output mask (width * height) Hout Hmk). reflexivity.
Qed.

Lemma expand_radius_0_witness :
  (exists output',
     Native.expand_mask_native (Some centre_3x3) (Some plus_3x3) 3 3 0
     = Ok (MASK_PROCESSOR_SUCCESS, Some output') /\
     forall x y v, in_grid 3 3 x y ->
       centre_3x3 !! Z.to_nat (y * 3 + x) = Some v ->
       output' !! Z.to_nat (y * 3 + x)
       = Some (if (0.5 <? v)%float then 1%float else 0%float)) /\
  (forall temp,
     Ios.expand_mask_native (Some centre_3x3) (Some plus_3x3) 3 3 0 temp
     = Ok (MASK_PROCESSOR_SUCCESS, Some centre_3x3)).
Proof.
  apply (expand_radius_0 centre_3x3 plus_3x3 3 3); try lia; reflexivity.
Defined.

(** C6 as stated fails on [ios/Classes]: the mask value 0.7 is copied, not
    replaced by 1.0. *)
Lemma ios_expand_radius_0_copies :
  Ios.expand_mask_native (Some [0.7%float]) (Some [0.5%float]) 1 1 0 None
  = Ok (MASK_PROCESSOR_SUCCESS, Some [0.7%float]) /\
  (0.5 <? 0.7)%float = true /\ 0.7%float <> 1%float.
Proof.
  split; [reflexivity|]. split; [reflexivity|].
  intros H. apply (f_equal Prim2SF) in H. vm_compute in H. discriminate.
Qed.

(** * The smoother *)

Lemma cell_lookup (buf : list float) i v :
  buf !! Z.to_nat i = Some v -> cell buf i = v.
Proof. unfold cell. intros ->. reflexivity. Qed.

(** The kernel loop sums the in-bounds samples and counts them. *)
Lemma kernel_loop (src : list float) (idx : Z -> Z) (c n half : Z) :
  0 <= half -> 0 <= c < n ->
  (forall k, 0 <= k < n -> 0 <= idx k < Z.of_nat (length src)) ->
  for_range (- half) (half + 1)
    (fun kx '(sum, count) =>
       if (0 <=? c + kx) && (c + kx <? n) then
         let* v := load src (idx (c + kx)) in
         Ok ((sum + v)%float, count + 1)
       else Ok (sum, count))
    (0%float, 0)
  = Ok (fold_left PrimFloat.add
          ((fun k => cell src (idx k)) <$> in_bounds_window c n half) 0%float,
        Z.of_nat (length (in_bounds_window c n half))).
Proof.
  intros Hhalf Hc Hidx.
  set (lo := Z.max 0 (c - half)).
  set (cnt := fun kx => Z.max 0 (Z.min n (c + kx) - lo)).
  set (f := fun k => cell src (idx k)).
  match goal with
  | |- for_range _ _ ?body _ = _ =>
      destruct (for_range_inv
                  (fun kx (st : float * Z) =>
                     st = (fold_left PrimFloat.add (f <$> seqZ lo (cnt kx)) 0%float,
                           cnt kx))
                  body (- half) (half + 1) (0%float, 0)) as (st & E & HI)
  end.
  - lia.
  - unfold cnt. replace (Z.max 0 (Z.min n (c + - half) - lo)) with 0 by lia.
    reflexivity.
  - intros kx st Hkx ->. cbv beta iota.
    destruct (Z.leb_spec 0 (c + kx)) as [H0 | H0];
      [destruct (Z.ltb_spec (c + kx) n) as [H1 | H1]|]; cbn [andb].
    + destruct (load_ok src (idx (c + kx)) (Hidx (c + kx) ltac:(lia))) as (v & -> & Ev).
      cbn [bind]. eexists. split; [reflexivity|].
      assert (cnt kx = c + kx - lo) as Hcnt by (unfold cnt, lo; lia).
      assert (cnt (kx + 1) = cnt kx + 1) as Hcnt' by (unfold cnt, lo in *; lia).
      rewrite Hcnt'. f_equal.
      rewrite seqZ_app by lia. rewrite fmap_app, fold_left_app.
      replace (lo + cnt kx) with (c + kx) by lia.
      change (seqZ (c + kx) 1) with [c + kx]. cbn [fmap list_fmap fold_left].
      unfold f. rewrite (cell_lookup _ _ _ Ev). reflexivity.
    + eexists. split; [reflexivity|].
      replace (cnt (kx + 1)) with (cnt kx) by (unfold cnt, lo; lia). reflexivity.
    + eexists. split; [reflexivity|].
      replace (cnt (kx + 1)) with (cnt kx) by (unfold cnt, lo; lia). reflexivity.
  - rewrite E, HI. unfold in_bounds_window. fold lo.
    replace (cnt (half + 1)) with (Z.min (n - 1) (c + half) - lo + 1)
      by (unfold cnt, lo; lia).
    rewrite length_seqZ. f_equal. f_equal. unfold lo. lia.
Qed.

(** A double loop that stores [F x y] into every cell fills the grid. *)
Lemma fill_grid (F : Z -> Z -> float)
    (body : Z -> Z -> list float -> exec (list float)) width height dst :
  0 < width -> 0 < height -> sized dst (width * height) ->
  (forall x y o, in_grid width height x y -> sized o (width * height) ->
     body y x o = store o (y * width + x) (F x y)) ->
  exists dst',
    for_range 0 height (fun y o => for_range 0 width (body y) o) dst = Ok dst' /\
    sized dst' (width * height) /\
    forall x y, in_grid width height x y ->
      dst' !! Z.to_nat (y * width + x) = Some (F x y).
Proof.
  intros Hw Hh Hs Hbody.
  set (I := fun (P : Z -> Z -> Prop) (o : list float) =>
    sized o (width * height) /\
    forall x y, in_grid width height x y -> P x y ->
      o !! Z.to_nat (y * width + x) = Some (F x y)).
  destruct (for_range_inv (fun y => I (fun _ y' => y' < y))
              (fun y o => for_range 0 width (body y) o) 0 height dst)
    as (dst' & E & Hs' & HI).
  - lia.
  - split; [exact Hs|]. intros x y [_ Hy] H. lia.
  - intros y o Hy [Ho HIo]. cbv beta.
    destruct (for_range_inv (fun x => I (fun x' y' => y' < y \/ (y' = y /\ x' < x)))
                (body y) 0 width o) as (o' & E & Ho' & HIo').
    + lia.
    + split; [exact Ho|]. intros x' y' Hg [H | H];
        [apply HIo; assumption | unfold in_grid in Hg; lia].
    + intros x o1 Hx [Ho1 HI1].
      assert (in_grid width height x y) as Hg by (unfold in_grid; lia).
      pose proof (cell_index_range _ _ _ _ Hg) as Hi.
      rewrite (Hbody x y o1 Hg Ho1). unfold sized in Ho1.
      rewrite store_ok by lia. eexists. split; [reflexivity|]. split.
      * unfold sized. rewrite length_insert. exact Ho1.
      * intros x' y' Hg' Hp. pose proof (cell_index_range _ _ _ _ Hg') as Hi'.
        rewrite lookup_store by lia.
        destruct (Z.eqb_spec (y' * width + x') (y * width + x)) as [Eq | Hne].
        -- apply cell_index_inj in Eq; [|apply Hg'|apply Hg].
           destruct Eq as [-> ->]. reflexivity.
        -- apply HI1; [exact Hg'|].
           destruct Hp as [Hp | [-> Hp]]; [left; exact Hp|].
           right. split; [reflexivity|].
           assert (x' <> x) by (intros ->; apply Hne; reflexivity). lia.
    + exists o'. split; [exact E|]. split; [exact Ho'|].
      intros x' y' Hg' Hp. apply HIo'; [exact Hg'|]. destruct Hg' as [Hx' _]. lia.
  - exists dst'. split; [exact E|]. split; [exact Hs'|].
    intros x y Hg. apply HI; [exact Hg|]. apply Hg.
Qed.

(** What a call with a kernel larger than 1 and a successful allocation
    computes: [temp'] is the scratch buffer after the horizontal pass. *)
Lemma smooth_mask_native_run mask output width height kernel_size temp :
  0 < width -> 0 < height -> 1 < kernel_size ->
  sized mask (width * height) -> sized output (width * height) ->
  sized temp (width * height) ->
  exists temp' output',
    smooth_mask_native (Some mask) (Some output) width height kernel_size
      (Some temp)
    = Ok (MASK_PROCESSOR_SUCCESS, Some output') /\
    sized output' (width * height) /\
    (forall x y, in_grid width height x y ->
       temp' !! Z.to_nat (y * width + x)
       = Some (horizontal_mean mask width (Z.quot kernel_size 2) x y)) /\
    (forall x y, in_grid width height x y ->
       output' !! Z.to_nat (y * width + x)
       = Some (vertical_mean temp' width height (Z.quot kernel_size 2) x y)).
Proof.
  intros Hw Hh Hk Hmk Hout Htmp. unfold smooth_mask_native.
  destruct (Z.leb_spec width 0); [lia|]. destruct (Z.leb_spec height 0); [lia|].
  destruct (Z.leb_spec kernel_size 0); [lia|].
  destruct (Z.leb_spec kernel_size 1); [lia|]. cbn [orb]. cbv zeta.
  set (half := Z.quot kernel_size 2).
  assert (0 <= half) as Hhalf by (apply Z.quot_pos; lia).
  match goal with
  | |- context [for_range 0 height (fun y o => for_range 0 width (@?b y) o) temp] =>
      destruct (fill_grid (horizontal_mean mask width half) b width height temp
                  Hw Hh Htmp) as (temp' & E1 & Hs1 & Hp1)
  end.
  { intros x y o [Hx Hy] Ho. cbv beta.
    pose proof (kernel_loop mask (fun nx => y * width + nx) x width half Hhalf Hx) as K.
    cbv beta in K. rewrite K.
    - cbn [bind]. unfold horizontal_mean, mean. rewrite length_fmap. reflexivity.
    - intros k Hk'. unfold sized in Hmk. nia. }
  cbv beta in E1. rewrite E1. cbn [bind].
  match goal with
  | |- context [for_range 0 height (fun y o => for_range 0 width (@?b y) o) output] =>
      destruct (fill_grid (vertical_mean temp' width height half) b width height
                  output Hw Hh Hout) as (output' & E2 & Hs2 & Hp2)
  end.
  { intros x y o [Hx Hy] Ho. cbv beta.
    pose proof (kernel_loop temp' (fun ny => ny * width + x) y height half Hhalf Hy) as K.
    cbv beta in K. rewrite K.
    - cbn [bind]. unfold vertical_mean, mean. rewrite length_fmap. reflexivity.
    - intros k Hk'. unfold sized in Hs1. nia. }
  cbv beta in E2. rewrite E2. cbn [bind].
  exists temp', output'. repeat split; assumption.
Qed.

Lemma seqZ_2 c : seqZ c 2 = [c; c + 1].
Proof.
  rewrite seqZ_cons by lia. rewrite seqZ_cons by lia. rewrite seqZ_nil by lia.
  reflexivity.
Qed.

(** With a kernel of 3 the window of a border position holds the two
    in-bounds positions only. *)
Lemma in_bounds_window_corner c n c0 :
  2 <= n -> (c = 0 /\ c0 = 0) \/ (c = n - 1 /\ c0 = n - 2) ->
  in_bounds_window c n 1 = [c0; c0 + 1].
Proof.
  intros Hn H. unfold in_bounds_window. rewrite <- seqZ_2.
  destruct H as [[-> ->] | [-> ->]]; f_equal; lia.
Qed.

(** C7: the smoother is a horizontal pass followed by a vertical pass, each
    writing the mean of the in-bounds samples of its window, divided by
    their number; with a kernel of 3 on a grid of at least 2 x 2 cells the
    output at a corner is the mean of the in-bounds 2 x 2 block, taken row
    by row. *)
Theorem smooth_is_in_bounds_mean mask output width height kernel_size temp :
  0 < width -> 0 < height -> 1 < kernel_size ->
  sized mask (width * height) -> sized output (width * height) ->
  sized temp (width * height) ->
  exists temp' output',
    smooth_mask_native (Some mask) (Some output) width height kernel_size
      (Some temp)
    = Ok (MASK_PROCESSOR_SUCCESS, Some output') /\
    (forall x y, in_grid width height x y ->
       temp' !! Z.to_nat (y * width + x)
       = Some (horizontal_mean mask width (Z.quot kernel_size 2) x y)) /\
    (forall x y, in_grid width height x y ->
       output' !! Z.to_nat (y * width + x)
       = Some (vertical_mean temp' width height (Z.quot kernel_size 2) x y)) /\
    (kernel_size = 3 -> 2 <= width -> 2 <= height ->
     forall cx cy x0 y0,
       (cx = 0 /\ x0 = 0) \/ (cx = width - 1 /\ x0 = width - 2) ->
       (cy = 0 /\ y0 = 0) \/ (cy = height - 1 /\ y0 = height - 2) ->
       output' !! Z.to_nat (cy * width + cx)
       = Some (mean [mean [cell mask (y0 * width + x0);
                           cell mask (y0 * width + (x0 + 1))];
                     mean [cell mask ((y0 + 1) * width + x0);
                           cell mask ((y0 + 1) * width + (x0 + 1))]])).
Proof.
  intros Hw Hh Hk Hmk Hout Htmp.
  destruct (smooth_mask_native_run mask output width height kernel_size temp
              Hw Hh Hk Hmk Hout Htmp) as (temp' & output' & E & _ & H1 & H2).
  exists temp', output'. split; [exact E|]. split; [exact H1|]. split; [exact H2|].
  intros -> Hw2 Hh2 cx cy x0 y0 Hcx Hcy.
  change (Z.quot 3 2) with 1 in *.
  assert (in_grid width height cx cy) as Hg by (unfold in_grid; lia).
  rewrite (H2 cx cy Hg). f_equal. unfold vertical_mean.
  rewrite (in_bounds_window_corner cy height y0 Hh2 Hcy). cbn [fmap list_fmap].
  assert (forall y, 0 <= y < height ->
            cell temp' (y * width + cx)
            = mean [cell mask (y * width + x0); cell mask (y * width + (x0 + 1))])
    as Hrow.
  { intros y Hy. rewrite (cell_lookup temp' _ _ (H1 cx y ltac:(unfold in_grid; lia))).
    unfold horizontal_mean.
    rewrite (in_bounds_window_corner cx width x0 Hw2 Hcx). reflexivity. }
  rewrite !Hrow by lia. reflexivity.
Qed.

Lemma smooth_is_in_bounds_mean_witness :
  exists temp' output',
    smooth_mask_native (Some [1; 0; 0; 0]%float) (Some [0; 0; 0; 0]%float) 2 2 3
      (Some [0; 0; 0; 0]%float)
    = Ok (MASK_PROCESSOR_SUCCESS, Some output') /\
    (forall x y, in_grid 2 2 x y ->
       temp' !! Z.to_nat (y * 2 + x)
       = Some (horizontal_mean [1; 0; 0; 0]%float 2 (Z.quot 3 2) x y)) /\
    (forall x y, in_grid 2 2 x y ->
       output' !! Z.to_nat (y * 2 + x)
       = Some (vertical_mean temp' 2 2 (Z.quot 3 2) x y)) /\
    (3 = 3 -> 2 <= 2 -> 2 <= 2 ->
     forall cx cy x0 y0,
       (cx = 0 /\ x0 = 0) \/ (cx = 2 - 1 /\ x0 = 2 - 2) ->
       (cy = 0 /\ y0 = 0) \/ (cy = 2 - 1 /\ y0 = 2 - 2) ->
       output' !! Z.to_nat (cy * 2 + cx)
       = Some (mean [mean [cell [1; 0; 0; 0]%float (y0 * 2 + x0);
                           cell [1; 0; 0; 0]%float (y0 * 2 + (x0 + 1))];
                     mean [cell [1; 0; 0; 0]%float ((y0 + 1) * 2 + x0);
                           cell [1; 0; 0; 0]%float ((y0 + 1) * 2 + (x0 + 1))]])).
Proof.
  apply (smooth_is_in_bounds_mean [1; 0; 0; 0]%float [0; 0; 0; 0]%float 2 2 3
           [0; 0; 0; 0]%float); try lia; reflexivity.
Defined.

(** The corner of a 2 x 2 mask holding a single 1.0 is smoothed to 1/4,
    not to the 1/9 that zero padding would give. *)
Lemma smooth_corner_quarter :
  smooth_mask_native (Some [1; 0; 0; 0]%float) (Some [0; 0; 0; 0]%float) 2 2 3
    (Some [0; 0; 0; 0]%float)
  = Ok (MASK_PROCESSOR_SUCCESS, Some [0.25; 0.25; 0.25; 0.25]%float).
Proof. vm_compute. reflexivity. Qed.

(** * Allocation failure and degenerate grids *)

Lemma memset_zero_all output n :
  0 <= n -> sized output n ->
  memset_zero output n = Ok (replicate (Z.to_nat n) 0%float).
Proof.
  unfold sized, memset_zero. intros Hn Hs.
  destruct (Z.leb_spec 0 n); [|lia].
  destruct (Z.leb_spec n (Z.of_nat (length output))); [|lia]. cbn [andb].
  rewrite drop_ge by lia. rewrite app_nil_r. reflexivity.
Qed.

(** The first pass of the iterative branch of [ios/Classes] writes the
    thresholded mask. *)
Lemma ios_first_pass mask n :
  0 <= n -> sized mask n ->
  exists output2,
    for_range 0 n
      (fun i output =>
         let* v := load mask i in
         if (THRESHOLD <? v)%float then store output i 1%float else Ok output)
      (replicate (Z.to_nat n) 0%float)
    = Ok output2 /\
    sized output2 n /\
    forall i v, 0 <= i -> mask !! Z.to_nat i = Some v ->
      output2 !! Z.to_nat i
      = Some (if (0.5 <? v)%float then 1%float else 0%float).
Proof.
  unfold sized. intros Hn Hs.
  match goal with
  | |- context [for_range 0 n ?body ?init] =>
      destruct (for_range_inv
                  (fun i (o : list float) =>
                     Z.of_nat (length o) = n /\
                     forall j v, 0 <= j -> mask !! Z.to_nat j = Some v ->
                       o !! Z.to_nat j
                       = Some (if (j <? i) && (0.5 <? v)%float
                               then 1%float else 0%float))
                  body 0 n init) as (o & E & Hlen & HI)
  end.
  - exact Hn.
  - split; [rewrite length_replicate; lia|]. intros j v Hj Ev.
    destruct (Z.ltb_spec j 0); [lia|]. cbn [andb].
    apply lookup_replicate_2. apply lookup_lt_Some in Ev. lia.
  - intros i o Hi [Hlen HI]. cbv beta.
    destruct (load_ok mask i ltac:(lia)) as (v & -> & Ev). cbn [bind].
    change THRESHOLD with 0.5%float.
    destruct (0.5 <? v)%float eqn:Hv.
    + rewrite store_ok by lia. eexists. split; [reflexivity|].
      split; [rewrite length_insert; exact Hlen|].
      intros j w Hj Ew. assert (j < n) by (apply lookup_lt_Some in Ew; lia).
      rewrite lookup_store by lia.
      destruct (Z.eqb_spec j i) as [-> | Hne].
      * rewrite Ev in Ew. injection Ew as <-. rewrite Hv.
        destruct (Z.ltb_spec i (i + 1)); [reflexivity | lia].
      * rewrite (HI j w Hj Ew).
        destruct (Z.ltb_spec j i); destruct (Z.ltb_spec j (i + 1)); try lia; reflexivity.
    + exists o. split; [reflexivity|]. split; [exact Hlen|].
      intros j w Hj Ew. rewrite (HI j w Hj Ew).
      destruct (Z.eqb_spec j i) as [-> | Hne].
      * rewrite Ev in Ew. injection Ew as <-. rewrite Hv, !andb_false_r. reflexivity.
      * destruct (Z.ltb_spec j i); destruct (Z.ltb_spec j (i + 1)); try lia; reflexivity.
  - exists o. split; [exact E|]. split; [exact Hlen|].
    intros i v Hi Ev. rewrite (HI i v Hi Ev).
    assert (i < n) by (apply lookup_lt_Some in Ev; lia).
    destruct (Z.ltb_spec i n); [reflexivity | lia].
Qed.

(** C9 (as amended): when the scratch allocation fails, [smooth_mask_native]
    returns ERROR_MEMORY with the output buffer as the caller passed it;
    [expand_mask_native] of [ios/Classes], which allocates only for radii
    above 3, returns ERROR_MEMORY after it has overwritten the output
    buffer with the thresholded mask. *)
Theorem allocation_failure mask output width height :
  0 < width -> 0 < height ->
  sized mask (width * height) -> sized output (width * height) ->
  (forall kernel_size, 1 < kernel_size ->
     smooth_mask_native (Some mask) (Some output) width height kernel_size None
     = Ok (MASK_PROCESSOR_ERROR_MEMORY, Some output)) /\
  (forall border_width, 3 < border_width ->
     exists output',
       Ios.expand_mask_native (Some mask) (Some output) width height
         border_width None
       = Ok (MASK_PROCESSOR_ERROR_MEMORY, Some output') /\
       forall i v, 0 <= i -> mask !! Z.to_nat i = Some v ->
         output' !! Z.to_nat i
         = Some (if (0.5 <? v)%float then 1%float else 0%float)).
Proof.
  intros Hw Hh Hmk Hout. split.
  - intros kernel_size Hk. unfold smooth_mask_native.
    destruct (Z.leb_spec width 0); [lia|]. destruct (Z.leb_spec height 0); [lia|].
    destruct (Z.leb_spec kernel_size 0); [lia|].
    destruct (Z.leb_spec kernel_size 1); [lia|]. reflexivity.
  - intros border_width Hb. unfold Ios.expand_mask_native.
    destruct (Z.leb_spec width 0); [lia|]. destruct (Z.leb_spec height 0); [lia|].
    destruct (Z.ltb_spec border_width 0); [lia|].
    destruct (Z.eqb_spec border_width 0); [lia|].
    destruct (Z.leb_spec border_width 3); [lia|]. cbn [orb].
    rewrite (memset_zero_all output (width * height)) by (try assumption; nia).
    cbn [bind].
    destruct (ios_first_pass mask (width * height) ltac:(nia) Hmk)
      as (output2 & -> & _ & Hthr).
    cbn [bind]. exists output2. split; [reflexivity | exact Hthr].
Qed.

Lemma allocation_failure_witness :
  (forall kernel_size, 1 < kernel_size ->
     smooth_mask_native (Some [1; 0]%float) (Some [0.5; 0.5]%float) 2 1
       kernel_size None
     = Ok (MASK_PROCESSOR_ERROR_MEMORY, Some [0.5; 0.5]%float)) /\
  (forall border_width, 3 < border_width ->
     exists output',
       Ios.expand_mask_native (Some [1; 0]%float) (Some [0.5; 0.5]%float) 2 1
         border_width None
       = Ok (MASK_PROCESSOR_ERROR_MEMORY, Some output') /\
       forall i v, 0 <= i -> [1; 0]%float !! Z.to_nat i = Some v ->
         output' !! Z.to_nat i
         = Some (if (0.5 <? v)%float then 1%float else 0%float)).
Proof.
  apply (allocation_failure [1; 0]%float [0.5; 0.5]%float 2 1); try lia; reflexivity.
Defined.

(** C9 as stated fails on [ios/Classes]: the output cell has been written
    when ERROR_MEMORY is returned. *)
Lemma ios_expand_writes_before_allocation :
  Ios.expand_mask_native (Some [1%float]) (Some [0.5%float]) 1 1 4 None
  = Ok (MASK_PROCESSOR_ERROR_MEMORY, Some [1%float]) /\
  [1%float] <> [0.5%float].
Proof.
  split; [reflexivity|]. intros H.
  apply (f_equal (fun l => Prim2SF (cell l 0))) in H. vm_compute in H.
  discriminate.
Qed.

(** C8 fails on [ios/Classes]: on a grid of one row, or of one column, the
    iterative branch of [expand_mask_native] reads [temp_buffer] outside
    its [width * height] cells. *)
Theorem ios_expand_degenerate_out_of_bounds :
  Ios.expand_mask_native (Some [0; 0; 0]%float) (Some [0; 0; 0]%float) 3 1 4
    (Some [0; 0; 0]%float)
  = Fault OutOfBounds /\
  Ios.expand_mask_native (Some [0; 0; 0]%float) (Some [0; 0; 0]%float) 1 3 4
    (Some [0; 0; 0]%float)
  = Fault OutOfBounds.
Proof. split; vm_compute; reflexivity. Qed.

(** X22: the functions of [src/native], and the compositor and the
    smoother of both files, stay inside their buffers on every grid,
    degenerate or not: they run to completion, the expansion for every
    radius whose squares stay in the range of [int]. *)
Lemma native_operations_in_bounds
    pixels mask output temp width height add_border border_color border_width
    expanded_mask kernel_size :
  valid_composite_call pixels mask width height expanded_mask ->
  sized output (width * height) -> sized temp (width * height) ->
  0 <= border_width -> squares_in_range width height border_width ->
  0 < kernel_size ->
  (exists pixels',
     apply_sticker_mask_native (Some pixels) (Some mask) width height add_border
       border_color border_width expanded_mask
     = Ok (MASK_PROCESSOR_SUCCESS, Some pixels')) /\
  (exists output',
     smooth_mask_native (Some mask) (Some output) width height kernel_size
       (Some temp)
     = Ok (MASK_PROCESSOR_SUCCESS, Some output')) /\
  (exists output',
     Native.expand_mask_native (Some mask) (Some output) width height
       border_width
     = Ok (MASK_PROCESSOR_SUCCESS, Some output')).
Proof.
  intros Hv Hout Htmp Hbw Hsq Hk.
  assert (Hv' := Hv). destruct Hv' as (Hw & Hh & Hpx & Hmk & _).
  split; [|split].
  - destruct (composite_pixel_at pixels mask width height add_border border_color
                border_width expanded_mask Hv) as (pixels' & E & _).
    exists pixels'. exact E.
  - destruct (Z_le_gt_dec kernel_size 1) as [Hk1 | Hk1].
    + exists mask. unfold smooth_mask_native.
      destruct (Z.leb_spec width 0); [lia|]. destruct (Z.leb_spec height 0); [lia|].
      destruct (Z.leb_spec kernel_size 0); [lia|].
      destruct (Z.leb_spec kernel_size 1); [|lia]. cbn [orb].
      rewrite (memcpy_all output mask (width * height) Hout Hmk). reflexivity.
    + destruct (smooth_mask_native_run mask output width height kernel_size temp
                  Hw Hh ltac:(lia) Hmk Hout Htmp) as (temp' & output' & E & _).
      exists output'. exact E.
  - destruct (native_expand_mask_disk mask output width height border_width
                Hw Hh Hbw Hsq Hmk Hout) as (output' & E & _).
    exists output'. exact E.
Qed.

Lemma native_operations_in_bounds_witness :
  (exists pixels',
     apply_sticker_mask_native (Some [10; 20; 30; 40; 50; 60; 70; 80; 90; 100; 110; 120])
       (Some [0; 0.5; 1]%float) 1 3 1 {| r := 1; g := 2; b := 3 |} 4 None
     = Ok (MASK_PROCESSOR_SUCCESS, Some pixels')) /\
  (exists output',
     smooth_mask_native (Some [0; 0.5; 1]%float) (Some [0; 0; 0]%float) 1 3 5
       (Some [0; 0; 0]%float)
     = Ok (MASK_PROCESSOR_SUCCESS, Some output')) /\
  (exists output',
     Native.expand_mask_native (Some [0; 0.5; 1]%float) (Some [0; 0; 0]%float)
       1 3 4
     = Ok (MASK_PROCESSOR_SUCCESS, Some output')).
Proof.
  apply (native_operations_in_bounds
           [10; 20; 30; 40; 50; 60; 70; 80; 90; 100; 110; 120] [0; 0.5; 1]%float
           [0; 0; 0]%float [0; 0; 0]%float 1 3 1 {| r := 1; g := 2; b := 3 |} 4
           None 5); try lia; try reflexivity;
    try (unfold squares_in_range, INT_MAX; lia).
  repeat split; try lia; try reflexivity.
  - intros em [=].
  - repeat constructor.
Defined.

(** * Status codes *)

Ltac case_exec :=
  repeat match goal with
         | |- context [bind ?m _] =>
             let E := fresh "E" in destruct m eqn:E; cbn [bind]
         | |- context [match ?m with (_, _) => _ end] => destruct m
         end.

(** X1: [apply_sticker_mask_native] returns ERROR_INVALID_PARAMS, leaving
    the pixel buffer as it was, exactly when [pixels] or [mask] is null or
    a dimension is not positive; the buffers are not read in that case. *)
Theorem composite_invalid_params
    pixels mask width height add_border border_color border_width expanded_mask :
  apply_sticker_mask_native pixels mask width height add_border border_color
    border_width expanded_mask
  = Ok (MASK_PROCESSOR_ERROR_INVALID_PARAMS, pixels)
  <-> pixels = None \/ mask = None \/ width <= 0 \/ height <= 0.
Proof.
  unfold apply_sticker_mask_native.
  destruct pixels as [pixels|], mask as [mask|]; try (split; [auto | reflexivity]).
  destruct (Z.leb_spec width 0); [split; [auto | reflexivity]|].
  destruct (Z.leb_spec height 0); [split; [auto | reflexivity]|].
  cbn [orb]. split.
  - case_exec; discriminate.
  - intros [H1 | [H1 | [H1 | H1]]]; first [discriminate | lia].
Qed.

(** X2: [smooth_mask_native] returns ERROR_INVALID_PARAMS, leaving the
    output as it was, exactly when [mask] or [output] is null, a dimension
    is not positive or [kernel_size] is not positive; an even kernel size
    is not rejected. *)
Theorem smooth_invalid_params mask output width height kernel_size temp :
  smooth_mask_native mask output width height kernel_size temp
  = Ok (MASK_PROCESSOR_ERROR_INVALID_PARAMS, output)
  <-> mask = None \/ output = None \/ width <= 0 \/ height <= 0 \/ kernel_size <= 0.
Proof.
  unfold smooth_mask_native.
  destruct mask as [mask|], output as [output|]; try (split; [auto | reflexivity]).
  destruct (Z.leb_spec width 0); [split; [auto | reflexivity]|].
  destruct (Z.leb_spec height 0); [split; [intros _; auto 6 | reflexivity]|].
  destruct (Z.leb_spec kernel_size 0); [split; [intros _; auto 6 | reflexivity]|].
  cbn [orb]. split.
  - destruct (kernel_size <=? 1); [case_exec; discriminate|].
    destruct temp; [|discriminate]. case_exec; discriminate.
  - intros [H2 | [H2 | [H2 | [H2 | H2]]]]; first [discriminate | lia].
Qed.

(** X3: both variants of [expand_mask_native] return
    ERROR_INVALID_PARAMS, leaving the output as it was, exactly when
    [mask] or [output] is null, a dimension is not positive or
    [border_width] is negative. *)
Theorem expand_invalid_params mask output width height border_width temp :
  let invalid := mask = None \/ output = None \/ width <= 0 \/ height <= 0
                 \/ border_width < 0 in
  (Native.expand_mask_native mask output width height border_width
   = Ok (MASK_PROCESSOR_ERROR_INVALID_PARAMS, output) <-> invalid) /\
  (Ios.expand_mask_native mask output width height border_width temp
   = Ok (MASK_PROCESSOR_ERROR_INVALID_PARAMS, output) <-> invalid).
Proof.
  cbv zeta. unfold Native.expand_mask_native, Ios.expand_mask_native.
  destruct mask as [mask|], output as [output|];
    try (split; (split; [auto | reflexivity])).
  destruct (Z.leb_spec width 0); [split; (split; [auto | reflexivity])|].
  destruct (Z.leb_spec height 0); [split; (split; [intros _; auto 6 | reflexivity])|].
  destruct (Z.ltb_spec border_width 0); [split; (split; [intros _; auto 6 | reflexivity])|].
  cbn [orb].
  assert (~ (Some mask = None \/ Some output = None \/ width <= 0 \/ height <= 0
             \/ border_width < 0)) as Hv
    by (intros [H2 | [H2 | [H2 | [H2 | H2]]]]; first [discriminate | lia]).
  split; (split; [|intros H2; destruct (Hv H2)]).
  - case_exec; discriminate.
  - destruct (border_width =? 0); [case_exec; discriminate|].
    destruct (memset_zero output (width * height)); cbn [bind]; [|discriminate].
    destruct (border_width <=? 3); [case_exec; discriminate|].
    match goal with |- context [bind ?m _] => destruct m; cbn [bind] end;
      [|discriminate].
    destruct temp; [|discriminate]. case_exec; discriminate.
Qed.

(** X4: no function returns ERROR_PROCESSING; the compositor and
    [expand_mask_native] of [src/native] never return ERROR_MEMORY, and
    the smoother and [expand_mask_native] of [ios/Classes] return it only
    when the allocation fails. *)
Theorem status_codes
    pixels mask output width height add_border border_color border_width
    expanded_mask kernel_size temp :
  result_among [MASK_PROCESSOR_SUCCESS; MASK_PROCESSOR_ERROR_INVALID_PARAMS]
    (apply_sticker_mask_native pixels mask width height add_border border_color
       border_width expanded_mask) /\
  result_among [MASK_PROCESSOR_SUCCESS; MASK_PROCESSOR_ERROR_INVALID_PARAMS]
    (Native.expand_mask_native mask output width height border_width) /\
  result_among [MASK_PROCESSOR_SUCCESS; MASK_PROCESSOR_ERROR_INVALID_PARAMS]
    (smooth_mask_native mask output width height kernel_size (Some temp)) /\
  result_among [MASK_PROCESSOR_SUCCESS; MASK_PROCESSOR_ERROR_INVALID_PARAMS]
    (Ios.expand_mask_native mask output width height border_width (Some temp)) /\
  result_among [MASK_PROCESSOR_SUCCESS; MASK_PROCESSOR_ERROR_INVALID_PARAMS;
                MASK_PROCESSOR_ERROR_MEMORY]
    (smooth_mask_native mask output width height kernel_size None) /\
  result_among [MASK_PROCESSOR_SUCCESS; MASK_PROCESSOR_ERROR_INVALID_PARAMS;
                MASK_PROCESSOR_ERROR_MEMORY]
    (Ios.expand_mask_native mask output width height border_width None).
Proof.
  unfold apply_sticker_mask_native, Native.expand_mask_native, smooth_mask_native,
    Ios.expand_mask_native.
  repeat split.
  - destruct pixels, mask; try (cbn; tauto).
    destruct (_ || _); [cbn; tauto|]. case_exec; cbn; tauto.
  - destruct mask, output; try (cbn; tauto).
    destruct (_ || _); [cbn; tauto|]. case_exec; cbn; tauto.
  - destruct mask, output; try (cbn; tauto).
    destruct (_ || _); [cbn; tauto|].
    destruct (kernel_size <=? 1); case_exec; cbn; tauto.
  - destruct mask, output; try (cbn; tauto).
    destruct (_ || _); [cbn; tauto|].
    destruct (border_width =? 0); [case_exec; cbn; tauto|].
    destruct (memset_zero _ _); cbn [bind]; [|exact I].
    destruct (border_width <=? 3); case_exec; cbn; tauto.
  - destruct mask, output; try (cbn; tauto).
    destruct (_ || _); [cbn; tauto|].
    destruct (kernel_size <=? 1); case_exec; cbn; tauto.
  - destruct mask, output; try (cbn; tauto).
    destruct (_ || _); [cbn; tauto|].
    destruct (border_width =? 0); [case_exec; cbn; tauto|].
    destruct (memset_zero _ _); cbn [bind]; [|exact I].
    destruct (border_width <=? 3); case_exec; cbn; tauto.
Qed.

(** * Kernel sizes of the smoother *)

(** X5: with [kernel_size = 1] the smoother copies the mask to the
    output unchanged and succeeds whether or not memory could be
    allocated: no scratch buffer is requested. *)
Theorem smooth_kernel_1_copies mask output width height temp :
  0 < width -> 0 < height ->
  sized mask (width * height) -> sized output (width * height) ->
  smooth_mask_native (Some mask) (Some output) width height 1 temp
  = Ok (MASK_PROCESSOR_SUCCESS, Some mask).
Proof.
  intros Hw Hh Hmk Hout. unfold smooth_mask_native.
  destruct (Z.leb_spec width 0); [lia|]. destruct (Z.leb_spec height 0); [lia|].
  cbn [orb Z.leb Z.compare].
  rewrite (memcpy_all output mask (width * height) Hout Hmk). reflexivity.
Qed.

Lemma smooth_kernel_1_copies_witness :
  smooth_mask_native (Some [1; 0; 0.25; 0]%float) (Some [0; 0; 0; 0]%float) 2 2 1
    None
  = Ok (MASK_PROCESSOR_SUCCESS, Some [1; 0; 0.25; 0]%float).
Proof.
  apply (smooth_kernel_1_copies [1; 0; 0.25; 0]%float [0; 0; 0; 0]%float 2 2
           None); try lia; reflexivity.
Defined.

(** X6: an even [kernel_size] behaves as the next odd one, the window
    being [2 * (kernel_size / 2) + 1] cells wide. *)
Theorem smooth_even_kernel mask output width height kernel_size temp :
  2 <= kernel_size -> Z.even kernel_size = true ->
  smooth_mask_native mask output width height kernel_size temp
  = smooth_mask_native mask output width height (kernel_size + 1) temp.
Proof.
  intros Hk He. unfold smooth_mask_native.
  destruct mask as [mask|]; [|reflexivity]. destruct output as [output|]; [|reflexivity].
  destruct (Z.leb_spec kernel_size 0); [lia|].
  destruct (Z.leb_spec (kernel_size + 1) 0); [lia|].
  destruct (Z.leb_spec kernel_size 1); [lia|].
  destruct (Z.leb_spec (kernel_size + 1) 1); [lia|].
  assert (Z.quot (kernel_size + 1) 2 = Z.quot kernel_size 2) as ->; [|reflexivity].
  apply Z.even_spec in He. destruct He as [q ->].
  rewrite Z.mul_comm, Z.quot_mul by lia.
  symmetry. apply Z.quot_unique with (r := 1); lia.
Qed.

Lemma smooth_even_kernel_witness :
  smooth_mask_native (Some [1; 0; 0; 0]%float) (Some [0; 0; 0; 0]%float) 2 2 2
    (Some [0; 0; 0; 0]%float)
  = smooth_mask_native (Some [1; 0; 0; 0]%float) (Some [0; 0; 0; 0]%float) 2 2
      (2 + 1) (Some [0; 0; 0; 0]%float).
Proof.
  apply (smooth_even_kernel (Some [1; 0; 0; 0]%float) (Some [0; 0; 0; 0]%float)
           2 2 2 (Some [0; 0; 0; 0]%float)); [lia | reflexivity].
Defined.

Lemma in_bounds_window_all c n half :
  0 <= c < n -> n - 1 <= half -> in_bounds_window c n half = seqZ 0 n.
Proof.
  intros Hc Hh. unfold in_bounds_window. f_equal; lia.
Qed.

(** X7: once the window reaches across the whole grid
    ([kernel_size >= 2 * max width height - 2]) every output cell holds
    the same value: the mean, over the rows, of the means of the rows. *)
Theorem smooth_saturated_kernel mask output width height kernel_size temp :
  0 < width -> 0 < height ->
  sized mask (width * height) -> sized output (width * height) ->
  sized temp (width * height) ->
  2 <= kernel_size -> 2 * Z.max width height - 2 <= kernel_size ->
  exists output',
    smooth_mask_native (Some mask) (Some output) width height kernel_size
      (Some temp)
    = Ok (MASK_PROCESSOR_SUCCESS, Some output') /\
    forall x y, in_grid width height x y ->
      output' !! Z.to_nat (y * width + x)
      = Some (mean ((fun ny =>
                       mean ((fun nx => cell mask (ny * width + nx))
                               <$> seqZ 0 width))
                      <$> seqZ 0 height)).
Proof.
  intros Hw Hh Hmk Hout Htmp Hk Hsat.
  destruct (smooth_mask_native_run mask output width height kernel_size temp
              Hw Hh ltac:(lia) Hmk Hout Htmp) as (temp' & output' & E & _ & H1 & H2).
  exists output'. split; [exact E|]. intros x y Hg.
  assert (Z.max width height - 1 <= Z.quot kernel_size 2) as Hhalf.
  { apply Z.quot_le_lower_bound; lia. }
  rewrite (H2 x y Hg). f_equal. unfold vertical_mean.
  destruct Hg as [Hx Hy].
  rewrite in_bounds_window_all by lia. f_equal.
  apply Forall_fmap_ext_1. apply Forall_seqZ. intros ny Hny.
  rewrite (cell_lookup temp' _ _ (H1 x ny ltac:(unfold in_grid; lia))).
  unfold horizontal_mean. rewrite in_bounds_window_all by lia. reflexivity.
Qed.

Lemma smooth_saturated_kernel_witness :
  exists output',
    smooth_mask_native (Some [1; 0; 0; 0]%float) (Some [0; 0; 0; 0]%float) 2 2 3
      (Some [0; 0; 0; 0]%float)
    = Ok (MASK_PROCESSOR_SUCCESS, Some output') /\
    forall x y, in_grid 2 2 x y ->
      output' !! Z.to_nat (y * 2 + x)
      = Some (mean ((fun ny =>
                       mean ((fun nx => cell [1; 0; 0; 0]%float (ny * 2 + nx))
                               <$> seqZ 0 2))
                      <$> seqZ 0 2)).
Proof.
  apply (smooth_saturated_kernel [1; 0; 0; 0]%float [0; 0; 0; 0]%float 2 2 3
           [0; 0; 0; 0]%float); try lia; reflexivity.
Defined.

(** * Further properties of the compositor *)

(** Two pixel buffers of a [width] x [height] image that agree on the four
    bytes of every pixel are equal. *)
Lemma pixels_ext (px1 px2 : list Z) n :
  0 <= n -> sized px1 (n * 4) -> sized px2 (n * 4) ->
  (forall i k, 0 <= i < n -> 0 <= k < 4 ->
     px1 !! Z.to_nat (i * 4 + k) = px2 !! Z.to_nat (i * 4 + k)) ->
  px1 = px2.
Proof.
  unfold sized. intros Hn H1 H2 H. apply list_eq. intros j.
  destruct (Z_lt_ge_dec (Z.of_nat j) (n * 4)) as [Hj | Hj].
  - specialize (H (Z.of_nat j / 4) (Z.of_nat j mod 4)).
    pose proof (Z.div_mod (Z.of_nat j) 4 ltac:(lia)) as Hdm.
    pose proof (Z.mod_pos_bound (Z.of_nat j) 4 ltac:(lia)) as Hm.
    replace (Z.to_nat (Z.of_nat j / 4 * 4 + Z.of_nat j mod 4)) with j in H by lia.
    apply H; [|exact Hm].
    split; [apply Z.div_pos; lia | apply Z.div_lt_upper_bound; lia].
  - rewrite !lookup_ge_None_2 by lia. reflexivity.
Qed.

Lemma composite_byte_idem add_border border_color m e k old :
  composite_byte add_border border_color m e k
    (composite_byte add_border border_color m e k old)
  = composite_byte add_border border_color m e k old.
Proof.
  unfold composite_byte.
  destruct (classify add_border m e); zeqb; try reflexivity.
  destruct (round (transition_value m)); reflexivity.
Qed.

Lemma valid_composite_call_sized pixels mask width height expanded_mask pixels' :
  valid_composite_call pixels mask width height expanded_mask ->
  length pixels' = length pixels ->
  valid_composite_call pixels' mask width height expanded_mask.
Proof.
  intros (Hw & Hh & Hpx & Hrest) Hlen. repeat split; try tauto.
  unfold sized in *. lia.
Qed.

(** X8: compositing is idempotent: applying [apply_sticker_mask_native]
    to its own result, with the same mask and arguments, changes
    nothing. *)
Theorem composite_idempotent
    pixels mask width height add_border border_color border_width expanded_mask :
  valid_composite_call pixels mask width height expanded_mask ->
  exists pixels',
    apply_sticker_mask_native (Some pixels) (Some mask) width height add_border
      border_color border_width expanded_mask
    = Ok (MASK_PROCESSOR_SUCCESS, Some pixels') /\
    apply_sticker_mask_native (Some pixels') (Some mask) width height add_border
      border_color border_width expanded_mask
    = Ok (MASK_PROCESSOR_SUCCESS, Some pixels').
Proof.
  intros Hv.
  destruct (composite_pixel_at pixels mask width height add_border border_color
              border_width expanded_mask Hv) as (pixels' & E & Hlen & Hrun).
  exists pixels'. split; [exact E|].
  pose proof (valid_composite_call_sized _ _ _ _ _ _ Hv Hlen) as Hv'.
  destruct (composite_pixel_at pixels' mask width height add_border border_color
              border_width expanded_mask Hv') as (pixels'' & E' & Hlen' & Hrun').
  rewrite E'. do 3 f_equal.
  destruct Hv as (Hw & Hh & Hpx & Hmk & _). unfold sized in *.
  apply (pixels_ext _ _ (width * height)); unfold sized; try lia.
  intros i k Hi Hk.
  assert (exists m, mask !! Z.to_nat i = Some m) as (m & Em)
    by (apply lookup_lt_is_Some; lia).
  destruct (Hrun i m Hi Em) as (e & Ee & Hb).
  destruct (Hrun' i m Hi Em) as (e' & Ee' & Hb').
  rewrite Ee in Ee'. injection Ee' as <-.
  destruct (Hb k Hk) as (old & _ & Eo).
  destruct (Hb' k Hk) as (old' & Eo' & ->).
  rewrite Eo in Eo'. injection Eo' as <-. rewrite Eo.
  f_equal. apply composite_byte_idem.
Qed.

Lemma composite_idempotent_witness :
  exists pixels',
    apply_sticker_mask_native (Some [10; 20; 30; 40; 50; 60; 70; 80])
      (Some [0.25; 0.5]%float) 2 1 1 {| r := 1; g := 2; b := 3 |} 2
      (Some [1; 1]%float)
    = Ok (MASK_PROCESSOR_SUCCESS, Some pixels') /\
    apply_sticker_mask_native (Some pixels') (Some [0.25; 0.5]%float) 2 1 1
      {| r := 1; g := 2; b := 3 |} 2 (Some [1; 1]%float)
    = Ok (MASK_PROCESSOR_SUCCESS, Some pixels').
Proof.
  apply (composite_idempotent [10; 20; 30; 40; 50; 60; 70; 80]
           [0.25; 0.5]%float 2 1 1 {| r := 1; g := 2; b := 3 |} 2
           (Some [1; 1]%float)).
  repeat split; try lia; try reflexivity.
  - intros em [= <-]. reflexivity.
  - repeat constructor.
Defined.

Lemma composite_byte_no_border border_color border_color' m e e' k old :
  composite_byte 0 border_color m e k old
  = composite_byte 0 border_color' m e' k old.
Proof.
  unfold composite_byte, classify. cbn [Z.eqb negb andb].
  destruct (THRESHOLD_HIGH <? m)%float; [reflexivity|].
  destruct (m <? THRESHOLD_LOW)%float; reflexivity.
Qed.

(** X9: with [add_border = 0] the result does not depend on the border
    colour, on [border_width] or on the expanded mask. *)
Theorem no_border_ignores_border_arguments
    pixels mask width height border_color border_color' border_width
    border_width' expanded_mask expanded_mask' :
  valid_composite_call pixels mask width height expanded_mask ->
  valid_composite_call pixels mask width height expanded_mask' ->
  apply_sticker_mask_native (Some pixels) (Some mask) width height 0
    border_color border_width expanded_mask
  = apply_sticker_mask_native (Some pixels) (Some mask) width height 0
      border_color' border_width' expanded_mask'.
Proof.
  intros Hv Hv'.
  destruct (composite_pixel_at pixels mask width height 0 border_color
              border_width expanded_mask Hv) as (px1 & -> & Hlen1 & Hrun1).
  destruct (composite_pixel_at pixels mask width height 0 border_color'
              border_width' expanded_mask' Hv') as (px2 & -> & Hlen2 & Hrun2).
  do 3 f_equal.
  destruct Hv as (Hw & Hh & Hpx & Hmk & _). unfold sized in *.
  apply (pixels_ext _ _ (width * height)); unfold sized; try lia.
  intros i k Hi Hk.
  assert (exists m, mask !! Z.to_nat i = Some m) as (m & Em)
    by (apply lookup_lt_is_Some; lia).
  destruct (Hrun1 i m Hi Em) as (e1 & _ & Hb1).
  destruct (Hrun2 i m Hi Em) as (e2 & _ & Hb2).
  destruct (Hb1 k Hk) as (old & Eo & ->).
  destruct (Hb2 k Hk) as (old' & Eo' & ->).
  rewrite Eo in Eo'. injection Eo' as <-.
  f_equal. apply composite_byte_no_border.
Qed.

Lemma no_border_ignores_border_arguments_witness :
  apply_sticker_mask_native (Some [10; 20; 30; 40; 50; 60; 70; 80])
    (Some [0.25; 0.5]%float) 2 1 0 {| r := 1; g := 2; b := 3 |} 2
    (Some [1; 1]%float)
  = apply_sticker_mask_native (Some [10; 20; 30; 40; 50; 60; 70; 80])
      (Some [0.25; 0.5]%float) 2 1 0 {| r := 9; g := 8; b := 7 |} 5 None.
Proof.
  apply (no_border_ignores_border_arguments [10; 20; 30; 40; 50; 60; 70; 80]
           [0.25; 0.5]%float 2 1 {| r := 1; g := 2; b := 3 |}
           {| r := 9; g := 8; b := 7 |} 2 5 (Some [1; 1]%float) None).
  - repeat split; try lia; try reflexivity.
    + intros em [= <-]. reflexivity.
    + repeat constructor.
  - repeat split; try lia; try reflexivity.
    + intros em [=].
    + repeat constructor.
Defined.

Lemma composite_byte_is_byte add_border border_color m e k old :
  is_byte (r border_color) -> is_byte (g border_color) -> is_byte (b border_color) ->
  is_byte old -> is_byte (composite_byte add_border border_color m e k old).
Proof.
  unfold is_byte, composite_byte. intros Hr Hg Hb Ho.
  destruct (classify add_border m e); zeqb; try lia.
  destruct (round (transition_value m)); [|lia].
  rewrite uint8_t_clamp. apply clamp_int_range.
Qed.

(** X10: the compositor stores only values of a [uint8_t]: when the
    input bytes and the border colour lie in 0..255, so does every byte
    of the result, and the buffer keeps its length. *)
Theorem composite_keeps_bytes
    pixels mask width height add_border border_color border_width expanded_mask :
  valid_composite_call pixels mask width height expanded_mask ->
  is_byte (r border_color) -> is_byte (g border_color) -> is_byte (b border_color) ->
  Forall is_byte pixels ->
  exists pixels',
    apply_sticker_mask_native (Some pixels) (Some mask) width height add_border
      border_color border_width expanded_mask
    = Ok (MASK_PROCESSOR_SUCCESS, Some pixels') /\
    length pixels' = length pixels /\ Forall is_byte pixels'.
Proof.
  intros Hv Hr Hg Hb Hpix.
  destruct (composite_pixel_at pixels mask width height add_border border_color
              border_width expanded_mask Hv) as (pixels' & E & Hlen & Hrun).
  exists pixels'. split; [exact E|]. split; [exact Hlen|].
  destruct Hv as (Hw & Hh & Hpx & Hmk & _). unfold sized in *.
  apply Forall_lookup_2. intros j z Ej.
  pose proof (lookup_lt_Some _ _ _ Ej) as Hj.
  pose proof (Z.div_mod (Z.of_nat j) 4 ltac:(lia)) as Hdm.
  pose proof (Z.mod_pos_bound (Z.of_nat j) 4 ltac:(lia)) as Hm.
  assert (0 <= Z.of_nat j / 4 < width * height) as Hi
    by (split; [apply Z.div_pos; lia | apply Z.div_lt_upper_bound; lia]).
  assert (exists m, mask !! Z.to_nat (Z.of_nat j / 4) = Some m) as (m & Em)
    by (apply lookup_lt_is_Some; lia).
  destruct (Hrun _ m Hi Em) as (e & _ & Hbyte).
  destruct (Hbyte _ Hm) as (old & Eo & Ez).
  replace (Z.to_nat (Z.of_nat j / 4 * 4 + Z.of_nat j mod 4)) with j in * by lia.
  rewrite Ej in Ez. injection Ez as ->.
  apply composite_byte_is_byte; try assumption.
  exact (Forall_lookup_1 _ _ _ _ Hpix Eo).
Qed.

Lemma composite_keeps_bytes_witness :
  exists pixels',
    apply_sticker_mask_native (Some [10; 20; 30; 40; 50; 60; 70; 80])
      (Some [0.25; 0.5]%float) 2 1 1 {| r := 1; g := 2; b := 3 |} 2
      (Some [1; 1]%float)
    = Ok (MASK_PROCESSOR_SUCCESS, Some pixels') /\
    length pixels' = length [10; 20; 30; 40; 50; 60; 70; 80] /\
    Forall is_byte pixels'.
Proof.
  apply (composite_keeps_bytes [10; 20; 30; 40; 50; 60; 70; 80]
           [0.25; 0.5]%float 2 1 1 {| r := 1; g := 2; b := 3 |} 2
           (Some [1; 1]%float)).
  - repeat split; try lia; try reflexivity.
    + intros em [= <-]. reflexivity.
    + repeat constructor.
  - unfold is_byte; cbn; lia.
  - unfold is_byte; cbn; lia.
  - unfold is_byte; cbn; lia.
  - repeat constructor; unfold is_byte; lia.
Defined.

(** A loop whose iterations keep [I] or stop with the fault [f], and one
    of whose iterations always stops, stops with [f]. *)
Lemma for_loop_fault {S : Type} (I : S -> Prop) (body : Z -> S -> exec S) f n :
  forall lo s,
    I s ->
    (forall i s, lo <= i < lo + Z.of_nat n -> I s ->
                 body i s = Fault f \/ exists s', body i s = Ok s' /\ I s') ->
    (exists i, lo <= i < lo + Z.of_nat n /\ forall s, I s -> body i s = Fault f) ->
    for_loop n lo body s = Fault f.
Proof.
  induction n as [| n IH]; intros lo s H0 Hstep (i & Hi & Hf); [lia|].
  cbn [for_loop].
  destruct (Hstep lo s ltac:(lia) H0) as [-> | (s' & E & H1)]; [reflexivity|].
  rewrite E. cbn [bind]. apply IH.
  - exact H1.
  - intros j t Hj. apply Hstep. lia.
  - exists i. split; [|exact Hf].
    assert (i <> lo) by (intros ->; rewrite (Hf s H0) in E; discriminate). lia.
Qed.

Lemma is_nan_true m : is_nan m = true -> m = nan.
Proof.
  intros H. apply Prim2SF_inj.
  destruct (non_nan (Prim2SF m)) eqn:E.
  - rewrite (non_nan_is_nan m E) in H. discriminate.
  - destruct (Prim2SF m); try discriminate. reflexivity.
Qed.

Lemma nan_or_not (l : list float) :
  Forall (fun m => is_nan m = false) l \/ Exists (fun m => is_nan m = true) l.
Proof.
  induction l as [| m l [IH | IH]].
  - left. constructor.
  - destruct (is_nan m) eqn:E.
    + right. left. exact E.
    + left. constructor; assumption.
  - right. right. exact IH.
Qed.

(** X11: on buffers of the right sizes the compositor leaves defined
    behaviour exactly when the mask holds a NaN: a NaN fails both
    threshold tests, reaches the transition branch, and [round] of it is
    converted to [int]. *)
Theorem composite_nan_is_undefined
    pixels mask width height add_border border_color border_width expanded_mask :
  0 < width -> 0 < height ->
  sized pixels (width * height * 4) -> sized mask (width * height) ->
  (forall em, expanded_mask = Some em -> sized em (width * height)) ->
  apply_sticker_mask_native (Some pixels) (Some mask) width height add_border
    border_color border_width expanded_mask
  = Fault UndefinedConversion
  <-> Exists (fun m => is_nan m = true) mask.
Proof.
  intros Hw Hh Hpx Hmk Hem. split.
  - intros E. destruct (nan_or_not mask) as [Hn | Hn]; [|exact Hn].
    destruct (apply_sticker_mask_native_run pixels mask width height add_border
                border_color border_width expanded_mask Hw Hh Hpx Hmk Hem Hn)
      as (px' & E' & _).
    rewrite E' in E. discriminate.
  - intros Hn. apply Exists_exists in Hn as (m0 & Hin & Hm0).
    apply list_elem_of_lookup_1 in Hin as (n0 & En0).
    pose proof (lookup_lt_Some _ _ _ En0) as Hn0.
    unfold sized in *. unfold apply_sticker_mask_native.
    destruct (Z.leb_spec width 0) as [|_]; [lia|].
    destruct (Z.leb_spec height 0) as [|_]; [lia|]. cbn [orb]. cbv zeta.
    match goal with
    | |- bind (for_range 0 _ ?body pixels) _ = _ =>
        assert (for_range 0 (width * height) body pixels
                = Fault UndefinedConversion) as ->; [|reflexivity];
        unfold for_range;
        apply (for_loop_fault (fun px => length px = length pixels) body)
    end.
    + reflexivity.
    + intros i px Hi Hlen. cbv beta.
      destruct (load_ok mask i ltac:(lia)) as (m & -> & Em). cbn [bind].
      assert (exists e, match expanded_mask with
                        | Some em => load em i
                        | None => Ok m
                        end = Ok e) as (e & ->).
      { destruct expanded_mask as [em|]; [|eauto].
        specialize (Hem em eq_refl).
        destruct (load_ok em i ltac:(lia)) as (e & -> & _). eauto. }
      cbn [bind].
      assert (forall (px1 : list Z) k v, length px1 = length pixels -> 0 <= k < 4 ->
                store px1 (i * 4 + k) v = Ok (<[Z.to_nat (i * 4 + k) := v]> px1))
        as Hst by (intros; apply store_ok; lia).
      destruct (THRESHOLD_HIGH <? m)%float eqn:Chi.
      { right. rewrite Hst by (try assumption; lia). eexists. split; [reflexivity|].
        rewrite length_insert. exact Hlen. }
      destruct (m <? THRESHOLD_LOW)%float eqn:Clo.
      { right. destruct (negb (add_border =? 0) && (THRESHOLD <? e)%float).
        - rewrite store_ok by lia. cbn [bind].
          rewrite store_ok by (rewrite ?length_insert; lia). cbn [bind].
          rewrite store_ok by (rewrite ?length_insert; lia). cbn [bind].
          rewrite store_ok by (rewrite ?length_insert; lia).
          eexists. split; [reflexivity|]. rewrite !length_insert. exact Hlen.
        - rewrite Hst by (try assumption; lia). eexists. split; [reflexivity|].
          rewrite length_insert. exact Hlen. }
      destruct (is_nan m) eqn:Hnan.
      { left. apply is_nan_true in Hnan. subst m. reflexivity. }
      right.
      destruct (transition_round_range m ltac:(repeat split; assumption))
        as (z & Ez & Hz).
      change ((m - THRESHOLD_LOW) / THRESHOLD_RANGE * 255.0)%float
        with (transition_value m).
      rewrite Ez. cbn [int_of_double].
      replace ((INT_MIN <=? z) && (z <=? INT_MAX)) with true
        by (symmetry; apply andb_true_iff; unfold INT_MIN, INT_MAX; split;
            apply Z.leb_le; lia).
      cbn [bind]. rewrite Hst by (try assumption; lia).
      eexists. split; [reflexivity|]. rewrite length_insert. exact Hlen.
    + exists (Z.of_nat n0). split; [lia|]. intros px Hlen. cbv beta.
      rewrite (load_lookup mask (Z.of_nat n0) m0 ltac:(lia)
                 ltac:(rewrite Nat2Z.id; exact En0)).
      cbn [bind]. apply is_nan_true in Hm0. subst m0.
      assert (exists e, match expanded_mask with
                        | Some em => load em (Z.of_nat n0)
                        | None => Ok nan
                        end = Ok e) as (e & ->).
      { destruct expanded_mask as [em|]; [|eauto].
        specialize (Hem em eq_refl).
        destruct (load_ok em (Z.of_nat n0) ltac:(lia)) as (e & -> & _). eauto. }
      reflexivity.
Qed.

Lemma composite_nan_is_undefined_witness :
  apply_sticker_mask_native (Some [10; 20; 30; 40; 50; 60; 70; 80])
    (Some [0.25; nan]%float) 2 1 1 {| r := 1; g := 2; b := 3 |} 2 None
  = Fault UndefinedConversion
  <-> Exists (fun m => is_nan m = true) [0.25; nan]%float.
Proof.
  apply (composite_nan_is_undefined [10; 20; 30; 40; 50; 60; 70; 80]
           [0.25; nan]%float 2 1 1 {| r := 1; g := 2; b := 3 |} 2 None);
    try lia; try reflexivity.
  intros em [=].
Defined.

Lemma composite_alpha_old add_border border_color m e old old' :
  is_nan m = false ->
  composite_byte add_border border_color m e 3 old
  = composite_byte add_border border_color m e 3 old'.
Proof.
  intros Hn.
  pose proof (composite_alpha_cases add_border border_color m e old Hn) as C.
  pose proof (composite_alpha_cases add_border border_color m e old' Hn) as C'.
  destruct (classify add_border m e).
  - destruct C as [_ ->], C' as [_ ->]. reflexivity.
  - destruct C as [_ ->], C' as [_ ->]. reflexivity.
  - destruct C as [_ ->], C' as [_ ->]. reflexivity.
  - destruct C as (_ & z & Ez & _ & -> & _), C' as (_ & z' & Ez' & _ & -> & _).
    rewrite Ez in Ez'. injection Ez' as <-. reflexivity.
Qed.

(** X12: the alpha written for a pixel is a function of the masks alone:
    two images composited with the same mask and arguments get the same
    alpha channel, whatever alpha they had. *)
Theorem composite_alpha_from_mask
    pixels pixels2 mask width height add_border border_color border_width
    expanded_mask :
  valid_composite_call pixels mask width height expanded_mask ->
  valid_composite_call pixels2 mask width height expanded_mask ->
  exists pixels' pixels2',
    apply_sticker_mask_native (Some pixels) (Some mask) width height add_border
      border_color border_width expanded_mask
    = Ok (MASK_PROCESSOR_SUCCESS, Some pixels') /\
    apply_sticker_mask_native (Some pixels2) (Some mask) width height add_border
      border_color border_width expanded_mask
    = Ok (MASK_PROCESSOR_SUCCESS, Some pixels2') /\
    forall i, 0 <= i < width * height ->
      pixels' !! Z.to_nat (i * 4 + 3) = pixels2' !! Z.to_nat (i * 4 + 3).
Proof.
  intros Hv Hv2.
  destruct (composite_pixel_at pixels mask width height add_border border_color
              border_width expanded_mask Hv) as (px & E & _ & Hrun).
  destruct (composite_pixel_at pixels2 mask width height add_border border_color
              border_width expanded_mask Hv2) as (px2 & E2 & _ & Hrun2).
  exists px, px2. split; [exact E|]. split; [exact E2|]. intros i Hi.
  destruct Hv as (Hw & Hh & Hpx & Hmk & _ & Hnan). unfold sized in Hmk.
  assert (exists m, mask !! Z.to_nat i = Some m) as (m & Em)
    by (apply lookup_lt_is_Some; lia).
  destruct (Hrun i m Hi Em) as (e & Ee & Hb).
  destruct (Hrun2 i m Hi Em) as (e2 & Ee2 & Hb2).
  rewrite Ee in Ee2. injection Ee2 as <-.
  destruct (Hb 3 ltac:(lia)) as (old & _ & ->).
  destruct (Hb2 3 ltac:(lia)) as (old2 & _ & ->).
  f_equal. apply composite_alpha_old.
  exact (Forall_lookup_1 _ _ _ _ Hnan Em).
Qed.

Lemma composite_alpha_from_mask_witness :
  exists pixels' pixels2',
    apply_sticker_mask_native (Some [10; 20; 30; 40; 50; 60; 70; 80])
      (Some [0.25; 0.5]%float) 2 1 1 {| r := 1; g := 2; b := 3 |} 2
      (Some [1; 1]%float)
    = Ok (MASK_PROCESSOR_SUCCESS, Some pixels') /\
    apply_sticker_mask_native (Some [0; 0; 0; 0; 255; 255; 255; 255])
      (Some [0.25; 0.5]%float) 2 1 1 {| r := 1; g := 2; b := 3 |} 2
      (Some [1; 1]%float)
    = Ok (MASK_PROCESSOR_SUCCESS, Some pixels2') /\
    forall i, 0 <= i < 2 * 1 ->
      pixels' !! Z.to_nat (i * 4 + 3) = pixels2' !! Z.to_nat (i * 4 + 3).
Proof.
  apply (composite_alpha_from_mask [10; 20; 30; 40; 50; 60; 70; 80]
           [0; 0; 0; 0; 255; 255; 255; 255] [0.25; 0.5]%float 2 1 1
           {| r := 1; g := 2; b := 3 |} 2 (Some [1; 1]%float)).
  - repeat split; try lia; try reflexivity.
    + intros em [= <-]. reflexivity.
    + repeat constructor.
  - repeat split; try lia; try reflexivity.
    + intros em [= <-]. reflexivity.
    + repeat constructor.
Defined.

(** * The border pipeline and the algebra of expansion *)

Lemma painted_foreground (S : Z -> Z -> Prop) width height out x y :
  painted S width height out -> in_grid width height x y ->
  foreground_at out width x y <-> S x y.
Proof.
  intros [_ Hp] Hg. unfold foreground_at.
  destruct (Hp x y Hg) as [[H1 H2] | [H1 H2]]; rewrite H2; split.
  - intros _. exact H1.
  - intros _. exists 1%float. split; reflexivity.
  - intros (v & [= <-] & Hv). vm_compute in Hv. discriminate.
  - intros H. contradiction.
Qed.

Lemma painted_sized (S : Z -> Z -> Prop) width height out :
  painted S width height out -> sized out (width * height).
Proof. intros [H _]. exact H. Qed.

(** X13: the border pipeline, [expand_mask_native] of [src/native]
    followed by [apply_sticker_mask_native] with its output as expanded
    mask: a pixel whose mask value is below 0.45 gets the border colour
    and alpha 255 when a foreground cell lies within Euclidean distance
    [border_width] of it, and alpha 0 with its R, G, B kept otherwise;
    for every radius whose squares stay in the range of [int]. *)
Theorem border_is_expansion_ring
    pixels mask output width height add_border border_color border_width :
  valid_composite_call pixels mask width height None ->
  sized output (width * height) -> 0 <= border_width ->
  squares_in_range width height border_width -> add_border <> 0 ->
  exists expanded pixels',
    Native.expand_mask_native (Some mask) (Some output) width height border_width
    = Ok (MASK_PROCESSOR_SUCCESS, Some expanded) /\
    apply_sticker_mask_native (Some pixels) (Some mask) width height add_border
      border_color border_width (Some expanded)
    = Ok (MASK_PROCESSOR_SUCCESS, Some pixels') /\
    forall x y m,
      in_grid width height x y ->
      mask !! Z.to_nat (y * width + x) = Some m -> (m <? 0.45)%float = true ->
      (covered mask width height border_width x y ->
       pixels' !! Z.to_nat ((y * width + x) * 4) = Some (r border_color) /\
       pixels' !! Z.to_nat ((y * width + x) * 4 + 1) = Some (g border_color) /\
       pixels' !! Z.to_nat ((y * width + x) * 4 + 2) = Some (b border_color) /\
       pixels' !! Z.to_nat ((y * width + x) * 4 + 3) = Some 255) /\
      (~ covered mask width height border_width x y ->
       pixels' !! Z.to_nat ((y * width + x) * 4 + 3) = Some 0 /\
       forall k, 0 <= k < 3 ->
         pixels' !! Z.to_nat ((y * width + x) * 4 + k)
         = pixels !! Z.to_nat ((y * width + x) * 4 + k)).
Proof.
  intros Hv Hout Hbw Hsq Hab.
  assert (Hv' := Hv). destruct Hv' as (Hw & Hh & Hpx & Hmk & _ & Hnan).
  destruct (native_expand_mask_disk mask output width height border_width
              Hw Hh Hbw Hsq Hmk Hout) as (expanded & E & HP).
  assert (valid_composite_call pixels mask width height (Some expanded)) as Hv2.
  { repeat split; try assumption. intros em [= <-]. exact (painted_sized _ _ _ _ HP). }
  destruct (composite_pixel_at pixels mask width height add_border border_color
              border_width (Some expanded) Hv2) as (pixels' & E' & _ & Hrun).
  exists expanded, pixels'. split; [exact E|]. split; [exact E'|].
  intros x y m Hg Em Hm.
  pose proof (cell_index_range _ _ _ _ Hg) as Hi.
  destruct (Hrun _ m Hi Em) as (e & Ee & Hk). cbn [expanded_value] in Ee.
  change 0.45%float with THRESHOLD_LOW in Hm.
  pose proof (below_LOW_not_above_HIGH m Hm) as Hhi.
  destruct (painted_iff _ _ _ _ _ _ HP Hg) as [H1 H0].
  assert (negb (add_border =? 0) = true) as Hab'
    by (destruct (Z.eqb_spec add_border 0); [contradiction | reflexivity]).
  split.
  - intros Hc. apply H1 in Hc. rewrite Ee in Hc. injection Hc as ->.
    assert (forall k old, composite_byte add_border border_color m 1 k old
                          = if k =? 0 then r border_color
                            else if k =? 1 then g border_color
                            else if k =? 2 then b border_color else 255) as Hb
      by (intros; unfold composite_byte, classify; rewrite Hhi, Hm, Hab'; reflexivity).
    replace ((y * width + x) * 4) with ((y * width + x) * 4 + 0) at 1 by lia.
    destruct (Hk 0 ltac:(lia)) as (o0 & _ & ->).
    destruct (Hk 1 ltac:(lia)) as (o1 & _ & ->).
    destruct (Hk 2 ltac:(lia)) as (o2 & _ & ->).
    destruct (Hk 3 ltac:(lia)) as (o3 & _ & ->).
    rewrite !Hb. repeat split; reflexivity.
  - intros Hc. apply H0 in Hc. rewrite Ee in Hc. injection Hc as ->.
    assert (forall k old, composite_byte add_border border_color m 0 k old
                          = if k =? 3 then 0 else old) as Hb
      by (intros; unfold composite_byte, classify; rewrite Hhi, Hm, Hab'; reflexivity).
    split.
    + destruct (Hk 3 ltac:(lia)) as (old & _ & ->). rewrite Hb. reflexivity.
    + intros k Hk3. destruct (Hk k ltac:(lia)) as (old & -> & ->). rewrite Hb.
      destruct (Z.eqb_spec k 3); [lia | reflexivity].
Qed.

Lemma border_is_expansion_ring_witness :
  exists expanded pixels',
    Native.expand_mask_native (Some [1; 0]%float) (Some [0; 0]%float) 2 1 1
    = Ok (MASK_PROCESSOR_SUCCESS, Some expanded) /\
    apply_sticker_mask_native (Some [10; 20; 30; 40; 50; 60; 70; 80])
      (Some [1; 0]%float) 2 1 1 {| r := 1; g := 2; b := 3 |} 1 (Some expanded)
    = Ok (MASK_PROCESSOR_SUCCESS, Some pixels') /\
    forall x y m,
      in_grid 2 1 x y ->
      [1; 0]%float !! Z.to_nat (y * 2 + x) = Some m -> (m <? 0.45)%float = true ->
      (covered [1; 0]%float 2 1 1 x y ->
       pixels' !! Z.to_nat ((y * 2 + x) * 4) = Some 1 /\
       pixels' !! Z.to_nat ((y * 2 + x) * 4 + 1) = Some 2 /\
       pixels' !! Z.to_nat ((y * 2 + x) * 4 + 2) = Some 3 /\
       pixels' !! Z.to_nat ((y * 2 + x) * 4 + 3) = Some 255) /\
      (~ covered [1; 0]%float 2 1 1 x y ->
       pixels' !! Z.to_nat ((y * 2 + x) * 4 + 3) = Some 0 /\
       forall k, 0 <= k < 3 ->
         pixels' !! Z.to_nat ((y * 2 + x) * 4 + k)
         = [10; 20; 30; 40; 50; 60; 70; 80] !! Z.to_nat ((y * 2 + x) * 4 + k)).
Proof.
  apply (border_is_expansion_ring [10; 20; 30; 40; 50; 60; 70; 80] [1; 0]%float
           [0; 0]%float 2 1 1 {| r := 1; g := 2; b := 3 |} 1); try lia;
    try reflexivity; try (unfold squares_in_range, INT_MAX; lia).
  repeat split; try lia; try reflexivity.
  - intros em [=].
  - repeat constructor.
Defined.

(** X14: [expand_mask_native] of [src/native] is extensive and monotone:
    every foreground cell is set in the output, and a cell set for a mask
    and a radius stays set for a mask with more foreground and a larger
    radius, as long as the squares of the larger radius stay in the range
    of [int]. *)
Theorem native_expand_monotone
    mask mask' output output' width height border_width border_width' :
  0 < width -> 0 < height -> 0 <= border_width <= border_width' ->
  squares_in_range width height border_width' ->
  sized mask (width * height) -> sized mask' (width * height) ->
  sized output (width * height) -> sized output' (width * height) ->
  (forall x y, in_grid width height x y ->
     foreground_at mask width x y -> foreground_at mask' width x y) ->
  exists expanded expanded',
    Native.expand_mask_native (Some mask) (Some output) width height border_width
    = Ok (MASK_PROCESSOR_SUCCESS, Some expanded) /\
    Native.expand_mask_native (Some mask') (Some output') width height
      border_width'
    = Ok (MASK_PROCESSOR_SUCCESS, Some expanded') /\
    forall x y, in_grid width height x y ->
      (foreground_at mask width x y ->
       expanded !! Z.to_nat (y * width + x) = Some 1%float) /\
      (expanded !! Z.to_nat (y * width + x) = Some 1%float ->
       expanded' !! Z.to_nat (y * width + x) = Some 1%float).
Proof.
  intros Hw Hh Hbw Hsq' Hmk Hmk' Hout Hout' Hsub.
  pose proof (squares_in_range_le width height border_width border_width'
                Hbw Hw Hh Hsq') as Hsq.
  destruct (native_expand_mask_disk mask output width height border_width
              Hw Hh ltac:(lia) Hsq Hmk Hout) as (e1 & E1 & HP1).
  destruct (native_expand_mask_disk mask' output' width height border_width'
              Hw Hh ltac:(lia) Hsq' Hmk' Hout') as (e2 & E2 & HP2).
  exists e1, e2. split; [exact E1|]. split; [exact E2|]. intros x y Hg.
  destruct (painted_iff _ _ _ _ _ _ HP1 Hg) as [H1 _].
  destruct (painted_iff _ _ _ _ _ _ HP2 Hg) as [H2 _]. split.
  - intros Hf. apply H1. exists x, y. unfold within.
    repeat split; try apply Hg; try assumption. nia.
  - intros Hc. apply H2. apply H1 in Hc.
    destruct Hc as (fx & fy & Hgf & Hf & Hwi & _). exists fx, fy.
    repeat split; try apply Hgf; [apply Hsub; assumption|].
    unfold within in *. nia.
Qed.

Lemma native_expand_monotone_witness :
  exists expanded expanded',
    Native.expand_mask_native (Some centre_3x3) (Some plus_3x3) 3 3 1
    = Ok (MASK_PROCESSOR_SUCCESS, Some expanded) /\
    Native.expand_mask_native (Some plus_3x3) (Some centre_3x3) 3 3 2
    = Ok (MASK_PROCESSOR_SUCCESS, Some expanded') /\
    forall x y, in_grid 3 3 x y ->
      (foreground_at centre_3x3 3 x y ->
       expanded !! Z.to_nat (y * 3 + x) = Some 1%float) /\
      (expanded !! Z.to_nat (y * 3 + x) = Some 1%float ->
       expanded' !! Z.to_nat (y * 3 + x) = Some 1%float).
Proof.
  apply (native_expand_monotone centre_3x3 plus_3x3 plus_3x3 centre_3x3 3 3 1 2);
    try lia; try reflexivity; try (unfold squares_in_range, INT_MAX; lia).
  intros x y [Hx Hy] (v & Ev & Hv).
  assert (x = 0 \/ x = 1 \/ x = 2) as Hx' by lia.
  assert (y = 0 \/ y = 1 \/ y = 2) as Hy' by lia.
  destruct Hx' as [-> | [-> | ->]]; destruct Hy' as [-> | [-> | ->]];
    cbn in Ev; injection Ev as <-; try (vm_compute in Hv; discriminate);
    exists 1%float; split; reflexivity.
Defined.

Lemma within_triangle a b gx gy fx fy x y :
  0 <= a -> 0 <= b ->
  within a gx gy fx fy -> within b fx fy x y -> within (a + b) gx gy x y.
Proof.
  unfold within. intros Ha Hb H1 H2.
  set (u1 := x - fx) in *. set (u2 := y - fy) in *.
  set (v1 := fx - gx) in *. set (v2 := fy - gy) in *.
  replace (x - gx) with (u1 + v1) by (unfold u1, v1; lia).
  replace (y - gy) with (u2 + v2) by (unfold u2, v2; lia).
  assert (u1 * v1 + u2 * v2 <= a * b) as Hdot.
  { destruct (Z_le_gt_dec (u1 * v1 + u2 * v2) (a * b)) as [H | H]; [exact H|].
    exfalso.
    assert ((u1 * v1 + u2 * v2) * (u1 * v1 + u2 * v2)
            <= (u1 * u1 + u2 * u2) * (v1 * v1 + v2 * v2)) as Hcs.
    { pose proof (Z.square_nonneg (u1 * v2 - u2 * v1)). nia. }
    assert ((u1 * u1 + u2 * u2) * (v1 * v1 + v2 * v2) <= (b * b) * (a * a)) as Hp.
    { pose proof (Z.square_nonneg u1). pose proof (Z.square_nonneg u2).
      pose proof (Z.square_nonneg v1). pose proof (Z.square_nonneg v2).
      apply Z.mul_le_mono_nonneg; lia. }
    assert (0 <= a * b) by nia.
    assert ((a * b) * (a * b) < (u1 * v1 + u2 * v2) * (u1 * v1 + u2 * v2)) by nia.
    nia. }
  nia.
Qed.

(** X15: expanding by [a] and then by [b] never sets a cell that a
    single expansion by [a + b] leaves clear (triangle inequality), as
    long as the squares of the radius [a + b] stay in the range of
    [int]. *)
Theorem native_expand_twice mask output1 output2 output3 width height a b :
  0 < width -> 0 < height -> 0 <= a -> 0 <= b ->
  squares_in_range width height (a + b) ->
  sized mask (width * height) -> sized output1 (width * height) ->
  sized output2 (width * height) -> sized output3 (width * height) ->
  exists once twice whole,
    Native.expand_mask_native (Some mask) (Some output1) width height a
    = Ok (MASK_PROCESSOR_SUCCESS, Some once) /\
    Native.expand_mask_native (Some once) (Some output2) width height b
    = Ok (MASK_PROCESSOR_SUCCESS, Some twice) /\
    Native.expand_mask_native (Some mask) (Some output3) width height (a + b)
    = Ok (MASK_PROCESSOR_SUCCESS, Some whole) /\
    forall x y, in_grid width height x y ->
      twice !! Z.to_nat (y * width + x) = Some 1%float ->
      whole !! Z.to_nat (y * width + x) = Some 1%float.
Proof.
  intros Hw Hh Ha Hb Hsq Hmk Ho1 Ho2 Ho3.
  pose proof (squares_in_range_le width height a (a + b) ltac:(lia) Hw Hh Hsq)
    as Hsqa.
  pose proof (squares_in_range_le width height b (a + b) ltac:(lia) Hw Hh Hsq)
    as Hsqb.
  destruct (native_expand_mask_disk mask output1 width height a
              Hw Hh Ha Hsqa Hmk Ho1) as (e1 & E1 & HP1).
  destruct (native_expand_mask_disk e1 output2 width height b
              Hw Hh Hb Hsqb (painted_sized _ _ _ _ HP1) Ho2) as (e2 & E2 & HP2).
  destruct (native_expand_mask_disk mask output3 width height (a + b)
              Hw Hh ltac:(lia) Hsq Hmk Ho3) as (e3 & E3 & HP3).
  exists e1, e2, e3. repeat (split; [assumption|]). intros x y Hg Hc.
  apply (painted_iff _ _ _ _ _ _ HP2 Hg) in Hc.
  apply (painted_iff _ _ _ _ _ _ HP3 Hg).
  destruct Hc as (fx & fy & Hgf & Hf & Hwi & _).
  apply (painted_foreground _ _ _ _ _ _ HP1 Hgf) in Hf.
  destruct Hf as (gx & gy & Hgg & Hfg & Hwi' & _).
  exists gx, gy. repeat split; try apply Hgg; [exact Hfg|].
  exact (within_triangle a b gx gy fx fy x y Ha Hb Hwi' Hwi).
Qed.

Lemma native_expand_twice_witness :
  exists once twice whole,
    Native.expand_mask_native (Some centre_3x3) (Some plus_3x3) 3 3 1
    = Ok (MASK_PROCESSOR_SUCCESS, Some once) /\
    Native.expand_mask_native (Some once) (Some plus_3x3) 3 3 1
    = Ok (MASK_PROCESSOR_SUCCESS, Some twice) /\
    Native.expand_mask_native (Some centre_3x3) (Some plus_3x3) 3 3 (1 + 1)
    = Ok (MASK_PROCESSOR_SUCCESS, Some whole) /\
    forall x y, in_grid 3 3 x y ->
      twice !! Z.to_nat (y * 3 + x) = Some 1%float ->
      whole !! Z.to_nat (y * 3 + x) = Some 1%float.
Proof.
  apply (native_expand_twice centre_3x3 plus_3x3 plus_3x3 plus_3x3 3 3 1 1);
    first [ lia | reflexivity | unfold squares_in_range, INT_MAX; lia ].
Defined.

(** * Helpers: clamping, dispatch and aligned allocation *)

(** X23: for [min <= max], [clamp_int] returns the point of
    [min .. max] nearest to [value]. *)
Theorem clamp_int_nearest value min max :
  min <= max ->
  min <= clamp_int value min max <= max /\
  forall z, min <= z <= max ->
    Z.abs (clamp_int value min max - value) <= Z.abs (z - value).
Proof.
  intros H. unfold clamp_int.
  destruct (Z.ltb_spec value min); [split; [lia | intros; lia]|].
  destruct (Z.ltb_spec max value); split; try lia; intros; lia.
Qed.

Lemma clamp_int_nearest_witness :
  0 <= clamp_int 300 0 255 <= 255 /\
  forall z, 0 <= z <= 255 -> Z.abs (clamp_int 300 0 255 - 300) <= Z.abs (z - 300).
Proof. apply (clamp_int_nearest 300 0 255). lia. Defined.

Lemma float_leb_intro a b :
  non_nan (Prim2SF a) = true -> non_nan (Prim2SF b) = true ->
  ~ lex_lt (key (Prim2SF b)) (key (Prim2SF a)) -> (a <=? b)%float = true.
Proof.
  intros Ha Hb K. rewrite FloatAxioms.leb_spec. unfold SFleb.
  destruct (SFcompare_key _ _ Ha Hb) as [[E K'] | [[E K'] | [E K']]]; rewrite E;
    try reflexivity.
  contradiction.
Qed.

Lemma float_ltb_nan_l a : (nan <? a)%float = false.
Proof. rewrite FloatAxioms.ltb_spec. reflexivity. Qed.

Lemma float_ltb_nan_r a : (a <? nan)%float = false.
Proof.
  rewrite FloatAxioms.ltb_spec. change (Prim2SF nan) with S754_nan.
  destruct (Prim2SF a) as [| | | ? ? ?]; reflexivity.
Qed.

(** X24: for [min <= max] and a [value] that is not a NaN,
    [clamp_double] returns a value between [min] and [max]; a NaN
    [value] is returned as it is, and NaN bounds do not clamp. *)
Theorem clamp_double_range value min max :
  is_nan value = false -> (min <=? max)%float = true ->
  ((min <=? clamp_double value min max)%float = true /\
   (clamp_double value min max <=? max)%float = true) /\
  clamp_double nan min max = nan /\
  clamp_double value nan nan = value.
Proof.
  intros Hn Hle. split; [|split].
  - unfold clamp_double.
    pose proof (is_nan_non_nan value Hn) as Nv.
    destruct (float_leb_true _ _ Hle) as (Nmin & Nmax & K).
    destruct (value <? min)%float eqn:E1.
    { split; [|exact Hle]. apply float_leb_intro; try assumption.
      apply lex_lt_irrefl. }
    destruct (max <? value)%float eqn:E2.
    { split; [exact Hle|]. apply float_leb_intro; try assumption.
      apply lex_lt_irrefl. }
    rewrite FloatAxioms.ltb_spec in E1, E2.
    split; apply float_leb_intro; try assumption;
      apply SFltb_false; assumption.
  - unfold clamp_double. rewrite float_ltb_nan_l, float_ltb_nan_r. reflexivity.
  - unfold clamp_double. rewrite float_ltb_nan_l, float_ltb_nan_r. reflexivity.
Qed.

Lemma clamp_double_range_witness :
  ((0 <=? clamp_double 2 0 1)%float = true /\
   (clamp_double 2 0 1 <=? 1)%float = true) /\
  clamp_double nan 0 1 = nan /\
  clamp_double 2 nan nan = 2%float.
Proof. apply (clamp_double_range 2 0 1); reflexivity. Defined.

(** X25: whichever of [__ARM_NEON] and [__SSE2__] the build defines, the
    [_optimized] entry points of [simd_optimizations.c] compute what the
    [_native] functions compute. *)
Theorem simd_dispatch_is_native ARM_NEON SSE2
    pixels mask output width height add_border border_color border_width
    expanded_mask kernel_size temp :
  apply_sticker_mask_optimized ARM_NEON SSE2 pixels mask width height add_border
    border_color border_width expanded_mask
  = apply_sticker_mask_native pixels mask width height add_border border_color
      border_width expanded_mask /\
  smooth_mask_optimized ARM_NEON SSE2 mask output width height kernel_size temp
  = smooth_mask_native mask output width height kernel_size temp.
Proof. destruct ARM_NEON, SSE2; split; reflexivity. Qed.

Lemma size_t_small size_bits v : 0 <= v < 2 ^ size_bits -> size_t size_bits v = v.
Proof. intros H. apply Z.mod_small. exact H. Qed.

Lemma land_alignment_mask size_bits x :
  14 <= size_bits -> 0 <= x < 2 ^ size_bits ->
  Z.land x (size_t size_bits (Z.lnot (MEMORY_ALIGNMENT - 1)))
  = MEMORY_ALIGNMENT * (x / MEMORY_ALIGNMENT).
Proof.
  intros Hb Hx. unfold size_t.
  rewrite <- Z.land_ones by lia.
  rewrite (Z.land_comm (Z.lnot _)), Z.land_assoc.
  rewrite (Z.land_ones x) by lia. rewrite Z.mod_small by exact Hx.
  rewrite <- Z.ldiff_land.
  change (MEMORY_ALIGNMENT - 1) with (Z.ones 14).
  rewrite Z.ldiff_ones_r by lia.
  rewrite Z.shiftl_mul_pow2, Z.shiftr_div_pow2 by lia.
  change (2 ^ 14) with MEMORY_ALIGNMENT. lia.
Qed.

Lemma pow2_alignment size_bits : 14 <= size_bits -> MEMORY_ALIGNMENT <= 2 ^ size_bits.
Proof.
  intros H. change MEMORY_ALIGNMENT with (2 ^ 14).
  apply Z.pow_le_mono_r; lia.
Qed.

Lemma size_t_pred size_bits a :
  size_t size_bits (size_t size_bits a - 1) = size_t size_bits (a - 1).
Proof. unfold size_t. apply Zminus_mod_idemp_l. Qed.

Lemma aligned_size_rounds_up size_bits size :
  14 <= size_bits -> 0 <= size <= 2 ^ size_bits - MEMORY_ALIGNMENT ->
  aligned_size size_bits size
  = MEMORY_ALIGNMENT * ((size + MEMORY_ALIGNMENT - 1) / MEMORY_ALIGNMENT).
Proof.
  intros Hb Hs. pose proof (pow2_alignment size_bits Hb) as Hp. unfold aligned_size.
  rewrite size_t_pred.
  rewrite (size_t_small size_bits (size + MEMORY_ALIGNMENT - 1))
    by (unfold MEMORY_ALIGNMENT in *; lia).
  apply land_alignment_mask; unfold MEMORY_ALIGNMENT in *; lia.
Qed.

(** X26: for a size of at most [SIZE_MAX + 1 - MEMORY_ALIGNMENT],
    [aligned_malloc] asks [aligned_alloc] (Android, API 28 and later) or
    [posix_memalign] (Apple) for the least multiple of 16384 that is not
    below [size], and [malloc] for [size] itself on the other platforms. *)
Theorem aligned_malloc_rounds_up {A : Type} size_bits
    (libc : allocation -> option A) size :
  14 <= size_bits -> 0 <= size <= 2 ^ size_bits - MEMORY_ALIGNMENT ->
  exists n,
    size <= n < size + MEMORY_ALIGNMENT /\ n mod MEMORY_ALIGNMENT = 0 /\
    aligned_malloc ANDROID_API_28 size_bits libc size
    = libc (aligned_alloc MEMORY_ALIGNMENT n) /\
    aligned_malloc APPLE size_bits libc size
    = libc (posix_memalign MEMORY_ALIGNMENT n) /\
    aligned_malloc OTHER_PLATFORM size_bits libc size = libc (malloc size).
Proof.
  intros Hb Hs.
  exists (MEMORY_ALIGNMENT * ((size + MEMORY_ALIGNMENT - 1) / MEMORY_ALIGNMENT)).
  unfold aligned_malloc. rewrite (aligned_size_rounds_up size_bits size Hb Hs).
  unfold MEMORY_ALIGNMENT in *.
  pose proof (Z.div_mod (size + 16384 - 1) 16384 ltac:(lia)).
  pose proof (Z.mod_pos_bound (size + 16384 - 1) 16384 ltac:(lia)).
  split; [lia|]. split.
  - rewrite Z.mul_comm. apply Z.mod_mul. lia.
  - repeat split. destruct (libc _); reflexivity.
Qed.

Lemma aligned_malloc_rounds_up_witness :
  exists n,
    100 <= n < 100 + MEMORY_ALIGNMENT /\ n mod MEMORY_ALIGNMENT = 0 /\
    aligned_malloc ANDROID_API_28 64 (fun _ => Some tt) 100
    = (fun _ => Some tt) (aligned_alloc MEMORY_ALIGNMENT n) /\
    aligned_malloc APPLE 64 (fun _ => Some tt) 100
    = (fun _ => Some tt) (posix_memalign MEMORY_ALIGNMENT n) /\
    aligned_malloc OTHER_PLATFORM 64 (fun _ => Some tt) 100
    = (fun _ => Some tt) (malloc 100).
Proof.
  apply (aligned_malloc_rounds_up 64 (fun _ => Some tt) 100);
    unfold MEMORY_ALIGNMENT; lia.
Defined.

(** X27: for a larger size the rounding wraps around: the aligned
    allocators are asked for 0 bytes. *)
Theorem aligned_malloc_wraps {A : Type} size_bits
    (libc : allocation -> option A) size :
  14 <= size_bits -> 2 ^ size_bits - MEMORY_ALIGNMENT < size < 2 ^ size_bits ->
  aligned_malloc ANDROID_API_28 size_bits libc size
  = libc (aligned_alloc MEMORY_ALIGNMENT 0) /\
  aligned_malloc APPLE size_bits libc size
  = libc (posix_memalign MEMORY_ALIGNMENT 0).
Proof.
  intros Hb Hs. pose proof (pow2_alignment size_bits Hb) as Hp.
  assert (aligned_size size_bits size = 0) as E.
  { unfold aligned_size. unfold MEMORY_ALIGNMENT in *.
    rewrite size_t_pred.
    assert (size_t size_bits (size + 16384 - 1) = size + 16383 - 2 ^ size_bits) as ->
      by (unfold size_t; symmetry; apply Z.mod_unique with (q := 1); lia).
    rewrite (land_alignment_mask size_bits) by (unfold MEMORY_ALIGNMENT; lia).
    unfold MEMORY_ALIGNMENT. rewrite Z.div_small by lia. reflexivity. }
  unfold aligned_malloc. rewrite E. split; [reflexivity|].
  destruct (libc _); reflexivity.
Qed.

Lemma aligned_malloc_wraps_witness :
  aligned_malloc ANDROID_API_28 64 (fun _ => Some tt) (2 ^ 64 - 8)
  = (fun _ => Some tt) (aligned_alloc MEMORY_ALIGNMENT 0) /\
  aligned_malloc APPLE 64 (fun _ => Some tt) (2 ^ 64 - 8)
  = (fun _ => Some tt) (posix_memalign MEMORY_ALIGNMENT 0).
Proof.
  apply (aligned_malloc_wraps 64 (fun _ => Some tt) (2 ^ 64 - 8));
    unfold MEMORY_ALIGNMENT; lia.
Defined.

(** * Mask expansion, [ios/Classes], radii 1 to 3 *)

(** The bounds check on [target_idx / width] and [target_idx % width]
    accepts exactly the indices of the grid. *)
Lemma target_bounds_check t width height :
  0 < width -> 0 < height ->
  (0 <=? Z.quot t width) && (Z.quot t width <? height)
  && (0 <=? Z.rem t width) && (Z.rem t width <? width)
  = (0 <=? t) && (t <? width * height).
Proof.
  intros Hw Hh. destruct (Z.leb_spec 0 t) as [Ht | Ht].
  - rewrite Z.quot_div_nonneg, Z.rem_mod_nonneg by lia.
    pose proof (Z.mod_pos_bound t width Hw) as Hm.
    pose proof (Z.div_pos t width Ht Hw) as Hd.
    destruct (Z.leb_spec 0 (t / width)); [|lia].
    destruct (Z.leb_spec 0 (t mod width)); [|lia].
    destruct (Z.ltb_spec (t mod width) width); [|lia].
    rewrite !andb_true_r. cbn [andb].
    destruct (Z.ltb_spec t (width * height)) as [H2 | H2];
      destruct (Z.ltb_spec (t / width) height) as [H3 | H3]; try reflexivity.
    + apply Z.div_lt_upper_bound in H2; lia.
    + pose proof (Z.div_mod t width ltac:(lia)). nia.
  - cbn [andb].
    pose proof (Z.rem_bound_pos_neg t width Hw ltac:(lia)) as Hr.
    pose proof (Z.quot_rem' t width) as Hq.
    destruct (Z.leb_spec 0 (Z.rem t width)) as [H0 | H0];
      [|rewrite andb_false_r; reflexivity].
    assert (Z.rem t width = 0) as E by lia.
    destruct (Z.leb_spec 0 (Z.quot t width)) as [H1 | H1]; [nia | reflexivity].
Qed.

(** The table of offsets: its first [kernel_count] entries are the
    offsets [ey * width + ex] of the points of the disk, and it fits in
    the 64 entries of [kernel_offsets]. *)
Lemma kernel_offsets_table width border_width :
  1 <= border_width <= 3 ->
  exists kernel_offsets kernel_count,
    for_range (- border_width) (border_width + 1) (fun dy st =>
      for_range (- border_width) (border_width + 1)
        (fun dx '(kernel_offsets, kernel_count) =>
           if dx * dx + dy * dy <=? border_width * border_width then
             let* kernel_offsets :=
               store kernel_offsets kernel_count (dy * width + dx) in
             Ok (kernel_offsets, kernel_count + 1)
           else Ok (kernel_offsets, kernel_count)) st)
      (replicate 64 0, 0)
    = Ok (kernel_offsets, kernel_count) /\
    0 <= kernel_count /\
    (forall k, 0 <= k < kernel_count ->
       exists ex ey, kernel_offsets !! Z.to_nat k = Some (ey * width + ex) /\
                     ex * ex + ey * ey <= border_width * border_width) /\
    (forall ex ey, ex * ex + ey * ey <= border_width * border_width ->
       exists k, 0 <= k < kernel_count /\
                 kernel_offsets !! Z.to_nat k = Some (ey * width + ex)).
Proof.
  intros Hbw.
  set (disk := fun ex ey => ex * ex + ey * ey <= border_width * border_width).
  set (I := fun (dy dx : Z) (st : list Z * Z) =>
    let '(ko, kc) := st in
    length ko = 64%nat /\
    0 <= kc <= (dy + border_width) * (2 * border_width + 1) + (dx + border_width) /\
    (forall k, 0 <= k < kc ->
       exists ex ey, ko !! Z.to_nat k = Some (ey * width + ex) /\ disk ex ey) /\
    (forall ex ey, disk ex ey -> - border_width <= ex ->
       ey < dy \/ (ey = dy /\ ex < dx) ->
       exists k, 0 <= k < kc /\ ko !! Z.to_nat k = Some (ey * width + ex))).
  match goal with
  | |- context [for_range _ _ ?body ?init] =>
      destruct (for_range_inv (fun dy st => I dy (- border_width) st) body
                  (- border_width) (border_width + 1) init)
        as ([ko kc] & E & Hlen & Hkc & Hin & Hall)
  end.
  - lia.
  - unfold I. split; [reflexivity|]. split; [lia|]. split; [intros; lia|].
    intros ex ey Hd Hex Hpos. unfold disk in Hd.
    pose proof (Z.square_nonneg ex). pose proof (Z.square_nonneg ey). nia.
  - intros dy st Hdy Hst. cbv beta.
    match goal with
    | |- context [for_range _ _ ?body st] =>
        destruct (for_range_inv (fun dx st => I dy dx st) body
                    (- border_width) (border_width + 1) st) as (st' & E & Hst')
    end.
    + lia.
    + exact Hst.
    + intros dx [ko kc] Hdx (Hlen & Hkc & Hin & Hall). cbv beta iota.
      destruct (Z.leb_spec (dx * dx + dy * dy) (border_width * border_width))
        as [Hd | Hd].
      * assert (kc < 64) by nia.
        rewrite store_ok by lia. cbn [bind]. eexists. split; [reflexivity|].
        unfold I. split; [rewrite length_insert; exact Hlen|]. split; [lia|]. split.
        -- intros k Hk. rewrite lookup_store by lia.
           destruct (Z.eqb_spec k kc) as [-> | Hne].
           ++ exists dx, dy. split; [reflexivity | exact Hd].
           ++ apply Hin. lia.
        -- intros ex ey Hde Hex Hpos.
           destruct (Z.eq_dec ey dy) as [-> | Hney];
             [destruct (Z.eq_dec ex dx) as [-> | Hnex]|].
           ++ exists kc. split; [lia|]. rewrite lookup_store by lia.
              rewrite Z.eqb_refl. reflexivity.
           ++ destruct (Hall ex dy Hde Hex ltac:(lia)) as (k & Hk & Ek).
              exists k. split; [lia|]. rewrite lookup_store by lia.
              destruct (Z.eqb_spec k kc); [lia | exact Ek].
           ++ destruct (Hall ex ey Hde Hex ltac:(lia)) as (k & Hk & Ek).
              exists k. split; [lia|]. rewrite lookup_store by lia.
              destruct (Z.eqb_spec k kc); [lia | exact Ek].
      * eexists. split; [reflexivity|].
        unfold I. split; [exact Hlen|]. split; [lia|]. split; [exact Hin|].
        intros ex ey Hde Hex Hpos. apply Hall; try assumption.
        destruct (Z.eq_dec ey dy) as [-> | Hney];
          [destruct (Z.eq_dec ex dx) as [-> | Hnex]|]; try lia.
        unfold disk in Hde. lia.
    + exists st'. split; [exact E|]. destruct st' as [ko kc].
      destruct Hst' as (Hlen & Hkc & Hin & Hall).
      unfold I. split; [exact Hlen|]. split; [lia|]. split; [exact Hin|].
      intros ex ey Hde Hex Hpos.
      assert (ex <= border_width).
      { unfold disk in Hde. pose proof (Z.square_nonneg ey). nia. }
      apply Hall; try assumption. lia.
  - exists ko, kc. split; [exact E|]. split; [lia|]. split; [exact Hin|].
    intros ex ey Hde.
    assert (- border_width <= ex /\ ey <= border_width) as [Hex Hey].
    { pose proof (Z.square_nonneg ey). pose proof (Z.square_nonneg ex). split; nia. }
    apply Hall; try assumption. lia.
Qed.

(** A scan of the grid that paints [Stamp x y] at every foreground cell
    [(x, y)] paints the union of the stamps. *)
Lemma scan_foreground (Stamp : Z -> Z -> Z -> Z -> Prop)
    (paint : Z -> Z -> list float -> exec (list float))
    (mask : list float) width height out0 :
  0 < width -> 0 < height -> sized mask (width * height) ->
  painted (fun _ _ => False) width height out0 ->
  (forall x y (S : Z -> Z -> Prop) o,
     in_grid width height x y -> painted S width height o ->
     exists o', paint x y o = Ok o' /\
                painted (fun tx ty => S tx ty \/ Stamp x y tx ty) width height o') ->
  exists out',
    for_range 0 height (fun y output =>
      for_range 0 width (fun x output =>
        let* v := load mask (y * width + x) in
        if (THRESHOLD <? v)%float then paint x y output else Ok output)
      output) out0
    = Ok out' /\
    painted (fun tx ty => exists fx fy,
               in_grid width height fx fy /\ foreground_at mask width fx fy /\
               Stamp fx fy tx ty) width height out'.
Proof.
  intros Hw Hh Hmk P0 Hpaint.
  set (U := fun (Q : Z -> Z -> Prop) (tx ty : Z) =>
    exists fx fy, in_grid width height fx fy /\ foreground_at mask width fx fy /\
                  Q fx fy /\ Stamp fx fy tx ty).
  assert (forall (Q Q' : Z -> Z -> Prop) o,
            (forall fx fy, in_grid width height fx fy ->
                           foreground_at mask width fx fy -> (Q fx fy <-> Q' fx fy)) ->
            painted (U Q) width height o -> painted (U Q') width height o) as Uext.
  { intros Q Q' o HQ. apply painted_ext. intros tx ty _. unfold U.
    split; intros (fx & fy & Hg & Hf & Hq & Hs); exists fx, fy;
      repeat split; try apply Hg; try assumption; apply (HQ fx fy Hg Hf); exact Hq. }
  match goal with
  | |- context [for_range 0 height ?body out0] =>
      destruct (for_range_inv
                  (fun y o => painted (U (fun fx fy => fy < y)) width height o)
                  body 0 height out0) as (out' & E & HP)
  end.
  - lia.
  - revert P0. apply painted_ext. intros x y _. split; [tauto|].
    intros (fx & fy & [_ Hfy] & _ & Hq & _). lia.
  - intros y o Hy Ho. cbv beta.
    match goal with
    | |- context [for_range 0 width ?body o] =>
        destruct (for_range_inv
                    (fun x o' => painted (U (fun fx fy => fy < y \/ (fy = y /\ fx < x)))
                                         width height o')
                    body 0 width o) as (o' & E & HP)
    end.
    + lia.
    + revert Ho. apply Uext. intros fx fy [Hfx _] _. lia.
    + intros x o1 Hx Ho1. cbv beta.
      assert (in_grid width height x y) as Hg by (unfold in_grid; lia).
      pose proof (cell_index_range _ _ _ _ Hg) as Hi.
      unfold sized in Hmk.
      destruct (load_ok mask (y * width + x) ltac:(lia)) as (v & -> & Ev).
      cbn [bind].
      destruct (THRESHOLD <? v)%float eqn:Hv.
      * destruct (Hpaint x y _ o1 Hg Ho1) as (o2 & -> & Ho2).
        exists o2. split; [reflexivity|]. revert Ho2. apply painted_ext.
        intros tx ty _. unfold U. split.
        -- intros [(fx & fy & Hfg & Hf & Hq & Hs) | Hs].
           ++ exists fx, fy. repeat split; try apply Hfg; try assumption. lia.
           ++ exists x, y. repeat split; try lia; try assumption.
              exists v. split; [exact Ev | exact Hv].
        -- intros (fx & fy & Hfg & Hf & Hq & Hs).
           destruct (Z.eq_dec fy y) as [-> | Hne];
             [destruct (Z.eq_dec fx x) as [-> | Hne]|].
           ++ right. exact Hs.
           ++ left. exists fx, y. repeat split; try apply Hfg; try assumption. lia.
           ++ left. exists fx, fy. repeat split; try apply Hfg; try assumption. lia.
      * exists o1. split; [reflexivity|]. revert Ho1. apply Uext.
        intros fx fy _ (v' & Ev' & Hv'). split; [lia|]. intros Hq.
        destruct (Z.eq_dec fy y) as [-> | Hne];
          [destruct (Z.eq_dec fx x) as [-> | Hne]|]; try lia.
        rewrite Ev in Ev'. injection Ev' as <-.
        change 0.5%float with THRESHOLD in Hv'. congruence.
    + exists o'. split; [exact E|]. revert HP. apply Uext.
      intros fx fy [Hfx _] _. lia.
  - exists out'. split; [exact E|]. revert HP. apply painted_ext.
    intros tx ty _. unfold U. split.
    + intros (fx & fy & Hg & Hf & _ & Hs). exists fx, fy. tauto.
    + intros (fx & fy & Hg & Hf & Hs). exists fx, fy.
      split; [exact Hg|]. split; [exact Hf|]. split; [apply Hg | exact Hs].
Qed.

(** Applying the table at a foreground cell paints the cells whose index
    is the index of the cell plus an offset of the disk. *)
Lemma stamp_offsets (S : Z -> Z -> Prop) kernel_offsets kernel_count
    width height border_width x y out :
  0 < width -> 0 < height -> 0 <= kernel_count ->
  (forall k, 0 <= k < kernel_count ->
     exists ex ey, kernel_offsets !! Z.to_nat k = Some (ey * width + ex) /\
                   ex * ex + ey * ey <= border_width * border_width) ->
  (forall ex ey, ex * ex + ey * ey <= border_width * border_width ->
     exists k, 0 <= k < kernel_count /\
               kernel_offsets !! Z.to_nat k = Some (ey * width + ex)) ->
  painted S width height out ->
  exists out',
    for_range 0 kernel_count (fun k output =>
      let* offset := load kernel_offsets k in
      if (0 <=? Z.quot (y * width + x + offset) width)
         && (Z.quot (y * width + x + offset) width <? height)
         && (0 <=? Z.rem (y * width + x + offset) width)
         && (Z.rem (y * width + x + offset) width <? width)
      then store output (y * width + x + offset) 1%float
      else Ok output) out
    = Ok out' /\
    painted (fun tx ty => S tx ty \/
               exists ex ey, ex * ex + ey * ey <= border_width * border_width /\
                 ty * width + tx = (y * width + x) + (ey * width + ex))
            width height out'.
Proof.
  intros Hw Hh Hkc Hin Hall Hp.
  set (T := fun (k : Z) (tx ty : Z) =>
    exists k' off, 0 <= k' < k /\ kernel_offsets !! Z.to_nat k' = Some off /\
                   ty * width + tx = y * width + x + off).
  match goal with
  | |- context [for_range 0 kernel_count ?body out] =>
      destruct (for_range_inv
                  (fun k o => painted (fun tx ty => S tx ty \/ T k tx ty)
                                      width height o)
                  body 0 kernel_count out) as (out' & E & HP)
  end.
  - exact Hkc.
  - revert Hp. apply painted_ext. intros tx ty _. split; [tauto|].
    intros [H | (k' & off & Hk' & _)]; [exact H | lia].
  - intros k o Hk Ho. cbv beta.
    destruct (Hin k Hk) as (ex & ey & Ek & Hd).
    rewrite (load_lookup kernel_offsets k _ ltac:(lia) Ek). cbn [bind].
    rewrite target_bounds_check by assumption.
    set (t := y * width + x + (ey * width + ex)).
    assert (forall tx ty, T (k + 1) tx ty <-> T k tx ty \/ ty * width + tx = t)
      as HT.
    { intros tx ty. unfold T. split.
      - intros (k' & off & Hk' & Ek' & Et).
        destruct (Z.eq_dec k' k) as [-> | Hne].
        + right. rewrite Ek in Ek'. injection Ek' as <-. exact Et.
        + left. exists k', off. repeat split; try assumption; lia.
      - intros [(k' & off & Hk' & Ek' & Et) | Et].
        + exists k', off. repeat split; try assumption; lia.
        + exists k, (ey * width + ex). repeat split; try assumption; lia. }
    destruct (Z.leb_spec 0 t) as [Ht0 | Ht0];
      [destruct (Z.ltb_spec t (width * height)) as [Ht1 | Ht1]|]; cbn [andb].
    + pose proof (Z.div_mod t width ltac:(lia)) as Hdm.
      pose proof (Z.mod_pos_bound t width Hw) as Hm.
      assert (in_grid width height (t mod width) (t / width)) as Hg.
      { split; [exact Hm|]. split; [apply Z.div_pos; lia|].
        apply Z.div_lt_upper_bound; lia. }
      destruct (painted_store _ width height o _ _ Ho Hg) as (o' & Eo & Ho').
      replace (t / width * width + t mod width) with t in Eo by lia.
      rewrite Eo. exists o'. split; [reflexivity|]. revert Ho'.
      apply painted_ext. intros tx ty Hgt. rewrite HT. split.
      * intros [[H | H] | [-> ->]]; [tauto | tauto | right; right; lia].
      * intros [H | [H | H]]; [tauto | tauto |].
        right. apply (cell_index_inj width); [apply Hgt | exact Hm | lia].
    + exists o. split; [reflexivity|]. revert Ho. apply painted_ext.
      intros tx ty Hgt. rewrite HT.
      pose proof (cell_index_range _ _ _ _ Hgt). split; [tauto|].
      intros [H' | [H' | H']]; [tauto | tauto | lia].
    + exists o. split; [reflexivity|]. revert Ho. apply painted_ext.
      intros tx ty Hgt. rewrite HT.
      pose proof (cell_index_range _ _ _ _ Hgt). split; [tauto|].
      intros [H' | [H' | H']]; [tauto | tauto | lia].
  - exists out'. split; [exact E|]. revert HP. apply painted_ext.
    intros tx ty _. unfold T. split.
    + intros [H | (k' & off & Hk' & Ek' & Et)]; [tauto|]. right.
      destruct (Hin k' Hk') as (ex & ey & Ek & Hd).
      rewrite Ek in Ek'. injection Ek' as <-. exists ex, ey. split; assumption.
    + intros [H | (ex & ey & Hd & Et)]; [tauto|]. right.
      destruct (Hall ex ey Hd) as (k & Hk & Ek). exists k, (ey * width + ex).
      repeat split; try assumption; lia.
Qed.

(** [expand_mask_native] of [ios/Classes] for the radii 1, 2 and 3. *)
Lemma ios_expand_mask_small mask output width height border_width temp_buffer :
  0 < width -> 0 < height -> 1 <= border_width <= 3 ->
  sized mask (width * height) -> sized output (width * height) ->
  exists output',
    Ios.expand_mask_native (Some mask) (Some output) width height border_width
      temp_buffer
    = Ok (MASK_PROCESSOR_SUCCESS, Some output') /\
    painted (covered_by_index mask width height border_width) width height output'.
Proof.
  intros Hw Hh Hbw Hmk Hout. unfold Ios.expand_mask_native.
  destruct (Z.leb_spec width 0); [lia|]. destruct (Z.leb_spec height 0); [lia|].
  destruct (Z.ltb_spec border_width 0); [lia|].
  destruct (Z.eqb_spec border_width 0); [lia|].
  destruct (Z.leb_spec border_width 3); [|lia]. cbn [orb].
  destruct (memset_zero_painted output width height Hw Hh Hout) as (out1 & -> & P1).
  cbn [bind].
  destruct (kernel_offsets_table width border_width Hbw)
    as (ko & kc & -> & Hkc & Hin & Hall).
  cbn [bind]. cbv zeta.
  destruct (scan_foreground
              (fun x y tx ty =>
                 exists ex ey, ex * ex + ey * ey <= border_width * border_width /\
                   ty * width + tx = (y * width + x) + (ey * width + ex))
              (fun x y output =>
                 for_range 0 kc (fun k output =>
                   let* offset := load ko k in
                   if (0 <=? Z.quot (y * width + x + offset) width)
                      && (Z.quot (y * width + x + offset) width <? height)
                      && (0 <=? Z.rem (y * width + x + offset) width)
                      && (Z.rem (y * width + x + offset) width <? width)
                   then store output (y * width + x + offset) 1%float
                   else Ok output) output)
              mask width height out1 Hw Hh Hmk P1) as (out' & E & HP).
  { intros x y S o Hg Ho.
    exact (stamp_offsets S ko kc width height border_width x y o
             Hw Hh Hkc Hin Hall Ho). }
  cbv beta in E. rewrite E. cbn [bind]. exists out'. split; [reflexivity|].
  revert HP. apply painted_ext. intros tx ty _. unfold covered_by_index. split.
  - intros (fx & fy & Hg & Hf & ex & ey & Hd & Et). exists fx, fy, ex, ey. tauto.
  - intros (fx & fy & ex & ey & Hg & Hf & Hd & Et). exists fx, fy.
    repeat split; try apply Hg; try assumption. exists ex, ey. tauto.
Qed.

Lemma painted_unique (S : Z -> Z -> Prop) width height o1 o2 :
  0 < width -> 0 < height ->
  painted S width height o1 -> painted S width height o2 -> o1 = o2.
Proof.
  intros Hw Hh [Hs1 Hp1] [Hs2 Hp2]. unfold sized in *. apply list_eq. intros j.
  destruct (Z_lt_ge_dec (Z.of_nat j) (width * height)) as [Hj | Hj].
  - pose proof (Z.div_mod (Z.of_nat j) width ltac:(lia)) as Hdm.
    pose proof (Z.mod_pos_bound (Z.of_nat j) width Hw) as Hm.
    assert (in_grid width height (Z.of_nat j mod width) (Z.of_nat j / width)) as Hg.
    { split; [exact Hm|]. split; [apply Z.div_pos; lia|].
      apply Z.div_lt_upper_bound; lia. }
    specialize (Hp1 _ _ Hg). specialize (Hp2 _ _ Hg).
    replace (Z.to_nat (Z.of_nat j / width * width + Z.of_nat j mod width))
      with j in * by lia.
    destruct Hp1 as [[H1 ->] | [H1 ->]], Hp2 as [[H2 ->] | [H2 ->]];
      first [reflexivity | contradiction].
  - rewrite !lookup_ge_None_2 by lia. reflexivity.
Qed.

Lemma covered_covered_by_index mask width height border_width x y :
  covered mask width height border_width x y ->
  covered_by_index mask width height border_width x y.
Proof.
  intros (fx & fy & Hg & Hf & Hwi & _). unfold within in Hwi.
  exists fx, fy, (x - fx), (y - fy). repeat split; try apply Hg; try assumption.
  lia.
Qed.

Lemma covered_by_index_covered mask width height border_width x y :
  0 <= border_width -> in_grid width height x y ->
  (forall fx fy, in_grid width height fx fy -> foreground_at mask width fx fy ->
     border_width <= fx <= width - 1 - border_width) ->
  covered_by_index mask width height border_width x y ->
  covered mask width height border_width x y.
Proof.
  intros Hbw Hg Hmargin (fx & fy & ex & ey & Hgf & Hf & Hd & Et).
  specialize (Hmargin fx fy Hgf Hf).
  assert (- border_width <= ex <= border_width) as Hex.
  { pose proof (Z.square_nonneg ey). split; nia. }
  assert (x = fx + ex /\ y = fy + ey) as [-> ->].
  { apply (cell_index_inj width); [apply Hg | lia | lia]. }
  exists fx, fy. unfold within. repeat split; try apply Hgf; try assumption.
  replace (fx + ex - fx) with ex by lia. replace (fy + ey - fy) with ey by lia.
  exact Hd.
Qed.

(** X16: for the radii 1, 2 and 3, [expand_mask_native] of
    [ios/Classes] succeeds on every grid, without a scratch buffer, and
    sets exactly the cells whose row-major index is the index of a
    foreground cell plus an offset [ey * width + ex] of the disk
    ([ex^2 + ey^2 <= border_width^2]); the other cells are 0.0. *)
Theorem ios_expand_small_radius
    mask output width height border_width temp_buffer :
  0 < width -> 0 < height -> 1 <= border_width <= 3 ->
  sized mask (width * height) -> sized output (width * height) ->
  exists output',
    Ios.expand_mask_native (Some mask) (Some output) width height border_width
      temp_buffer
    = Ok (MASK_PROCESSOR_SUCCESS, Some output') /\
    forall x y, in_grid width height x y ->
      (output' !! Z.to_nat (y * width + x) = Some 1%float
       <-> covered_by_index mask width height border_width x y) /\
      (output' !! Z.to_nat (y * width + x) = Some 0%float
       <-> ~ covered_by_index mask width height border_width x y).
Proof.
  intros Hw Hh Hbw Hmk Hout.
  destruct (ios_expand_mask_small mask output width height border_width
              temp_buffer Hw Hh Hbw Hmk Hout) as (output' & E & HP).
  exists output'. split; [exact E|]. intros x y Hg.
  exact (painted_iff _ _ _ _ _ _ HP Hg).
Qed.

Lemma ios_expand_small_radius_witness :
  exists output',
    Ios.expand_mask_native (Some [0; 0; 1; 0; 0; 0; 0; 0; 0]%float)
      (Some centre_3x3) 3 3 1 None
    = Ok (MASK_PROCESSOR_SUCCESS, Some output') /\
    forall x y, in_grid 3 3 x y ->
      (output' !! Z.to_nat (y * 3 + x) = Some 1%float
       <-> covered_by_index [0; 0; 1; 0; 0; 0; 0; 0; 0]%float 3 3 1 x y) /\
      (output' !! Z.to_nat (y * 3 + x) = Some 0%float
       <-> ~ covered_by_index [0; 0; 1; 0; 0; 0; 0; 0; 0]%float 3 3 1 x y).
Proof.
  apply (ios_expand_small_radius [0; 0; 1; 0; 0; 0; 0; 0; 0]%float centre_3x3
           3 3 1 None); try lia; reflexivity.
Defined.

(** X17: for the radii 1, 2 and 3 the two variants of
    [expand_mask_native] return the same result whenever every foreground
    cell is at least [border_width] columns away from the left and right
    edges. *)
Theorem ios_small_radius_agrees_with_native
    mask output output' width height border_width temp_buffer :
  0 < width -> 0 < height -> 1 <= border_width <= 3 ->
  sized mask (width * height) -> sized output (width * height) ->
  sized output' (width * height) ->
  (forall fx fy, in_grid width height fx fy -> foreground_at mask width fx fy ->
     border_width <= fx <= width - 1 - border_width) ->
  Ios.expand_mask_native (Some mask) (Some output) width height border_width
    temp_buffer
  = Native.expand_mask_native (Some mask) (Some output') width height
      border_width.
Proof.
  intros Hw Hh Hbw Hmk Hout Hout' Hmargin.
  destruct (ios_expand_mask_small mask output width height border_width
              temp_buffer Hw Hh Hbw Hmk Hout) as (ios & -> & HP).
  destruct (native_expand_mask_disk mask output' width height border_width
              Hw Hh ltac:(lia)
              (squares_in_range_small width height border_width ltac:(lia) Hw Hh)
              Hmk Hout') as (native & -> & HP').
  do 3 f_equal.
  apply (painted_unique (covered mask width height border_width) width height);
    try assumption.
  revert HP. apply painted_ext. intros x y Hg. split.
  - apply covered_by_index_covered; try assumption. lia.
  - apply covered_covered_by_index.
Qed.

Lemma ios_small_radius_agrees_with_native_witness :
  Ios.expand_mask_native (Some centre_3x3) (Some plus_3x3) 3 3 1 None
  = Native.expand_mask_native (Some centre_3x3) (Some plus_3x3) 3 3 1.
Proof.
  apply (ios_small_radius_agrees_with_native centre_3x3 plus_3x3 plus_3x3 3 3 1
           None); try lia; try reflexivity.
  intros fx fy [Hx Hy] (v & Ev & Hv).
  assert (fx = 0 \/ fx = 1 \/ fx = 2) as Hx' by lia.
  assert (fy = 0 \/ fy = 1 \/ fy = 2) as Hy' by lia.
  destruct Hx' as [-> | [-> | ->]]; destruct Hy' as [-> | [-> | ->]];
    cbn in Ev; injection Ev as <-; try (vm_compute in Hv; discriminate); lia.
Defined.

(** * Mask expansion, [ios/Classes], radii above 3 *)

Lemma positive_at_cell temp width height i x y :
  sized temp (width * height) -> in_grid width height x y ->
  i = y * width + x ->
  Ios.positive_at temp i = Ok (lit temp width x y).
Proof.
  intros Hs Hg ->. unfold Ios.positive_at, lit, sized in *.
  pose proof (cell_index_range _ _ _ _ Hg) as Hi.
  destruct (load_ok temp (y * width + x) ltac:(lia)) as (v & -> & ->).
  reflexivity.
Qed.

Lemma lit_painted (S : Z -> Z -> Prop) width height temp x y :
  painted S width height temp -> in_grid width height x y ->
  lit temp width x y = true <-> S x y.
Proof.
  intros [_ Hp] Hg. unfold lit.
  destruct (Hp x y Hg) as [[H1 ->] | [H1 ->]]; split; intros H;
    first [ exact H1 | reflexivity | contradiction | vm_compute in H; discriminate ].
Qed.

Lemma in_gridb_spec width height x y :
  in_gridb width height x y = true <-> in_grid width height x y.
Proof. unfold in_gridb, in_grid. rewrite !andb_true_iff. lia. Qed.

Lemma near_spec (S : Z -> Z -> Prop) width height temp x y :
  painted S width height temp ->
  near temp width height x y = true <->
  exists dx dy, -1 <= dx <= 1 /\ -1 <= dy <= 1 /\ (dx <> 0 \/ dy <> 0) /\
                in_grid width height (x + dx) (y + dy) /\ S (x + dx) (y + dy).
Proof.
  intros Hp. unfold near. rewrite existsb_exists. split.
  - intros ([dx dy] & Hin & Hb). cbn [fst snd] in Hb.
    apply andb_true_iff in Hb as [Hg Hl]. apply in_gridb_spec in Hg.
    apply (lit_painted S width height temp _ _ Hp Hg) in Hl.
    exists dx, dy. cbn [In] in Hin.
    repeat destruct Hin as [[= <- <-] | Hin]; try contradiction;
      (split; [lia|]); (split; [lia|]); (split; [lia|]); split; assumption.
  - intros (dx & dy & Hdx & Hdy & Hne & Hg & Hs).
    exists (dx, dy). cbn [fst snd]. split.
    + assert (dx = -1 \/ dx = 0 \/ dx = 1) as Hx by lia.
      assert (dy = -1 \/ dy = 0 \/ dy = 1) as Hy by lia.
      cbn [In].
      destruct Hx as [-> | [-> | ->]]; destruct Hy as [-> | [-> | ->]];
        try lia; tauto.
    + apply andb_true_iff. split; [apply in_gridb_spec; exact Hg|].
      apply (lit_painted S width height temp _ _ Hp Hg). exact Hs.
Qed.

(** One growth test: the cell [(x, y)] is set when it was clear in the
    snapshot [temp] and [hit] holds. *)
Lemma grow_at_painted (S V V' : Z -> Z -> Prop) width height temp out idx x y hit :
  idx = y * width + x ->
  painted S width height temp ->
  painted (fun tx ty => S tx ty \/ (V tx ty /\ near temp width height tx ty = true))
          width height out ->
  in_grid width height x y ->
  hit = Ok (near temp width height x y) ->
  (forall tx ty, in_grid width height tx ty ->
     (V' tx ty <-> V tx ty \/ (tx = x /\ ty = y))) ->
  exists out',
    Ios.grow_at temp idx hit out = Ok out' /\
    painted (fun tx ty => S tx ty \/ (V' tx ty /\ near temp width height tx ty = true))
            width height out'.
Proof.
  intros -> Ht Ho Hg -> HV. unfold Ios.grow_at.
  pose proof (cell_index_range _ _ _ _ Hg) as Hi.
  destruct Ht as [Hs Hp]. unfold sized in Hs.
  destruct (load_ok temp (y * width + x) ltac:(lia)) as (c & -> & Ec). cbn [bind].
  destruct (Hp x y Hg) as [[H1 E1] | [H1 E1]]; rewrite E1 in Ec; injection Ec as <-.
  - change (1 =? 0)%float with false. cbv iota.
    exists out. split; [reflexivity|]. revert Ho. apply painted_ext.
    intros tx ty Hgt. rewrite (HV tx ty Hgt). split; [tauto|].
    intros [H | [[H | [-> ->]] Hn]]; tauto.
  - change (0 =? 0)%float with true. cbv iota. cbn [bind].
    destruct (near temp width height x y) eqn:Hn.
    + destruct (painted_store _ width height out x y Ho Hg) as (out' & -> & Ho').
      exists out'. split; [reflexivity|]. revert Ho'. apply painted_ext.
      intros tx ty Hgt. rewrite (HV tx ty Hgt). split.
      * intros [[H | H] | [-> ->]]; [tauto | tauto | right; tauto].
      * intros [H | [[H | [-> ->]] Hn']]; tauto.
    + exists out. split; [reflexivity|]. revert Ho. apply painted_ext.
      intros tx ty Hgt. rewrite (HV tx ty Hgt). split; [tauto|].
      intros [H | [[H | [-> ->]] Hn']]; [tauto | tauto | congruence].
Qed.

Ltac settle_grid :=
  repeat match goal with
         | |- context [Z.leb ?a ?b] => destruct (Z.leb_spec a b); try lia
         | |- context [Z.ltb ?a ?b] => destruct (Z.ltb_spec a b); try lia
         end;
  cbn [andb orb];
  repeat match goal with
         | |- context [lit ?t ?w ?a ?b] => destruct (lit t w a b)
         end;
  reflexivity.

Ltac read_cell temp width height i a b :=
  rewrite (positive_at_cell temp width height i a b)
    by (try assumption; unfold in_grid; lia).

(** The neighbour tests of the five kinds of cells *)
Lemma interior_hit temp width height x y :
  sized temp (width * height) ->
  1 <= x < width - 1 -> 1 <= y < height - 1 ->
  Ios.or_else (Ios.positive_at temp (y * width + x - width - 1))
  (Ios.or_else (Ios.positive_at temp (y * width + x - width))
  (Ios.or_else (Ios.positive_at temp (y * width + x - width + 1))
  (Ios.or_else (Ios.positive_at temp (y * width + x - 1))
  (Ios.or_else (Ios.positive_at temp (y * width + x + 1))
  (Ios.or_else (Ios.positive_at temp (y * width + x + width - 1))
  (Ios.or_else (Ios.positive_at temp (y * width + x + width))
               (Ios.positive_at temp (y * width + x + width + 1))))))))
  = Ok (near temp width height x y).
Proof.
  intros Hs Hx Hy.
  read_cell temp width height (y * width + x - width - 1) (x + -1) (y + -1).
  read_cell temp width height (y * width + x - width) (x + 0) (y + -1).
  read_cell temp width height (y * width + x - width + 1) (x + 1) (y + -1).
  read_cell temp width height (y * width + x - 1) (x + -1) (y + 0).
  read_cell temp width height (y * width + x + 1) (x + 1) (y + 0).
  read_cell temp width height (y * width + x + width - 1) (x + -1) (y + 1).
  read_cell temp width height (y * width + x + width) (x + 0) (y + 1).
  read_cell temp width height (y * width + x + width + 1) (x + 1) (y + 1).
  unfold near, in_gridb. cbn [existsb fst snd Ios.or_else bind]. settle_grid.
Qed.

Lemma top_hit temp width height x :
  sized temp (width * height) -> 2 <= width -> 2 <= height -> 0 <= x < width ->
  Ios.or_else (Ios.and_then (0 <? x) (Ios.positive_at temp (x - 1)))
  (Ios.or_else (Ios.and_then (x <? width - 1) (Ios.positive_at temp (x + 1)))
  (Ios.or_else (Ios.positive_at temp (width + x))
  (Ios.or_else (Ios.and_then (0 <? x) (Ios.positive_at temp (width + x - 1)))
               (Ios.and_then (x <? width - 1)
                             (Ios.positive_at temp (width + x + 1))))))
  = Ok (near temp width height x 0).
Proof.
  intros Hs Hw Hh Hx.
  read_cell temp width height (width + x) (x + 0) (0 + 1).
  destruct (Z.ltb_spec 0 x); destruct (Z.ltb_spec x (width - 1));
    cbn [Ios.and_then];
    try read_cell temp width height (x - 1) (x + -1) (0 + 0);
    try read_cell temp width height (x + 1) (x + 1) (0 + 0);
    try read_cell temp width height (width + x - 1) (x + -1) (0 + 1);
    try read_cell temp width height (width + x + 1) (x + 1) (0 + 1);
    unfold near, in_gridb; cbn [existsb fst snd Ios.or_else bind]; settle_grid.
Qed.

Lemma bottom_hit temp width height x :
  sized temp (width * height) -> 2 <= width -> 2 <= height -> 0 <= x < width ->
  Ios.or_else (Ios.and_then (0 <? x)
                 (Ios.positive_at temp ((height - 1) * width + x - 1)))
  (Ios.or_else (Ios.and_then (x <? width - 1)
                  (Ios.positive_at temp ((height - 1) * width + x + 1)))
  (Ios.or_else (Ios.positive_at temp ((height - 1) * width + x - width))
  (Ios.or_else (Ios.and_then (0 <? x)
                  (Ios.positive_at temp ((height - 1) * width + x - width - 1)))
               (Ios.and_then (x <? width - 1)
                  (Ios.positive_at temp ((height - 1) * width + x - width + 1))))))
  = Ok (near temp width height x (height - 1)).
Proof.
  intros Hs Hw Hh Hx.
  read_cell temp width height ((height - 1) * width + x - width) (x + 0)
    (height - 1 + -1).
  destruct (Z.ltb_spec 0 x); destruct (Z.ltb_spec x (width - 1));
    cbn [Ios.and_then];
    try read_cell temp width height ((height - 1) * width + x - 1) (x + -1)
          (height - 1 + 0);
    try read_cell temp width height ((height - 1) * width + x + 1) (x + 1)
          (height - 1 + 0);
    try read_cell temp width height ((height - 1) * width + x - width - 1) (x + -1)
          (height - 1 + -1);
    try read_cell temp width height ((height - 1) * width + x - width + 1) (x + 1)
          (height - 1 + -1);
    unfold near, in_gridb; cbn [existsb fst snd Ios.or_else bind]; settle_grid.
Qed.

Lemma left_hit temp width height y :
  sized temp (width * height) -> 2 <= width -> 1 <= y < height - 1 ->
  Ios.or_else (Ios.positive_at temp (y * width - width))
  (Ios.or_else (Ios.positive_at temp (y * width - width + 1))
  (Ios.or_else (Ios.positive_at temp (y * width + 1))
  (Ios.or_else (Ios.positive_at temp (y * width + width))
               (Ios.positive_at temp (y * width + width + 1)))))
  = Ok (near temp width height 0 y).
Proof.
  intros Hs Hw Hy.
  read_cell temp width height (y * width - width) (0 + 0) (y + -1).
  read_cell temp width height (y * width - width + 1) (0 + 1) (y + -1).
  read_cell temp width height (y * width + 1) (0 + 1) (y + 0).
  read_cell temp width height (y * width + width) (0 + 0) (y + 1).
  read_cell temp width height (y * width + width + 1) (0 + 1) (y + 1).
  unfold near, in_gridb. cbn [existsb fst snd Ios.or_else bind]. settle_grid.
Qed.

Lemma right_hit temp width height y :
  sized temp (width * height) -> 2 <= width -> 1 <= y < height - 1 ->
  Ios.or_else (Ios.positive_at temp (y * width + width - 1 - width - 1))
  (Ios.or_else (Ios.positive_at temp (y * width + width - 1 - width))
  (Ios.or_else (Ios.positive_at temp (y * width + width - 1 - 1))
  (Ios.or_else (Ios.positive_at temp (y * width + width - 1 + width - 1))
               (Ios.positive_at temp (y * width + width - 1 + width)))))
  = Ok (near temp width height (width - 1) y).
Proof.
  intros Hs Hw Hy.
  read_cell temp width height (y * width + width - 1 - width - 1) (width - 1 + -1)
    (y + -1).
  read_cell temp width height (y * width + width - 1 - width) (width - 1 + 0)
    (y + -1).
  read_cell temp width height (y * width + width - 1 - 1) (width - 1 + -1) (y + 0).
  read_cell temp width height (y * width + width - 1 + width - 1) (width - 1 + -1)
    (y + 1).
  read_cell temp width height (y * width + width - 1 + width) (width - 1 + 0)
    (y + 1).
  unfold near, in_gridb. cbn [existsb fst snd Ios.or_else bind]. settle_grid.
Qed.

(** One round of the iterative branch: every cell that is clear in the
    snapshot and has a positive neighbour in it is set. *)
Lemma ios_dilation_round (S : Z -> Z -> Prop) width height temp out :
  2 <= width -> 2 <= height ->
  painted S width height temp -> painted S width height out ->
  exists out',
    (let* output := for_range 1 (height - 1) (fun y output =>
       for_range 1 (width - 1) (fun x output =>
         Ios.grow_at temp (y * width + x)
           (Ios.or_else (Ios.positive_at temp (y * width + x - width - 1))
           (Ios.or_else (Ios.positive_at temp (y * width + x - width))
           (Ios.or_else (Ios.positive_at temp (y * width + x - width + 1))
           (Ios.or_else (Ios.positive_at temp (y * width + x - 1))
           (Ios.or_else (Ios.positive_at temp (y * width + x + 1))
           (Ios.or_else (Ios.positive_at temp (y * width + x + width - 1))
           (Ios.or_else (Ios.positive_at temp (y * width + x + width))
                        (Ios.positive_at temp (y * width + x + width + 1)))))))))
           output) output) out in
     let* output := for_range 0 width (fun x output =>
       let* output := Ios.grow_at temp x
         (Ios.or_else (Ios.and_then (0 <? x) (Ios.positive_at temp (x - 1)))
         (Ios.or_else (Ios.and_then (x <? width - 1) (Ios.positive_at temp (x + 1)))
         (Ios.or_else (Ios.positive_at temp (width + x))
         (Ios.or_else (Ios.and_then (0 <? x) (Ios.positive_at temp (width + x - 1)))
                      (Ios.and_then (x <? width - 1)
                                    (Ios.positive_at temp (width + x + 1)))))))
         output in
       Ios.grow_at temp ((height - 1) * width + x)
         (Ios.or_else (Ios.and_then (0 <? x)
                         (Ios.positive_at temp ((height - 1) * width + x - 1)))
         (Ios.or_else (Ios.and_then (x <? width - 1)
                         (Ios.positive_at temp ((height - 1) * width + x + 1)))
         (Ios.or_else (Ios.positive_at temp ((height - 1) * width + x - width))
         (Ios.or_else (Ios.and_then (0 <? x)
                         (Ios.positive_at temp ((height - 1) * width + x - width - 1)))
                      (Ios.and_then (x <? width - 1)
                         (Ios.positive_at temp
                            ((height - 1) * width + x - width + 1)))))))
         output) output in
     let* output := for_range 1 (height - 1) (fun y output =>
       let* output := Ios.grow_at temp (y * width)
         (Ios.or_else (Ios.positive_at temp (y * width - width))
         (Ios.or_else (Ios.positive_at temp (y * width - width + 1))
         (Ios.or_else (Ios.positive_at temp (y * width + 1))
         (Ios.or_else (Ios.positive_at temp (y * width + width))
                      (Ios.positive_at temp (y * width + width + 1))))))
         output in
       Ios.grow_at temp (y * width + width - 1)
         (Ios.or_else (Ios.positive_at temp (y * width + width - 1 - width - 1))
         (Ios.or_else (Ios.positive_at temp (y * width + width - 1 - width))
         (Ios.or_else (Ios.positive_at temp (y * width + width - 1 - 1))
         (Ios.or_else (Ios.positive_at temp (y * width + width - 1 + width - 1))
                      (Ios.positive_at temp (y * width + width - 1 + width))))))
         output) output in
     Ok (temp, output))
    = Ok (temp, out') /\
    painted (fun x y => S x y \/ near temp width height x y = true)
            width height out'.
Proof.
  intros Hw Hh Ht Ho.
  pose proof (painted_sized _ _ _ _ Ht) as Hs.
  set (P := fun (V : Z -> Z -> Prop) (tx ty : Z) =>
              S tx ty \/ (V tx ty /\ near temp width height tx ty = true)).
  set (inner := fun tx ty : Z => 1 <= tx < width - 1 /\ 1 <= ty < height - 1).
  set (V1 := fun (yy xx tx ty : Z) =>
               inner tx ty /\ (ty < yy \/ (ty = yy /\ tx < xx))).
  set (V2 := fun (xx tx ty : Z) =>
               inner tx ty \/ ((ty = 0 \/ ty = height - 1) /\ tx < xx)).
  set (V3 := fun (yy tx ty : Z) =>
               inner tx ty \/ ty = 0 \/ ty = height - 1 \/
               ((tx = 0 \/ tx = width - 1) /\ ty < yy)).
  assert (forall (V V' : Z -> Z -> Prop) o,
            (forall tx ty, in_grid width height tx ty -> (V tx ty <-> V' tx ty)) ->
            painted (P V) width height o -> painted (P V') width height o) as Pext.
  { intros V V' o HV. apply painted_ext. intros tx ty Hg. unfold P.
    rewrite (HV tx ty Hg). tauto. }
  (* interior *)
  match goal with
  | |- context [for_range 1 (height - 1) ?body out] =>
      destruct (for_range_inv (fun y o => painted (P (V1 y 1)) width height o)
                  body 1 (height - 1) out) as (o1 & E1 & HP1)
  end.
  { lia. }
  { revert Ho. apply painted_ext. intros tx ty _. unfold P, V1. split; [tauto|].
    intros [H | [[Hi H] _]]; [exact H | unfold inner in Hi; lia]. }
  { intros y o Hy Hpo. cbv beta.
    match goal with
    | |- context [for_range 1 (width - 1) ?body o] =>
        destruct (for_range_inv (fun x o' => painted (P (V1 y x)) width height o')
                    body 1 (width - 1) o) as (o' & E & HP)
    end.
    - lia.
    - exact Hpo.
    - intros x o' Hx Hpo'. cbv beta.
      rewrite (interior_hit temp width height x y Hs Hx Hy).
      apply (grow_at_painted S (V1 y x) (V1 y (x + 1)) width height temp o' _ x y
               _ eq_refl Ht Hpo' ltac:(unfold in_grid; lia) eq_refl).
      intros tx ty Hg. unfold V1, inner. lia.
    - exists o'. split; [exact E|]. revert HP. apply Pext.
      intros tx ty Hg. unfold V1, inner. lia. }
  rewrite E1. cbn [bind].
  (* top and bottom rows *)
  match goal with
  | |- context [for_range 0 width ?body o1] =>
      destruct (for_range_inv (fun x o => painted (P (V2 x)) width height o)
                  body 0 width o1) as (o2 & E2 & HP2)
  end.
  { lia. }
  { revert HP1. apply Pext. intros tx ty Hg. unfold V1, V2, inner, in_grid in *. lia. }
  { intros x o Hx Hpo. cbv beta.
    rewrite (top_hit temp width height x Hs Hw Hh Hx).
    destruct (grow_at_painted S (V2 x) (fun tx ty => V2 x tx ty \/ (tx = x /\ ty = 0))
                width height temp o x x 0 (Ok (near temp width height x 0))
                ltac:(lia) Ht Hpo ltac:(unfold in_grid; lia) eq_refl
                ltac:(intros; tauto))
      as (o' & -> & Hpo').
    cbn [bind]. rewrite (bottom_hit temp width height x Hs Hw Hh Hx).
    apply (grow_at_painted S _ (V2 (x + 1)) width height temp o' _ x (height - 1)
             _ eq_refl Ht Hpo' ltac:(unfold in_grid; lia) eq_refl).
    intros tx ty Hg. unfold V2, inner, in_grid in *. lia. }
  rewrite E2. cbn [bind].
  (* left and right columns *)
  match goal with
  | |- context [for_range 1 (height - 1) ?body o2] =>
      destruct (for_range_inv (fun y o => painted (P (V3 y)) width height o)
                  body 1 (height - 1) o2) as (o3 & E3 & HP3)
  end.
  { lia. }
  { revert HP2. apply Pext. intros tx ty Hg. unfold V2, V3, inner, in_grid in *. lia. }
  { intros y o Hy Hpo. cbv beta.
    rewrite (left_hit temp width height y Hs Hw Hy).
    destruct (grow_at_painted S (V3 y) (fun tx ty => V3 y tx ty \/ (tx = 0 /\ ty = y))
                width height temp o (y * width) 0 y
                (Ok (near temp width height 0 y))
                ltac:(lia) Ht Hpo ltac:(unfold in_grid; lia) eq_refl
                ltac:(intros; tauto))
      as (o' & -> & Hpo').
    cbn [bind]. rewrite (right_hit temp width height y Hs Hw Hy).
    apply (grow_at_painted S _ (V3 (y + 1)) width height temp o'
             (y * width + width - 1) (width - 1) y _ ltac:(lia) Ht Hpo' ltac:(unfold in_grid; lia) eq_refl).
    intros tx ty Hg. unfold V3, inner, in_grid in *. lia. }
  rewrite E3. cbn [bind]. exists o3. split; [reflexivity|].
  revert HP3. apply painted_ext. intros tx ty Hg. unfold P, V3, inner.
  split; [tauto|]. intros [H | H]; [tauto|]. right. split; [|exact H].
  unfold in_grid in Hg. lia.
Qed.

Lemma covered_by_square_grow mask width height radius x y :
  0 <= radius -> in_grid width height x y ->
  covered_by_square mask width height (radius + 1) x y <->
  covered_by_square mask width height radius x y \/
  exists dx dy, -1 <= dx <= 1 /\ -1 <= dy <= 1 /\ (dx <> 0 \/ dy <> 0) /\
    in_grid width height (x + dx) (y + dy) /\
    covered_by_square mask width height radius (x + dx) (y + dy).
Proof.
  intros Hr Hg. unfold covered_by_square. split.
  - intros (fx & fy & Hgf & Hf & Hx & Hy).
    destruct (Z.eq_dec fx x) as [-> | Hnx]; [destruct (Z.eq_dec fy y) as [-> | Hny]|].
    + left. exists x, y. repeat split; try apply Hg; try assumption; lia.
    + right. exists 0, (Z.sgn (fy - y)).
      repeat split; try lia; unfold in_grid in *; try lia.
      exists x, fy. repeat split; try apply Hgf; try assumption; lia.
    + right. exists (Z.sgn (fx - x)), (Z.sgn (fy - y)).
      repeat split; try lia; unfold in_grid in *; try lia.
      exists fx, fy. repeat split; try apply Hgf; try assumption; lia.
  - intros [(fx & fy & Hgf & Hf & Hx & Hy)
           | (dx & dy & Hdx & Hdy & _ & _ & fx & fy & Hgf & Hf & Hx & Hy)];
      exists fx, fy; repeat split; try apply Hgf; try assumption; lia.
Qed.

Lemma covered_by_square_0 mask width height x y :
  in_grid width height x y ->
  covered_by_square mask width height 0 x y <-> foreground_at mask width x y.
Proof.
  intros Hg. unfold covered_by_square. split.
  - intros (fx & fy & _ & Hf & Hx & Hy).
    assert (x = fx /\ y = fy) as [-> ->] by lia. exact Hf.
  - intros Hf. exists x, y. repeat split; try apply Hg; try assumption; lia.
Qed.

(** The iterative branch computes the dilation by the square of side
    [2 * border_width + 1]. *)
Lemma ios_expand_mask_square mask output width height border_width temp_buffer :
  2 <= width -> 2 <= height -> 3 < border_width ->
  sized mask (width * height) -> sized output (width * height) ->
  sized temp_buffer (width * height) ->
  exists output',
    Ios.expand_mask_native (Some mask) (Some output) width height border_width
      (Some temp_buffer)
    = Ok (MASK_PROCESSOR_SUCCESS, Some output') /\
    painted (covered_by_square mask width height border_width) width height output'.
Proof.
  intros Hw Hh Hbw Hmk Hout Htmp. unfold Ios.expand_mask_native.
  destruct (Z.leb_spec width 0); [lia|]. destruct (Z.leb_spec height 0); [lia|].
  destruct (Z.ltb_spec border_width 0); [lia|].
  destruct (Z.eqb_spec border_width 0); [lia|].
  destruct (Z.leb_spec border_width 3); [lia|]. cbn [orb].
  rewrite (memset_zero_all output (width * height)) by (try assumption; nia).
  cbn [bind].
  destruct (ios_first_pass mask (width * height) ltac:(nia) Hmk)
    as (output2 & -> & Hs2 & Hthr).
  cbn [bind].
  assert (painted (covered_by_square mask width height 0) width height output2) as P0.
  { split; [exact Hs2|]. intros x y Hg.
    pose proof (cell_index_range _ _ _ _ Hg) as Hi. unfold sized in Hmk.
    destruct (lookup_lt_is_Some_2 mask (Z.to_nat (y * width + x)) ltac:(lia))
      as (v & Ev).
    rewrite (Hthr (y * width + x) v ltac:(lia) Ev). rewrite (covered_by_square_0 _ _ _ _ _ Hg).
    unfold foreground_at. rewrite Ev.
    destruct (0.5 <? v)%float eqn:Hv.
    - left. split; [|reflexivity]. exists v. split; [reflexivity | exact Hv].
    - right. split; [|reflexivity]. intros (v' & [= <-] & Hv'). congruence. }
  match goal with
  | |- context [for_range 0 border_width ?body ?init] =>
      destruct (for_range_inv
                  (fun iter (st : list float * list float) =>
                     sized (fst st) (width * height) /\
                     painted (covered_by_square mask width height iter)
                             width height (snd st))
                  body 0 border_width init) as ([t' o'] & E & _ & HP)
  end.
  - lia.
  - split; [exact Htmp | exact P0].
  - intros iter [t o] Hiter [Ht Ho]. cbn [fst snd] in Ht, Ho. cbv beta iota zeta.
    rewrite (memcpy_all t o (width * height) Ht (painted_sized _ _ _ _ Ho)).
    cbn [bind].
    destruct (ios_dilation_round _ width height o o Hw Hh Ho Ho) as (o2 & E & HP).
    cbv beta in E. rewrite E. eexists. split; [reflexivity|]. cbn [fst snd].
    split; [exact (painted_sized _ _ _ _ Ho)|].
    revert HP. apply painted_ext. intros x y Hg.
    rewrite (near_spec _ width height o x y Ho).
    symmetry. apply covered_by_square_grow; [lia | exact Hg].
  - rewrite E. cbn [bind]. exists o'. split; [reflexivity | exact HP].
Qed.

(** X18: for a radius above 3, on a grid of at least 2 x 2 cells,
    [expand_mask_native] of [ios/Classes] sets exactly the cells within
    Chebyshev distance [border_width] of a foreground cell (the dilation
    by a square, not by a disk); the other cells are 0.0. *)
Theorem ios_expand_large_radius
    mask output width height border_width temp_buffer :
  2 <= width -> 2 <= height -> 3 < border_width ->
  sized mask (width * height) -> sized output (width * height) ->
  sized temp_buffer (width * height) ->
  exists output',
    Ios.expand_mask_native (Some mask) (Some output) width height border_width
      (Some temp_buffer)
    = Ok (MASK_PROCESSOR_SUCCESS, Some output') /\
    forall x y, in_grid width height x y ->
      (output' !! Z.to_nat (y * width + x) = Some 1%float
       <-> covered_by_square mask width height border_width x y) /\
      (output' !! Z.to_nat (y * width + x) = Some 0%float
       <-> ~ covered_by_square mask width height border_width x y).
Proof.
  intros Hw Hh Hbw Hmk Hout Htmp.
  destruct (ios_expand_mask_square mask output width height border_width
              temp_buffer Hw Hh Hbw Hmk Hout Htmp) as (output' & E & HP).
  exists output'. split; [exact E|]. intros x y Hg.
  exact (painted_iff _ _ _ _ _ _ HP Hg).
Qed.

Lemma ios_expand_large_radius_witness :
  exists output',
    Ios.expand_mask_native (Some corner_4x4) (Some (replicate 16 0%float)) 4 4 4
      (Some (replicate 16 0%float))
    = Ok (MASK_PROCESSOR_SUCCESS, Some output') /\
    forall x y, in_grid 4 4 x y ->
      (output' !! Z.to_nat (y * 4 + x) = Some 1%float
       <-> covered_by_square corner_4x4 4 4 4 x y) /\
      (output' !! Z.to_nat (y * 4 + x) = Some 0%float
       <-> ~ covered_by_square corner_4x4 4 4 4 x y).
Proof.
  apply (ios_expand_large_radius corner_4x4 (replicate 16 0%float) 4 4 4
           (replicate 16 0%float)); try lia; reflexivity.
Defined.

(** X19: on a grid of at least 2 x 2 cells and for every radius from 1
    whose squares stay in the range of [int], every cell set by
    [expand_mask_native] of [src/native] is set by the one of
    [ios/Classes]. *)
Theorem ios_expand_covers_native
    mask output output' width height border_width temp_buffer :
  2 <= width -> 2 <= height -> 1 <= border_width ->
  squares_in_range width height border_width ->
  sized mask (width * height) -> sized output (width * height) ->
  sized output' (width * height) -> sized temp_buffer (width * height) ->
  exists ios native,
    Ios.expand_mask_native (Some mask) (Some output) width height border_width
      (Some temp_buffer)
    = Ok (MASK_PROCESSOR_SUCCESS, Some ios) /\
    Native.expand_mask_native (Some mask) (Some output') width height
      border_width
    = Ok (MASK_PROCESSOR_SUCCESS, Some native) /\
    forall x y, in_grid width height x y ->
      native !! Z.to_nat (y * width + x) = Some 1%float ->
      ios !! Z.to_nat (y * width + x) = Some 1%float.
Proof.
  intros Hw Hh Hbw Hsq Hmk Hout Hout' Htmp.
  destruct (native_expand_mask_disk mask output' width height border_width
              ltac:(lia) ltac:(lia) ltac:(lia) Hsq Hmk Hout')
    as (native & E' & HP').
  destruct (Z_le_gt_dec border_width 3) as [Hs | Hl].
  - destruct (ios_expand_mask_small mask output width height border_width
                (Some temp_buffer) ltac:(lia) ltac:(lia) ltac:(lia) Hmk Hout)
      as (ios & E & HP).
    exists ios, native. split; [exact E|]. split; [exact E'|].
    intros x y Hg Hn.
    apply (painted_iff _ _ _ _ _ _ HP Hg).
    apply (painted_iff _ _ _ _ _ _ HP' Hg) in Hn.
    apply covered_covered_by_index. exact Hn.
  - destruct (ios_expand_mask_square mask output width height border_width
                temp_buffer Hw Hh ltac:(lia) Hmk Hout Htmp) as (ios & E & HP).
    exists ios, native. split; [exact E|]. split; [exact E'|].
    intros x y Hg Hn.
    apply (painted_iff _ _ _ _ _ _ HP Hg).
    apply (painted_iff _ _ _ _ _ _ HP' Hg) in Hn.
    destruct Hn as (fx & fy & Hgf & Hf & Hwi & _). unfold within in Hwi.
    exists fx, fy. split; [exact Hgf|]. split; [exact Hf|].
    pose proof (Z.square_nonneg (x - fx)). pose proof (Z.square_nonneg (y - fy)).
    split; apply Z.abs_le; split; nia.
Qed.

Lemma ios_expand_covers_native_witness :
  exists ios native,
    Ios.expand_mask_native (Some corner_4x4) (Some (replicate 16 0%float)) 4 4 4
      (Some (replicate 16 0%float))
    = Ok (MASK_PROCESSOR_SUCCESS, Some ios) /\
    Native.expand_mask_native (Some corner_4x4) (Some (replicate 16 0%float)) 4 4 4
    = Ok (MASK_PROCESSOR_SUCCESS, Some native) /\
    forall x y, in_grid 4 4 x y ->
      native !! Z.to_nat (y * 4 + x) = Some 1%float ->
      ios !! Z.to_nat (y * 4 + x) = Some 1%float.
Proof.
  apply (ios_expand_covers_native corner_4x4 (replicate 16 0%float)
           (replicate 16 0%float) 4 4 4 (replicate 16 0%float));
    first [ lia | reflexivity | unfold squares_in_range, INT_MAX; lia ].
Defined.

(** * Bounds and buffer contents *)

Lemma for_range_first_fault {S : Type} (body : Z -> S -> exec S) lo hi s f :
  lo < hi -> body lo s = Fault f -> for_range lo hi body s = Fault f.
Proof.
  intros H E. unfold for_range.
  destruct (Z.to_nat (hi - lo)) as [| n] eqn:En; [lia|].
  cbn [for_loop]. rewrite E. reflexivity.
Qed.

Lemma load_out_of_bounds {A : Type} (buf : list A) i :
  Z.of_nat (length buf) <= i -> load buf i = Fault OutOfBounds.
Proof.
  intros H. unfold load. destruct (Z.ltb_spec i 0); [reflexivity|].
  rewrite lookup_ge_None_2 by lia. reflexivity.
Qed.

(** X20: on every grid of a single row whose two leftmost cells are not
    foreground, [expand_mask_native] of [ios/Classes] with a radius above 3
    reads [temp_buffer[width]], outside the buffer. *)
Theorem ios_expand_one_row_out_of_bounds
    mask output width border_width temp_buffer :
  1 <= width -> 3 < border_width ->
  sized mask width -> sized output width -> sized temp_buffer width ->
  (forall x v, 0 <= x <= 1 -> mask !! Z.to_nat x = Some v ->
               (0.5 <? v)%float = false) ->
  Ios.expand_mask_native (Some mask) (Some output) width 1 border_width
    (Some temp_buffer)
  = Fault OutOfBounds.
Proof.
  intros Hw Hbw Hmk Hout Htmp Hclear. unfold Ios.expand_mask_native.
  destruct (Z.leb_spec width 0); [lia|].
  destruct (Z.ltb_spec border_width 0); [lia|].
  destruct (Z.eqb_spec border_width 0); [lia|].
  destruct (Z.leb_spec border_width 3); [lia|]. cbn [orb Z.leb Z.compare].
  rewrite Z.mul_1_r in *.
  rewrite (memset_zero_all output width) by (try assumption; lia). cbn [bind].
  destruct (ios_first_pass mask width ltac:(lia) Hmk) as (output2 & -> & Hs2 & Hthr).
  cbn [bind].
  assert (forall x, 0 <= x <= 1 -> x < width ->
            output2 !! Z.to_nat x = Some 0%float) as Hzero.
  { intros x Hx Hxw. unfold sized in Hmk.
    destruct (lookup_lt_is_Some_2 mask (Z.to_nat x) ltac:(lia)) as (v & Ev).
    rewrite (Hthr x v ltac:(lia) Ev), (Hclear x v Hx Ev). reflexivity. }
  match goal with
  | |- bind ?m _ = _ => assert (m = Fault OutOfBounds) as ->; [|reflexivity]
  end.
  apply for_range_first_fault; [lia|]. cbv beta iota zeta.
  rewrite (memcpy_all temp_buffer output2 width Htmp Hs2). cbn [bind].
  rewrite for_range_empty by lia. cbn [bind].
  match goal with
  | |- bind ?m _ = _ => assert (m = Fault OutOfBounds) as ->; [|reflexivity]
  end.
  apply for_range_first_fault; [lia|]. cbv beta.
  match goal with
  | |- bind ?m _ = _ => assert (m = Fault OutOfBounds) as ->; [|reflexivity]
  end.
  unfold Ios.grow_at.
  rewrite (load_lookup output2 0 0%float ltac:(lia) (Hzero 0 ltac:(lia) ltac:(lia))).
  cbn [bind]. change (0 =? 0)%float with true. cbv iota.
  match goal with
  | |- bind ?m _ = _ => assert (m = Fault OutOfBounds) as ->; [|reflexivity]
  end.
  cbn [Z.ltb Z.compare Ios.and_then Ios.or_else bind].
  assert (Ios.and_then (0 <? width - 1) (Ios.positive_at output2 (0 + 1)) = Ok false)
    as ->.
  { destruct (Z.ltb_spec 0 (width - 1)); [|reflexivity]. cbn [Ios.and_then].
    unfold Ios.positive_at.
    rewrite (load_lookup output2 (0 + 1) 0%float ltac:(lia)
               (Hzero 1 ltac:(lia) ltac:(lia))).
    reflexivity. }
  cbn [bind]. unfold Ios.positive_at at 1.
  rewrite load_out_of_bounds by (unfold sized in Hs2; lia). reflexivity.
Qed.

Lemma ios_expand_one_row_out_of_bounds_witness :
  Ios.expand_mask_native (Some [0; 0; 1]%float) (Some [0; 0; 0]%float) 3 1 4
    (Some [0; 0; 0]%float)
  = Fault OutOfBounds.
Proof.
  apply (ios_expand_one_row_out_of_bounds [0; 0; 1]%float [0; 0; 0]%float 3 4
           [0; 0; 0]%float); try lia; try reflexivity.
  intros x v Hx Ev.
  assert (x = 0 \/ x = 1) as [-> | ->] by lia; cbn in Ev; injection Ev as <-;
    reflexivity.
Defined.

Lemma grid_ext {A : Type} (o1 o2 : list A) width height :
  0 < width -> 0 < height ->
  sized o1 (width * height) -> sized o2 (width * height) ->
  (forall x y, in_grid width height x y ->
     o1 !! Z.to_nat (y * width + x) = o2 !! Z.to_nat (y * width + x)) ->
  o1 = o2.
Proof.
  unfold sized. intros Hw Hh H1 H2 H. apply list_eq. intros j.
  destruct (Z_lt_ge_dec (Z.of_nat j) (width * height)) as [Hj | Hj].
  - pose proof (Z.div_mod (Z.of_nat j) width ltac:(lia)) as Hdm.
    pose proof (Z.mod_pos_bound (Z.of_nat j) width Hw) as Hm.
    specialize (H (Z.of_nat j mod width) (Z.of_nat j / width)).
    replace (Z.to_nat (Z.of_nat j / width * width + Z.of_nat j mod width))
      with j in H by lia.
    apply H. split; [exact Hm|]. split; [apply Z.div_pos; lia|].
    apply Z.div_lt_upper_bound; lia.
  - rewrite !lookup_ge_None_2 by lia. reflexivity.
Qed.

(** X21: the results do not depend on what the output buffer and the
    freshly allocated scratch buffer hold on entry. *)
Theorem results_ignore_buffer_contents
    mask output output' temp temp' width height kernel_size border_width :
  2 <= width -> 2 <= height -> 0 < kernel_size -> 0 <= border_width ->
  sized mask (width * height) ->
  sized output (width * height) -> sized output' (width * height) ->
  sized temp (width * height) -> sized temp' (width * height) ->
  smooth_mask_native (Some mask) (Some output) width height kernel_size (Some temp)
  = smooth_mask_native (Some mask) (Some output') width height kernel_size
      (Some temp') /\
  Native.expand_mask_native (Some mask) (Some output) width height border_width
  = Native.expand_mask_native (Some mask) (Some output') width height
      border_width /\
  Ios.expand_mask_native (Some mask) (Some output) width height border_width
    (Some temp)
  = Ios.expand_mask_native (Some mask) (Some output') width height border_width
      (Some temp').
Proof.
  intros Hw Hh Hk Hbw Hmk Ho Ho' Ht Ht'.
  assert (0 < width) as Hw0 by lia. assert (0 < height) as Hh0 by lia.
  split; [|split].
  - destruct (Z.eq_dec kernel_size 1) as [-> | Hk1].
    + unfold smooth_mask_native.
      destruct (Z.leb_spec width 0); [lia|]. destruct (Z.leb_spec height 0); [lia|].
      cbn [orb Z.leb Z.compare].
      rewrite !(memcpy_all _ mask (width * height)) by assumption. reflexivity.
    + destruct (smooth_mask_native_run mask output width height kernel_size temp
                  Hw0 Hh0 ltac:(lia) Hmk Ho Ht) as (t1 & o1 & -> & Hs1 & Hh1 & Hv1).
      destruct (smooth_mask_native_run mask output' width height kernel_size temp'
                  Hw0 Hh0 ltac:(lia) Hmk Ho' Ht') as (t2 & o2 & -> & Hs2 & Hh2 & Hv2).
      do 3 f_equal. apply (grid_ext o1 o2 width height); try assumption.
      intros x y Hg. rewrite (Hv1 x y Hg), (Hv2 x y Hg). f_equal.
      unfold vertical_mean, mean. rewrite !length_fmap. f_equal. f_equal.
      apply Forall_fmap_ext_1. apply Forall_seqZ. intros ny Hny.
      assert (in_grid width height x ny) as Hg'.
      { destruct Hg as [Hx Hy]. split; [exact Hx | lia]. }
      rewrite (cell_lookup t1 _ _ (Hh1 x ny Hg')).
      rewrite (cell_lookup t2 _ _ (Hh2 x ny Hg')). reflexivity.
  - unfold Native.expand_mask_native.
    destruct (Z.leb_spec width 0); [lia|]. destruct (Z.leb_spec height 0); [lia|].
    destruct (Z.ltb_spec border_width 0); [lia|]. cbn [orb].
    rewrite !(memset_zero_all _ (width * height)) by (assumption || lia).
    reflexivity.
  - destruct (Z.eq_dec border_width 0) as [-> | Hb0].
    + unfold Ios.expand_mask_native.
      destruct (Z.leb_spec width 0); [lia|]. destruct (Z.leb_spec height 0); [lia|].
      cbn [orb Z.ltb Z.compare Z.eqb].
      rewrite !(memcpy_all _ mask (width * height)) by assumption. reflexivity.
    + destruct (Z_le_gt_dec border_width 3) as [Hs | Hl].
      * destruct (ios_expand_mask_small mask output width height border_width
                    (Some temp) Hw0 Hh0 ltac:(lia) Hmk Ho) as (o1 & -> & HP1).
        destruct (ios_expand_mask_small mask output' width height border_width
                    (Some temp') Hw0 Hh0 ltac:(lia) Hmk Ho') as (o2 & -> & HP2).
        do 3 f_equal. exact (painted_unique _ width height o1 o2 Hw0 Hh0 HP1 HP2).
      * destruct (ios_expand_mask_square mask output width height border_width
                    temp Hw Hh ltac:(lia) Hmk Ho Ht) as (o1 & -> & HP1).
        destruct (ios_expand_mask_square mask output' width height border_width
                    temp' Hw Hh ltac:(lia) Hmk Ho' Ht') as (o2 & -> & HP2).
        do 3 f_equal. exact (painted_unique _ width height o1 o2 Hw0 Hh0 HP1 HP2).
Qed.

Lemma results_ignore_buffer_contents_witness :
  smooth_mask_native (Some [1; 0; 0; 0]%float) (Some [0; 0; 0; 0]%float) 2 2 3
    (Some [0; 0; 0; 0]%float)
  = smooth_mask_native (Some [1; 0; 0; 0]%float) (Some [1; 1; 1; 1]%float) 2 2 3
      (Some [0.5; 0.5; 0.5; 0.5]%float) /\
  Native.expand_mask_native (Some [1; 0; 0; 0]%float) (Some [0; 0; 0; 0]%float)
    2 2 4
  = Native.expand_mask_native (Some [1; 0; 0; 0]%float) (Some [1; 1; 1; 1]%float)
      2 2 4 /\
  Ios.expand_mask_native (Some [1; 0; 0; 0]%float) (Some [0; 0; 0; 0]%float) 2 2 4
    (Some [0; 0; 0; 0]%float)
  = Ios.expand_mask_native (Some [1; 0; 0; 0]%float) (Some [1; 1; 1; 1]%float)
      2 2 4 (Some [0.5; 0.5; 0.5; 0.5]%float).
Proof.
  apply (results_ignore_buffer_contents [1; 0; 0; 0]%float [0; 0; 0; 0]%float
           [1; 1; 1; 1]%float [0; 0; 0; 0]%float [0.5; 0.5; 0.5; 0.5]%float
           2 2 3 4); try lia; reflexivity.
Defined.

(** * The range of the smoother

    Sums and means of doubles of the unit interval, from the rounding of
    [SpecFloat]'s addition and division. *)

Section SmoothRange.
Local Open Scope R_scope.

Lemma SFadd_normal a b ea1 ea2 eb1 eb2 :
  normal ea1 ea2 a -> normal eb1 eb2 b ->
  (-1074 <= Z.max ea1 eb1)%Z -> (Z.max ea2 eb2 + 1 <= 970)%Z ->
  rounds_to (SF2R a + SF2R b) (Z.max ea1 eb1) (Z.max ea2 eb2 + 2)
            (SFadd prec emax a b).
Proof.
  intros (ma & ea & -> & Hda & Hea) (mb & eb & -> & Hdb & Heb) Hlo Hhi.
  pose proof (normal_mantissa _ Hda) as Ha.
  pose proof (normal_mantissa _ Hdb) as Hb.
  cbn [SFadd SF2R cond_Zopp] in *.
  change IntDef.Z.min with Z.min. change IntDef.Z.add with Z.add.
  set (ez := Z.min ea eb). set (em := Z.max ea eb).
  assert (ez <= ea /\ ez <= eb /\ ea <= em /\ eb <= em /\ (em = ea \/ em = eb)
          /\ Z.max ea1 eb1 <= em /\ em <= Z.max ea2 eb2 /\ -1074 <= em <= 969)%Z
    as (Hza & Hzb & Hma & Hmb & Hmx & Hlo' & Hhi' & Hem) by (unfold ez, em; lia).
  clearbody ez em. clear Hea Heb Hlo Hhi Hda Hdb.
  destruct (shl_align_le ma ea ez Hza) as [HA _].
  destruct (shl_align_le mb eb ez Hzb) as [HB _].
  rewrite HA, HB.
  set (A := (Zpos ma * 2 ^ (ea - ez))%Z). set (B := (Zpos mb * 2 ^ (eb - ez))%Z).
  assert (forall m e, (ez <= e)%Z ->
            IZR (m * 2 ^ (e - ez)) * bpow ez = IZR m * bpow e) as Hval.
  { intros m e He. rewrite mult_IZR, <- (bpow_IZR (e - ez)) by lia.
    rewrite Rmult_assoc, <- bpow_plus. do 2 f_equal. lia. }
  pose proof (Hval (Zpos ma) ea ltac:(lia)) as VA. fold A in VA.
  pose proof (Hval (Zpos mb) eb ltac:(lia)) as VB. fold B in VB.
  assert (forall m e, (2 ^ 52 <= m < 2 ^ 53)%Z -> (ez <= e)%Z ->
            (2 ^ (52 + (e - ez)) <= m * 2 ^ (e - ez) < 2 ^ (53 + (e - ez)))%Z)
    as Hrange.
  { intros m e Hm He. rewrite !Z.pow_add_r by lia. split.
    - apply Z.mul_le_mono_nonneg_r; [apply Z.pow_nonneg|]; lia.
    - apply Z.mul_lt_mono_pos_r; [apply Z.pow_pos_nonneg|]; lia. }
  pose proof (Hrange (Zpos ma) ea Ha ltac:(lia)) as RA. fold A in RA.
  pose proof (Hrange (Zpos mb) eb Hb ltac:(lia)) as RB. fold B in RB.
  assert (2 ^ (52 + (em - ez)) <= A + B < 2 ^ (54 + (em - ez)))%Z as RS.
  { assert (2 ^ (53 + (ea - ez)) <= 2 ^ (53 + (em - ez)))%Z
      by (apply Z.pow_le_mono_r; lia).
    assert (2 ^ (53 + (eb - ez)) <= 2 ^ (53 + (em - ez)))%Z
      by (apply Z.pow_le_mono_r; lia).
    replace (54 + (em - ez))%Z with (Z.succ (53 + (em - ez))) by lia.
    rewrite Z.pow_succ_r by lia.
    assert (2 ^ (52 + (em - ez)) <= A \/ 2 ^ (52 + (em - ez)) <= B)%Z as Hor.
    { destruct Hmx as [-> | ->]; [left | right]; lia. }
    clear - H H0 Hor RA RB. lia. }
  destruct (A + B)%Z as [| p | p] eqn:Hp; try lia.
  cbn [binary_normalize].
  pose proof (digits2_pos_bounds p) as Hdp.
  set (d := Zpos (digits2_pos p)) in *.
  assert (53 + (em - ez) <= d <= 54 + (em - ez))%Z as Hd.
  { assert (0 < d)%Z as Hd0 by (unfold d; lia).
    clearbody d. clear - RS Hdp Hd0 Hza Hma. split.
    - assert (52 + (em - ez) < d)%Z; [|lia].
      apply (Z.pow_lt_mono_r_iff 2); lia.
    - assert (d - 1 < 54 + (em - ez))%Z; [|lia].
      apply (Z.pow_lt_mono_r_iff 2); lia. }
  destruct (binary_round_normal p ez) as (M & HR & HEq);
    [fold d; clear - Hd Hem; lia|].
  fold d in HR, HEq.
  exists M, (d + ez - 53)%Z.
  split; [|split; [clear - Hd Hlo' Hhi'; lia | exact HEq]].
  replace (IZR (Zpos ma) * bpow ea + IZR (Zpos mb) * bpow eb)
    with (IZR (Zpos p) * bpow ez); [exact HR|].
  rewrite <- VA, <- VB, <- Hp, plus_IZR. ring.
Qed.

(** A normal float is the rounding of its own value. *)
Lemma normal_rounds_to elo ehi f :
  normal elo ehi f -> rounds_to (SF2R f) elo (ehi + 1) f.
Proof.
  intros (m & e & -> & Hd & He). pose proof (normal_mantissa _ Hd) as Hm.
  exists (Zpos m), e. split; [|split; [lia|]].
  - cbn [SF2R cond_Zopp]. pose proof (bpow_gt_0 e) as Hb.
    assert (IZR (2 ^ 52) <= IZR (Zpos m) < IZR (2 ^ 53)) as [H1 H2]
      by (split; [apply IZR_le | apply IZR_lt]; lia).
    split; [lia|]. split; [split; nra|]. split; [split; nra|].
    intros [H | H]; nra.
  - unfold normal_float. destruct (Z.eqb_spec (Zpos m) (2 ^ 53)); [lia|].
    reflexivity.
Qed.

Lemma normal_exponent_bound elo ehi f :
  normal elo ehi f -> SF2R f <= IZR (2 ^ 31) -> (elo <= -21)%Z ->
  normal elo (-21) f.
Proof.
  intros (m & e & -> & Hd & He) Hv Hlo. pose proof (normal_mantissa _ Hd) as Hm.
  exists m, e. split; [reflexivity|]. split; [exact Hd|]. split; [lia|].
  destruct (Z_le_gt_dec e (-21)) as [H | H]; [exact H | exfalso].
  cbn [SF2R cond_Zopp] in Hv.
  assert (IZR (2 ^ 52) <= IZR (Zpos m)) as H1 by (apply IZR_le; lia).
  pose proof (bpow_le (-20) e ltac:(lia)) as H2.
  change (bpow (-20)) with (bpow (Z.opp 20)) in H2.
  rewrite bpow_opp, (bpow_IZR 20) in H2 by lia.
  assert (0 < IZR (2 ^ 20)) as H3 by (apply IZR_lt; lia).
  assert (IZR (2 ^ 52) = IZR (2 ^ 32) * IZR (2 ^ 20)) as H4
    by (rewrite <- mult_IZR; f_equal).
  assert (IZR (2 ^ 31) < IZR (2 ^ 32)) as H5 by (apply IZR_lt; lia).
  pose proof (bpow_gt_0 e) as H6.
  assert (/ IZR (2 ^ 20) * IZR (2 ^ 20) = 1) as H7 by (field; lra).
  assert (IZR (2 ^ 32) <= IZR (2 ^ 52) * bpow e); [|nra].
  rewrite H4. nra.
Qed.

Lemma Prim2SF_double_of_int n :
  (1 <= n <= 2 ^ 31)%Z ->
  Prim2SF (double_of_int n) = binary_round prec emax false (Z.to_pos n) 0.
Proof.
  intros Hn. unfold double_of_int. destruct (Z.ltb_spec n 0); [lia|].
  rewrite of_uint63_spec, Uint63.of_Z_spec.
  assert (wB = 2 ^ 63)%Z as HwB by reflexivity.
  rewrite Z.mod_small by lia.
  destruct n as [| p | p]; try lia. reflexivity.
Qed.

(** The conversion of a count is exact. *)
Lemma double_of_int_normal n :
  (1 <= n <= 2 ^ 31)%Z ->
  normal (-52) (-21) (Prim2SF (double_of_int n)) /\
  SF2R (Prim2SF (double_of_int n)) = IZR n.
Proof.
  intros Hn. rewrite (Prim2SF_double_of_int n Hn).
  destruct n as [| p | p]; try lia. cbn [Z.to_pos].
  pose proof (digits2_pos_bounds p) as Hp.
  set (d := Zpos (digits2_pos p)) in *.
  assert (1 <= d <= 32)%Z as Hd.
  { split; [unfold d; lia|].
    assert (d - 1 < 32)%Z; [|lia]. apply (Z.pow_lt_mono_r_iff 2); lia. }
  destruct (binary_round_normal p 0) as (M & HR & ->); [fold d; lia|].
  fold d in HR. replace (d + 0 - 53)%Z with (d - 53)%Z in * by lia.
  assert (M = Zpos p * 2 ^ (53 - d))%Z as HM.
  { destruct HR as (_ & _ & [H1 H2] & _).
    rewrite bpow_0, Rmult_1_r in H1, H2.
    pose proof (bpow_gt_0 (d - 53)) as Hb.
    assert (bpow (d - 53) * IZR (2 ^ (53 - d)) = 1) as Hinv.
    { rewrite <- bpow_IZR by lia. rewrite <- bpow_plus.
      replace (d - 53 + (53 - d))%Z with 0%Z by lia. reflexivity. }
    assert (0 < IZR (2 ^ (53 - d))) as Hpos
      by (apply IZR_lt; apply Z.pow_pos_nonneg; lia).
    assert (IZR M - / 2 <= IZR (Zpos p * 2 ^ (53 - d)) <= IZR M + / 2) as [H3 H4].
    { rewrite mult_IZR.
      apply (Rmult_le_compat_r (IZR (2 ^ (53 - d)))) in H1, H2; try lra.
      rewrite Rmult_assoc, Hinv in H1, H2. split; lra. }
    assert (IZR (M - 1) < IZR (Zpos p * 2 ^ (53 - d)) < IZR (M + 1)) as [H5 H6]
      by (rewrite minus_IZR, plus_IZR; split; lra).
    apply lt_IZR in H5, H6. lia. }
  assert (2 ^ 52 <= M < 2 ^ 53)%Z as HMr.
  { rewrite HM. split.
    - replace 52%Z with ((d - 1) + (53 - d))%Z by lia. rewrite Z.pow_add_r by lia.
      apply Z.mul_le_mono_nonneg_r; [apply Z.pow_nonneg|]; lia.
    - replace 53%Z with (d + (53 - d))%Z at 2 by lia. rewrite Z.pow_add_r by lia.
      apply Z.mul_lt_mono_pos_r; [apply Z.pow_pos_nonneg|]; lia. }
  split.
  - unfold normal_float. destruct (Z.eqb_spec M (2 ^ 53)); [lia|].
    exists (Z.to_pos M), (d - 53)%Z. split; [reflexivity|]. split; [|lia].
    apply digits2_pos_unique. rewrite Z2Pos.id by lia. simpl (53 - 1)%Z. lia.
  - rewrite normal_float_val by lia. rewrite HM, mult_IZR.
    rewrite <- (bpow_IZR (53 - d)) by lia. rewrite Rmult_assoc, <- bpow_plus.
    match goal with
    | |- context [bpow ?e] => replace e with 0%Z by (unfold d; lia)
    end.
    rewrite bpow_0. lra.
Qed.

Lemma unit_sum_le elo K f :
  (0 <= K)%Z -> unit_sum elo K f -> SF2R f <= IZR K.
Proof.
  intros HK [(s & ->) | [_ H]]; [|exact H]. cbn [SF2R]. apply IZR_le. exact HK.
Qed.

(** Adding a value of the unit interval to a sum bounded by [K] gives a
    sum bounded by [K + 1]: rounding is monotone and [K + 1] is a
    double. *)
Lemma unit_sum_add elo K a b :
  (-1074 <= elo <= -21)%Z -> (0 <= K)%Z -> (K + 1 <= 2 ^ 31)%Z ->
  unit_sum elo K a -> unit_sum elo 1 b ->
  unit_sum elo (K + 1) (SFadd prec emax a b).
Proof.
  intros Helo HK HK1 Ha Hb.
  assert (IZR K <= IZR (K + 1)) as HKK by (apply IZR_le; lia).
  assert (IZR 1 <= IZR (K + 1)) as H1K by (apply IZR_le; lia).
  destruct Ha as [(sa & ->) | [Na Va]], Hb as [(sb & ->) | [Nb Vb]].
  - left. destruct sa, sb; eexists; reflexivity.
  - right. assert (SFadd prec emax (S754_zero sa) b = b) as ->
      by (destruct Nb as (m & e & -> & _); reflexivity).
    split; [exact Nb | lra].
  - right. assert (SFadd prec emax a (S754_zero sb) = a) as ->
      by (destruct Na as (m & e & -> & _); reflexivity).
    split; [exact Na | lra].
  - right.
    pose proof (SFadd_normal a b elo (-21) elo (-21) Na Nb ltac:(lia) ltac:(lia))
      as Hr.
    destruct (double_of_int_normal (K + 1) ltac:(lia)) as [NK VK].
    pose proof (normal_rounds_to _ _ _ NK) as HrK. rewrite VK in HrK.
    assert (SF2R (SFadd prec emax a b) <= IZR (K + 1)) as Hle.
    { rewrite <- VK. refine (rounds_to_mono _ _ _ _ _ _ _ _ _ Hr HrK).
      rewrite plus_IZR. lra. }
    split; [|exact Hle].
    destruct (rounds_to_normal _ _ _ _ Hr) as [Nr _].
    replace (Z.max elo elo) with elo in Nr by lia.
    apply (normal_exponent_bound elo _ _ Nr); [|lia].
    assert (IZR (K + 1) <= IZR (2 ^ 31)) by (apply IZR_le; lia). lra.
Qed.

(** Dividing a sum bounded by [K] by [(double)K] gives a value of the
    unit interval. *)
Lemma unit_sum_div elo K s :
  (-1074 <= elo - 32)%Z -> (elo <= -21)%Z -> (1 <= K <= 2 ^ 31)%Z ->
  unit_sum elo K s ->
  unit_sum (elo - 32) 1 (SFdiv prec emax s (Prim2SF (double_of_int K))).
Proof.
  intros Helo Hhi HK Hs.
  destruct (double_of_int_normal K HK) as [NK VK].
  destruct Hs as [(ss & ->) | [Ns Vs]].
  - left. destruct NK as (m & e & -> & _). cbn [SFdiv]. eexists; reflexivity.
  - right.
    pose proof (SFdiv_normal s _ elo (-21) (-52) (-21) Ns NK ltac:(lia) ltac:(lia))
      as Hr.
    replace (elo - -21 - 53)%Z with (elo - 32)%Z in Hr by lia.
    destruct (double_of_int_normal 1 ltac:(lia)) as [N1 V1].
    pose proof (normal_rounds_to _ _ _ N1) as Hr1. rewrite V1 in Hr1.
    assert (SF2R (SFdiv prec emax s (Prim2SF (double_of_int K))) <= IZR 1) as Hle.
    { rewrite <- V1. refine (rounds_to_mono _ _ _ _ _ _ _ _ _ Hr Hr1).
      rewrite VK. assert (1 <= IZR K) by (apply IZR_le; lia).
      pose proof (normal_val _ _ _ Ns).
      apply Rmult_le_reg_r with (r := IZR K); [lra|].
      unfold Rdiv. rewrite Rmult_assoc, Rinv_l by lra. lra. }
    split; [|exact Hle].
    destruct (rounds_to_normal _ _ _ _ Hr) as [Nr _].
    apply (normal_exponent_bound (elo - 32) _ _ Nr); [|lia].
    assert (IZR 1 <= IZR (2 ^ 31)) by (apply IZR_le; lia). lra.
Qed.

Lemma Prim2SF_one : Prim2SF 1 = S754_finite false 4503599627370496 (-52).
Proof. reflexivity. Qed.

Lemma Prim2SF_unit_low :
  Prim2SF 0x1p-500 = S754_finite false 4503599627370496 (-552).
Proof. reflexivity. Qed.

(** A value of the unit interval compares as one. *)
Lemma unit_sum_in_range elo v :
  unit_sum elo 1 (Prim2SF v) ->
  (0 <=? v)%float = true /\ (v <=? 1)%float = true.
Proof.
  intros [(s & E) | [(m & e & E & Hd & He) Hv]].
  - rewrite !FloatAxioms.leb_spec, E. destruct s; split; reflexivity.
  - pose proof (normal_mantissa _ Hd) as Hm.
    split; apply float_leb_intro; rewrite ?E; try reflexivity.
    + cbn [key lex_lt]. change (key (Prim2SF 0)) with (0, 0, 0)%Z. cbn. lia.
    + rewrite Prim2SF_one. cbn [key lex_lt]. rewrite E in Hv.
      cbn [SF2R cond_Zopp] in Hv. pose proof (bpow_gt_0 e) as Hb.
      assert (IZR (2 ^ 52) <= IZR (Zpos m)) as H1 by (apply IZR_le; lia).
      assert (IZR (2 ^ 52) * bpow (-52) = 1) as H2.
      { rewrite <- bpow_IZR by lia. rewrite <- bpow_plus. reflexivity. }
      assert (0 < IZR (2 ^ 52)) as H3 by (apply IZR_lt; lia).
      intros [H | [_ [H | [H H']]]]; try lia.
      * pose proof (bpow_lt (-52)%Z e H) as H4. nra.
      * subst e. assert (IZR (2 ^ 52) < IZR (Zpos m)) by (apply IZR_lt; lia). nra.
Qed.

(** A mask value of the unit interval is a zero or a normal number of at
    most 1. *)
Lemma unit_value_sum v : unit_value v -> unit_sum (-552) 1 (Prim2SF v).
Proof.
  intros [H | [Hlo Hhi]].
  - left. rewrite FloatAxioms.eqb_spec in H. change (Prim2SF 0) with (S754_zero false) in H.
    destruct (Prim2SF v) as [s | s | | s m e]; try discriminate; try (destruct s; discriminate).
    eexists; reflexivity.
  - right. apply float_leb_true in Hlo as (_ & Nv & Klo).
    apply float_leb_true in Hhi as (_ & _ & Khi).
    pose proof (Prim2SF_valid v) as Hv.
    rewrite Prim2SF_unit_low in Klo. rewrite Prim2SF_one in Khi.
    destruct (Prim2SF v) as [s | s | | s m e]; try discriminate;
      try destruct s; cbn [key lex_lt] in Klo, Khi; try lia.
    assert (-552 <= e <= -52)%Z as He by lia.
    pose proof (valid_normal false m e Hv ltac:(lia)) as Hd.
    pose proof (normal_mantissa _ Hd) as Hm.
    split; [exists m, e; repeat split; try assumption; lia|].
    cbn [SF2R cond_Zopp]. pose proof (bpow_gt_0 e) as Hb.
    assert (IZR (2 ^ 52) * bpow (-52) = 1) as H2.
    { rewrite <- bpow_IZR by lia. rewrite <- bpow_plus. reflexivity. }
    assert (0 < IZR (2 ^ 52)) as H3 by (apply IZR_lt; lia).
    destruct (Z.eq_dec e (-52)%Z) as [-> | Hne].
    + assert (Zpos m = 2 ^ 52)%Z as -> by lia. lra.
    + pose proof (bpow_lt e (-52)%Z ltac:(lia)) as H4.
      assert (IZR (Zpos m) < IZR (2 ^ 53)) as H5 by (apply IZR_lt; lia).
      assert (IZR (2 ^ 53) = 2 * IZR (2 ^ 52)) as H6
        by (rewrite <- mult_IZR; f_equal).
      nra.
Qed.

(** The running sum of [n] values of the unit interval is at most [n]. *)
Lemma unit_sum_fold elo (l : list float) :
  (-1074 <= elo <= -21)%Z ->
  Forall (fun v => unit_sum elo 1 (Prim2SF v)) l ->
  forall acc K,
    (0 <= K)%Z -> (K + Z.of_nat (length l) <= 2 ^ 31)%Z ->
    unit_sum elo K (Prim2SF acc) ->
    unit_sum elo (K + Z.of_nat (length l))
             (Prim2SF (fold_left PrimFloat.add l acc)).
Proof.
  intros Helo Hl. induction Hl as [| v l Hv Hl IH]; intros acc K HK Hlen Hacc.
  - cbn [length fold_left]. replace (K + Z.of_nat 0)%Z with K by lia. exact Hacc.
  - cbn [length fold_left] in *.
    replace (K + Z.of_nat (S (length l)))%Z with (K + 1 + Z.of_nat (length l))%Z
      by lia.
    apply IH; try lia. rewrite FloatAxioms.add_spec.
    apply unit_sum_add; try assumption; lia.
Qed.

(** The mean of values of the unit interval is one, 32 binades lower at
    worst. *)
Lemma unit_sum_mean elo (l : list float) :
  (-1042 <= elo <= -21)%Z -> (1 <= Z.of_nat (length l) <= 2 ^ 31)%Z ->
  Forall (fun v => unit_sum elo 1 (Prim2SF v)) l ->
  unit_sum (elo - 32) 1 (Prim2SF (mean l)).
Proof.
  intros Helo Hlen Hl. unfold mean. rewrite FloatAxioms.div_spec.
  apply unit_sum_div; try lia.
  apply (unit_sum_fold elo l ltac:(lia) Hl 0%float 0 ltac:(lia) ltac:(lia)).
  left. exists false. reflexivity.
Qed.

Lemma normal_SF2R_inj elo ehi elo' ehi' f f' :
  normal elo ehi f -> normal elo' ehi' f' -> SF2R f = SF2R f' -> f = f'.
Proof.
  intros (m & e & -> & Hd & _) (m' & e' & -> & Hd' & _) E.
  pose proof (normal_mantissa _ Hd) as Hm. pose proof (normal_mantissa _ Hd') as Hm'.
  cbn [SF2R cond_Zopp] in E.
  assert (forall (a b : positive) (ea eb : Z),
            (2 ^ 52 <= Zpos a < 2 ^ 53)%Z -> (2 ^ 52 <= Zpos b < 2 ^ 53)%Z ->
            IZR (Zpos a) * bpow ea = IZR (Zpos b) * bpow eb -> (ea < eb)%Z -> False)
    as Hlt.
  { intros a b ea eb Ha Hb Eab Hlt.
    pose proof (bpow_lt ea eb Hlt) as H1. pose proof (bpow_gt_0 ea) as H2.
    assert (IZR (Zpos a) < IZR (2 ^ 53)) as H3 by (apply IZR_lt; lia).
    assert (IZR (2 ^ 52) <= IZR (Zpos b)) as H4 by (apply IZR_le; lia).
    assert (IZR (2 ^ 53) = 2 * IZR (2 ^ 52)) as H5 by (rewrite <- mult_IZR; f_equal).
    assert (0 < IZR (2 ^ 52)) as H6 by (apply IZR_lt; lia).
    assert (IZR (2 ^ 52) * (2 * bpow ea) <= IZR (Zpos b) * bpow eb) by nra.
    nra. }
  assert (e = e') as <-.
  { destruct (Z.lt_trichotomy e e') as [H | [H | H]]; [|exact H|].
    - destruct (Hlt m m' e e' Hm Hm' E H).
    - destruct (Hlt m' m e' e Hm' Hm (eq_sym E) H). }
  pose proof (bpow_gt_0 e) as Hb.
  assert (IZR (Zpos m) = IZR (Zpos m')) as Em by nra.
  apply eq_IZR in Em. congruence.
Qed.

(** The rounding of a real that is a double is that double. *)
Lemma rounds_to_exact x elo ehi elo' ehi' f g :
  rounds_to x elo ehi f -> normal elo' ehi' g -> SF2R g = x -> f = g.
Proof.
  intros Hf Ng Eg. pose proof (normal_rounds_to _ _ _ Ng) as Hg. rewrite Eg in Hg.
  destruct (rounds_to_normal _ _ _ _ Hf) as [Nf _].
  apply (normal_SF2R_inj _ _ _ _ _ _ Nf Ng).
  pose proof (rounds_to_mono x x _ _ _ _ _ _ ltac:(lra) Hf Hg).
  pose proof (rounds_to_mono x x _ _ _ _ _ _ ltac:(lra) Hg Hf). lra.
Qed.

Lemma double_of_int_succ j :
  (0 <= j)%Z -> (j + 1 <= 2 ^ 31)%Z ->
  (double_of_int j + 1)%float = double_of_int (j + 1).
Proof.
  intros Hj Hj1. destruct (Z.eq_dec j 0%Z) as [-> | Hne]; [reflexivity|].
  apply Prim2SF_inj. rewrite FloatAxioms.add_spec.
  destruct (double_of_int_normal j ltac:(lia)) as [Nj Vj].
  destruct (double_of_int_normal 1%Z ltac:(lia)) as [N1 V1].
  destruct (double_of_int_normal (j + 1) ltac:(lia)) as [Ns Vs].
  change (Prim2SF 1) with (Prim2SF (double_of_int 1%Z)).
  pose proof (SFadd_normal _ _ (-52) (-21) (-52) (-21) Nj N1 ltac:(lia) ltac:(lia))
    as Hr.
  apply (rounds_to_exact _ _ _ _ _ _ _ Hr Ns).
  rewrite Vs, Vj, V1, plus_IZR. reflexivity.
Qed.

Lemma double_of_int_div_self n :
  (1 <= n <= 2 ^ 31)%Z -> (double_of_int n / double_of_int n)%float = 1%float.
Proof.
  intros Hn. apply Prim2SF_inj. rewrite FloatAxioms.div_spec.
  destruct (double_of_int_normal n Hn) as [Nn Vn].
  destruct (double_of_int_normal 1%Z ltac:(lia)) as [N1 V1].
  change (Prim2SF 1) with (Prim2SF (double_of_int 1%Z)).
  pose proof (SFdiv_normal _ _ (-52) (-21) (-52) (-21) Nn Nn ltac:(lia) ltac:(lia))
    as Hr.
  apply (rounds_to_exact _ _ _ _ _ _ _ Hr N1).
  rewrite V1, Vn. assert (1 <= IZR n) by (apply IZR_le; lia). field. lra.
Qed.

Lemma zero_div_double_of_int n :
  (1 <= n <= 2 ^ 31)%Z -> (0 / double_of_int n)%float = 0%float.
Proof.
  intros Hn. apply Prim2SF_inj. rewrite FloatAxioms.div_spec.
  destruct (double_of_int_normal n Hn) as [(m & e & -> & _) _]. reflexivity.
Qed.

Lemma sum_of_ones (l : list float) :
  Forall (fun v => v = 1%float) l ->
  forall j, (0 <= j)%Z -> (j + Z.of_nat (length l) <= 2 ^ 31)%Z ->
    fold_left PrimFloat.add l (double_of_int j)
    = double_of_int (j + Z.of_nat (length l)).
Proof.
  intros Hl. induction Hl as [| v l -> Hl IH]; intros j Hj Hlen.
  - cbn [length fold_left]. f_equal. lia.
  - cbn [length fold_left] in *. rewrite double_of_int_succ by lia.
    rewrite IH by lia. f_equal. lia.
Qed.

Lemma sum_of_zeros (l : list float) :
  Forall (fun v => v = 0%float) l -> fold_left PrimFloat.add l 0%float = 0%float.
Proof.
  intros Hl. induction Hl as [| v l -> Hl IH]; [reflexivity|].
  cbn [fold_left]. exact IH.
Qed.

(** The mean of equal values 0.0, or 1.0, is that value, exactly. *)
Lemma mean_flat (c : float) (l : list float) :
  c = 0%float \/ c = 1%float ->
  (1 <= Z.of_nat (length l) <= 2 ^ 31)%Z ->
  Forall (fun v => v = c) l -> mean l = c.
Proof.
  intros [-> | ->] Hlen Hl; unfold mean.
  - rewrite sum_of_zeros by exact Hl. apply zero_div_double_of_int. exact Hlen.
  - change 0%float with (double_of_int 0%Z).
    rewrite (sum_of_ones l Hl 0%Z) by lia. apply double_of_int_div_self. lia.
Qed.

End SmoothRange.

Lemma in_bounds_window_length c n half :
  (0 <= c < n)%Z -> (0 <= half)%Z ->
  (1 <= Z.of_nat (length (in_bounds_window c n half)) <= n)%Z.
Proof.
  intros Hc Hh. unfold in_bounds_window. rewrite length_seqZ. lia.
Qed.

Lemma in_bounds_window_range c n half k :
  (0 <= c < n)%Z -> (0 <= half)%Z ->
  k ∈ in_bounds_window c n half -> (0 <= k < n)%Z.
Proof.
  intros Hc Hh Hk. unfold in_bounds_window in Hk.
  apply elem_of_seqZ in Hk. lia.
Qed.

Lemma window_mean_unit elo (cells : Z -> float) c n half :
  (-1042 <= elo <= -21)%Z -> (0 <= c < n)%Z -> (n <= 2 ^ 31)%Z -> (0 <= half)%Z ->
  (forall k, (0 <= k < n)%Z -> unit_sum elo 1 (Prim2SF (cells k))) ->
  unit_sum (elo - 32) 1 (Prim2SF (mean (cells <$> in_bounds_window c n half))).
Proof.
  intros Helo Hc Hn Hh Hcells.
  pose proof (in_bounds_window_length c n half Hc Hh) as Hlen.
  apply unit_sum_mean; [exact Helo | rewrite length_fmap; lia|].
  apply Forall_fmap. apply Forall_forall. intros k Hk. cbn.
  apply Hcells. exact (in_bounds_window_range c n half k Hc Hh Hk).
Qed.

(** X28: the smoother keeps the unit interval: when every mask value is
    a zero or lies between [2^-500] and 1, every smoothed value lies
    between 0 and 1, rounding included (each running sum of [n] samples
    is at most [n], and the mean of [n] samples at most 1). *)
Theorem smooth_keeps_unit_range mask output width height kernel_size temp :
  (0 < width <= INT_MAX)%Z -> (0 < height <= INT_MAX)%Z -> (0 < kernel_size)%Z ->
  sized mask (width * height) -> sized output (width * height) ->
  sized temp (width * height) ->
  Forall unit_value mask ->
  exists output',
    smooth_mask_native (Some mask) (Some output) width height kernel_size
      (Some temp)
    = Ok (MASK_PROCESSOR_SUCCESS, Some output') /\
    Forall (fun v => (0 <=? v)%float = true /\ (v <=? 1)%float = true) output'.
Proof.
  intros Hw Hh Hk Hmk Hout Htmp Hunit. unfold INT_MAX in *.
  destruct (Z.eq_dec kernel_size 1) as [-> | Hk1].
  - exists mask. split.
    + unfold smooth_mask_native.
      destruct (Z.leb_spec width 0); [lia|]. destruct (Z.leb_spec height 0); [lia|].
      cbn [orb Z.leb Z.compare].
      rewrite (memcpy_all output mask (width * height) Hout Hmk). reflexivity.
    + eapply Forall_impl; [exact Hunit|]. intros v Hv.
      apply (unit_sum_in_range (-552)). apply unit_value_sum. exact Hv.
  - destruct (smooth_mask_native_run mask output width height kernel_size temp
                ltac:(lia) ltac:(lia) ltac:(lia) Hmk Hout Htmp)
      as (temp' & output' & E & Hs & H1 & H2).
    exists output'. split; [exact E|].
    set (half := Z.quot kernel_size 2) in *.
    assert (0 <= half)%Z as Hhalf by (apply Z.quot_pos; lia).
    assert (forall x y, in_grid width height x y ->
              unit_sum (-552) 1 (Prim2SF (cell mask (y * width + x)))) as Hm.
    { intros x y Hg. pose proof (cell_index_range _ _ _ _ Hg) as Hi.
      unfold sized in Hmk.
      destruct (lookup_lt_is_Some_2 mask (Z.to_nat (y * width + x)) ltac:(lia))
        as (v & Ev).
      rewrite (cell_lookup _ _ _ Ev). apply unit_value_sum.
      exact (Forall_lookup_1 _ _ _ _ Hunit Ev). }
    assert (forall x y, in_grid width height x y ->
              unit_sum (-584) 1 (Prim2SF (cell temp' (y * width + x)))) as Ht.
    { intros x y Hg. rewrite (cell_lookup _ _ _ (H1 x y Hg)).
      unfold horizontal_mean. destruct Hg as [Hx Hy].
      apply (window_mean_unit (-552) (fun nx => cell mask (y * width + nx)));
        try lia.
      intros k Hk'. apply Hm. split; assumption. }
    apply Forall_lookup_2. intros j v Ej. unfold sized in Hs.
    pose proof (lookup_lt_Some _ _ _ Ej) as Hj.
    pose proof (Z.div_mod (Z.of_nat j) width ltac:(lia)) as Hdm.
    pose proof (Z.mod_pos_bound (Z.of_nat j) width ltac:(lia)) as Hmod.
    assert (in_grid width height (Z.of_nat j mod width) (Z.of_nat j / width)) as Hg.
    { split; [exact Hmod|]. split; [apply Z.div_pos; lia|].
      apply Z.div_lt_upper_bound; lia. }
    pose proof (H2 _ _ Hg) as Eo.
    replace (Z.to_nat (Z.of_nat j / width * width + Z.of_nat j mod width))
      with j in Eo by lia.
    rewrite Ej in Eo. injection Eo as ->.
    apply (unit_sum_in_range (-616)). unfold vertical_mean. destruct Hg as [Hx Hy].
    apply (window_mean_unit (-584)
             (fun ny => cell temp' (ny * width + Z.of_nat j mod width)));
      try lia.
    intros k Hk'. apply Ht. split; assumption.
Qed.

Lemma smooth_keeps_unit_range_witness :
  exists output',
    smooth_mask_native (Some [1; 0; 0.25; 0]%float) (Some [0; 0; 0; 0]%float) 2 2 3
      (Some [0; 0; 0; 0]%float)
    = Ok (MASK_PROCESSOR_SUCCESS, Some output') /\
    Forall (fun v => (0 <=? v)%float = true /\ (v <=? 1)%float = true) output'.
Proof.
  apply (smooth_keeps_unit_range [1; 0; 0.25; 0]%float [0; 0; 0; 0]%float 2 2 3
           [0; 0; 0; 0]%float); unfold INT_MAX; try lia; try reflexivity.
  repeat constructor; unfold unit_value;
    first [ left; reflexivity | right; split; reflexivity ].
Defined.

(** X29: flat regions are kept exactly: a cell whose window, as far as it
    lies in the grid, holds only 0.0, or only 1.0, is smoothed to that
    same value. *)
Theorem smooth_keeps_flat_regions
    mask output width height kernel_size temp (c : float) x y :
  0 < width <= INT_MAX -> 0 < height <= INT_MAX -> 1 < kernel_size ->
  sized mask (width * height) -> sized output (width * height) ->
  sized temp (width * height) ->
  c = 0%float \/ c = 1%float -> in_grid width height x y ->
  (forall nx ny, in_grid width height nx ny ->
     Z.abs (nx - x) <= Z.quot kernel_size 2 ->
     Z.abs (ny - y) <= Z.quot kernel_size 2 ->
     mask !! Z.to_nat (ny * width + nx) = Some c) ->
  exists output',
    smooth_mask_native (Some mask) (Some output) width height kernel_size
      (Some temp)
    = Ok (MASK_PROCESSOR_SUCCESS, Some output') /\
    output' !! Z.to_nat (y * width + x) = Some c.
Proof.
  intros Hw Hh Hk Hmk Hout Htmp Hc Hg Hflat. unfold INT_MAX in *.
  destruct (smooth_mask_native_run mask output width height kernel_size temp
              ltac:(lia) ltac:(lia) Hk Hmk Hout Htmp)
    as (temp' & output' & E & _ & H1 & H2).
  exists output'. split; [exact E|].
  set (half := Z.quot kernel_size 2) in *.
  assert (0 <= half) as Hhalf by (apply Z.quot_pos; lia).
  destruct Hg as [Hx Hy].
  assert (forall k n cc, 0 <= cc < n -> k ∈ in_bounds_window cc n half ->
            0 <= k < n /\ Z.abs (k - cc) <= half) as Hwin.
  { intros k n cc Hcc Hk'. unfold in_bounds_window in Hk'.
    apply elem_of_seqZ in Hk'. lia. }
  rewrite (H2 x y ltac:(split; assumption)). f_equal. unfold vertical_mean.
  pose proof (in_bounds_window_length y height half Hy Hhalf) as Ly.
  pose proof (in_bounds_window_length x width half Hx Hhalf) as Lx.
  apply mean_flat; [exact Hc | rewrite length_fmap; lia|].
  apply Forall_fmap. apply Forall_forall. intros ny Hny. cbn.
  destruct (Hwin ny height y Hy Hny) as [Hny1 Hny2].
  rewrite (cell_lookup _ _ _ (H1 x ny ltac:(split; assumption))).
  unfold horizontal_mean.
  apply mean_flat; [exact Hc | rewrite length_fmap; lia|].
  apply Forall_fmap. apply Forall_forall. intros nx Hnx. cbn.
  destruct (Hwin nx width x Hx Hnx) as [Hnx1 Hnx2].
  apply cell_lookup. apply Hflat; [split|..]; assumption.
Qed.

Lemma smooth_keeps_flat_regions_witness :
  exists output',
    smooth_mask_native (Some [1; 1; 1; 1]%float) (Some [0; 0; 0; 0]%float) 2 2 3
      (Some [0; 0; 0; 0]%float)
    = Ok (MASK_PROCESSOR_SUCCESS, Some output') /\
    output' !! Z.to_nat (0 * 2 + 0) = Some 1%float.
Proof.
  apply (smooth_keeps_flat_regions [1; 1; 1; 1]%float [0; 0; 0; 0]%float 2 2 3
           [0; 0; 0; 0]%float 1%float 0 0); unfold INT_MAX, in_grid; try lia;
    try reflexivity.
  - right. reflexivity.
  - intros nx ny [Hx Hy] _ _.
    assert (nx = 0 \/ nx = 1) as [-> | ->] by lia;
      assert (ny = 0 \/ ny = 1) as [-> | ->] by lia; reflexivity.
Defined.

(** X30: on a mask that holds only 0.0 and 1.0 the two variants of
    [expand_mask_native] agree at radius 0: both return the mask. *)
Theorem expand_radius_0_binary mask output output' width height temp_buffer :
  0 < width -> 0 < height ->
  sized mask (width * height) -> sized output (width * height) ->
  sized output' (width * height) ->
  Forall (fun v => v = 0%float \/ v = 1%float) mask ->
  Native.expand_mask_native (Some mask) (Some output) width height 0
  = Ok (MASK_PROCESSOR_SUCCESS, Some mask) /\
  Ios.expand_mask_native (Some mask) (Some output') width height 0 temp_buffer
  = Ok (MASK_PROCESSOR_SUCCESS, Some mask).
Proof.
  intros Hw Hh Hmk Hout Hout' Hbin. split.
  - destruct (native_expand_mask_disk mask output width height 0
                Hw Hh ltac:(lia)
                (squares_in_range_small width height 0 ltac:(lia) Hw Hh)
                Hmk Hout) as (o & -> & HP).
    do 3 f_equal. apply (grid_ext o mask width height); try assumption.
    { exact (painted_sized _ _ _ _ HP). }
    intros x y Hg. pose proof (cell_index_range _ _ _ _ Hg) as Hi.
    unfold sized in Hmk.
    destruct (lookup_lt_is_Some_2 mask (Z.to_nat (y * width + x)) ltac:(lia))
      as (v & Ev).
    rewrite Ev. destruct (painted_iff _ _ _ _ _ _ HP Hg) as [P1 P0].
    destruct (Forall_lookup_1 _ _ _ _ Hbin Ev) as [-> | ->].
    + apply P0. intros Hc. apply covered_radius_0 in Hc; [|exact Hg].
      destruct Hc as (v' & Ev' & Hv'). rewrite Ev in Ev'. injection Ev' as <-.
      vm_compute in Hv'. discriminate.
    + apply P1. apply covered_radius_0; [exact Hg|].
      exists 1%float. split; [exact Ev | reflexivity].
  - unfold Ios.expand_mask_native.
    destruct (Z.leb_spec width 0); [lia|]. destruct (Z.leb_spec height 0); [lia|].
    cbn [orb Z.ltb Z.compare Z.eqb].
    rewrite (memcpy_all output' mask (width * height) Hout' Hmk). reflexivity.
Qed.

Lemma expand_radius_0_binary_witness :
  Native.expand_mask_native (Some centre_3x3) (Some plus_3x3) 3 3 0
  = Ok (MASK_PROCESSOR_SUCCESS, Some centre_3x3) /\
  Ios.expand_mask_native (Some centre_3x3) (Some plus_3x3) 3 3 0 None
  = Ok (MASK_PROCESSOR_SUCCESS, Some centre_3x3).
Proof.
  apply (expand_radius_0_binary centre_3x3 plus_3x3 plus_3x3 3 3 None);
    try lia; try reflexivity.
  repeat constructor; first [ left; reflexivity | right; reflexivity ].
Defined.
